(** * EColiSize: pixel calibration and scale-bar overlay

    A shallow embedding of
    [Computational-Exploration/Chapter-2/EColiSize.py].  The script reads a
    graticule micrograph, derives a nm-per-pixel calibration (once from two
    positions read off with the data cursor, once from two mouse clicks),
    normalises the E. coli micrograph to the range 0..1 and blackens a ruler
    with four notches into the normalised picture.

    Numbers are modelled as the interpreter has them: Python [int] as [Z],
    Python [float] and numpy [float64] as IEEE-754 binary64 values
    ([spec_float] with [prec = 53], [emax = 1024]), numpy [uint16] samples as
    [Z] with the wrap-around modulo 2^16 written out.  Arrays live in a store
    and are reached through references, as numpy arrays are.

    What the embedding takes from outside the script:
    - [imread] yields a 2-D [uint16] array (the script reports the dtype of
      the graticule as 16-bit; both pictures come from the same camera);
    - [ginput] yields a list of (x, y) tuples of numpy [float64] scalars
      (the event coordinates of matplotlib); [-], [abs], [*] and [/] with
      such a scalar as an operand are numpy's, the IEEE operations: a zero
      divisor gives an infinity or NaN and a warning, never an exception;
    - the embedding covers lines 27-171, up to the last write into the
      normalised picture; what the plotting calls do, between these lines
      and after them, is not modelled: of the displayed expressions only
      the subscripts and reductions are kept. *)

From Stdlib Require Import ZArith QArith Qabs Qpower Lia List Bool.
From Stdlib Require Import Floats.SpecFloat.
From stdpp Require Import base option list gmap strings.

Open Scope Z_scope.

(** ** Binary64 arithmetic *)

Module F64.

Definition prec : Z := 53.
Definition emax : Z := 1024.
Abbreviation emin := (SpecFloat.emin prec emax).

Definition float : Type := spec_float.

Definition sub : float -> float -> float := SFsub prec emax.
Definition mul : float -> float -> float := SFmul prec emax.
Definition div : float -> float -> float := SFdiv prec emax.
Definition abs : float -> float := SFabs.
Definition eqb : float -> float -> bool := SFeqb.
Definition ltb : float -> float -> bool := SFltb.
Definition leb : float -> float -> bool := SFleb.
Definition valid : float -> bool := valid_binary prec emax.

(** Conversion of an integer, rounding to nearest even; exact below 2^53. *)
Definition of_Z (n : Z) : float := binary_normalize prec emax n 0 false.

Definition zero : float := S754_zero false.
Definition one : float := of_Z 1.

Definition is_zero (x : float) : bool :=
  match x with S754_zero _ => true | _ => false end.

Definition is_finite (x : float) : bool :=
  match x with S754_zero _ | S754_finite _ _ _ => true | _ => false end.

End F64.

Abbreviation float := F64.float.

(** ** The Python fragment the script uses *)

Inductive exn : Type :=
  | ZeroDivisionError
  | OverflowError
  | ValueError
  | IndexError
  | KeyError
  | TypeError.

Inductive result (A : Type) : Type :=
  | Ok (a : A)
  | Raise (e : exn).

Arguments Ok {A} a.
Arguments Raise {A} e.

Definition result_bind {A B : Type} (r : result A) (k : A -> result B) : result B :=
  match r with
  | Ok a => k a
  | Raise e => Raise e
  end.

Notation "'try' x <- r ; k" := (result_bind r (fun x => k))
  (at level 10, x name, r at level 100, k at level 200).

(** [x / y] on a Python float and a Python int or float: a zero divisor
    raises, everything else is the IEEE quotient. *)
Definition py_truediv (x y : float) : result float :=
  if F64.is_zero y then Raise ZeroDivisionError else Ok (F64.div x y).

(** [x / y] where [y] is a numpy [float64] scalar and [x] a Python number:
    numpy's division answers ([float64] is a subclass of [float], so its
    reflected operator comes first).  It is the IEEE quotient for every
    divisor: zero gives an infinity or NaN, and numpy only warns. *)
Definition float64_truediv (x y : float) : float := F64.div x y.

(** [int(x)]: truncation toward zero; NaN and the infinities raise. *)
Definition py_int (x : float) : result Z :=
  match x with
  | S754_nan => Raise ValueError
  | S754_infinity _ => Raise OverflowError
  | S754_zero _ => Ok 0
  | S754_finite s m e => Ok (cond_Zopp s (Z.shiftl (Z.pos m) e))
  end.

(** [seq[i]] on a Python list or tuple. *)
Definition py_getitem {A : Type} (l : list A) (i : Z) : result A :=
  let n := Z.of_nat (length l) in
  let j := if i <? 0 then i + n else i in
  if (0 <=? j) && (j <? n)
  then match l !! Z.to_nat j with Some a => Ok a | None => Raise IndexError end
  else Raise IndexError.

(** [d[k]] on a dict with string keys. *)
Definition py_dict_get {V : Type} (d : gmap string V) (k : string) : result V :=
  match d !! k with
  | Some v => Ok v
  | None => Raise KeyError
  end.

(** ** Calibration *)

(** Lines 74-75: the two positions read with the data cursor. *)
Definition pixels_between_lines_cursor : Z := 1299 - 62.

(** [1000. * 8 * 10]: the int operands are converted to float, the products
    are taken left to right. *)
Definition known_distance_nm : float :=
  F64.mul (F64.mul (F64.of_Z 1000) (F64.of_Z 8)) (F64.of_Z 10).

Definition nm_per_pixel_cursor : result float :=
  py_truediv known_distance_nm (F64.of_Z pixels_between_lines_cursor).

(** Lines 96-104: [clicks] is what [ginput(2)] returned, a list of (x, y)
    tuples of numpy [float64] scalars; so is the distance, and the division
    of line 104 is numpy's. *)
Abbreviation click := (float * float)%type.

Definition pixels_between_lines (clicks : list click) : result float :=
  try c1 <- py_getitem clicks 1;
  try c0 <- py_getitem clicks 0;
  Ok (F64.abs (F64.sub (fst c1) (fst c0))).

Definition nm_per_pixel (clicks : list click) : result float :=
  try d <- pixels_between_lines clicks;
  Ok (float64_truediv known_distance_nm d).

(** ** numpy arrays

    A 2-D array is the list of its rows.  The two micrographs are 16-bit
    images (the script prints the dtype of the first one): their samples are
    [uint16], and arithmetic between [uint16] operands stays in [uint16],
    wrapping modulo 2^16.  True division of integer arrays yields
    [float64]. *)

Abbreviation grid A := (list (list A)).

Definition nrows {A : Type} (g : grid A) : nat := length g.

Definition ncols {A : Type} (g : grid A) : nat :=
  match g with
  | [] => 0%nat
  | r :: _ => length r
  end.

(** All rows have the same length: the array is rectangular. *)
Definition rectangular {A : Type} (g : grid A) : Prop :=
  Forall (fun r => length r = ncols g) g.

Definition pixel {A : Type} (g : grid A) (i j : nat) : option A :=
  g !! i ≫= fun r => r !! j.

Definition uint16_max : Z := 65535.

Definition wrap16 (z : Z) : Z := z mod 65536.

Definition is_uint16 (z : Z) : Prop := 0 <= z <= uint16_max.

Definition uint16_grid (g : grid Z) : Prop :=
  Forall (Forall is_uint16) g.

(** [np.min] and [np.max] over all elements; a zero-size array raises. *)
Definition reduce (f : Z -> Z -> Z) (l : list Z) : result Z :=
  match l with
  | [] => Raise ValueError
  | x :: l' => Ok (foldr f x l')
  end.

Definition np_min (g : grid Z) : result Z := reduce Z.min (concat g).
Definition np_max (g : grid Z) : result Z := reduce Z.max (concat g).

(** An elementwise operation (a ufunc with one array operand). *)
Definition elementwise {A B : Type} (f : A -> B) (g : grid A) : grid B :=
  fmap (M := list) (fmap (M := list) f) g.

(** [a - s] for a [uint16] array and a [uint16] scalar. *)
Definition np_subtract (g : grid Z) (s : Z) : grid Z :=
  elementwise (fun x => wrap16 (x - s)) g.

(** [a / s] for a [uint16] array and a [uint16] scalar: both are converted
    to [float64]; a zero divisor only sets a floating-point warning, the
    quotient is then NaN or an infinity. *)
Definition np_true_divide (g : grid Z) (s : Z) : grid float :=
  elementwise (fun x => F64.div (F64.of_Z x) (F64.of_Z s)) g.

(** Line 117. *)
Definition normalize (ecoli : grid Z) : result (grid float) :=
  try lo <- np_min ecoli;
  try hi <- np_max ecoli;
  try lo' <- np_min ecoli;
  Ok (np_true_divide (np_subtract ecoli lo) (wrap16 (hi - lo'))).

(** *** Slices

    [slice_bound n i] is where the slice end [i] lands on an axis of
    length [n]: a negative index counts from the end, and the outcome is
    clamped to [0..n].  A slice never raises. *)
Definition slice_bound (n : nat) (i : Z) : nat :=
  let len := Z.of_nat n in
  let j := if i <? 0 then i + len else i in
  Z.to_nat (Z.min (Z.max j 0) len).

Definition in_range (lo hi i : nat) : bool :=
  (lo <=? i)%nat && (i <? hi)%nat.

Definition update_range {A : Type} (lo hi : nat) (f : A -> A) (l : list A) : list A :=
  imap (fun i x => if in_range lo hi i then f x else x) l.

(** [a[r0:r1, c0:c1] = v] *)
Definition assign_slice {A : Type}
    (r0 r1 c0 c1 : Z) (v : A) (a : grid A) : grid A :=
  let rlo := slice_bound (nrows a) r0 in
  let rhi := slice_bound (nrows a) r1 in
  let clo := slice_bound (ncols a) c0 in
  let chi := slice_bound (ncols a) c1 in
  update_range rlo rhi (update_range clo chi (fun _ => v)) a.

(** ** Scale bar *)

Definition scale_bar_xL : Z := 1150.
Definition scale_bar_y : Z := 900.
Definition scale_bar_thickness : Z := 5.
Definition scale_bar_height : Z := 25.

(** Line 132: [1_000 / nm_per_pixel], an int divided by the numpy [float64]
    calibration: never an exception. *)
Definition scale_bar_length (nm : float) : result float :=
  Ok (float64_truediv (F64.of_Z 1000) nm).

(** Lines 145-149. *)
Definition scale_bar_offset (length_px : float) : result (gmap string Z) :=
  try o1 <- py_int length_px;
  try o5 <- py_int (F64.mul (F64.of_Z 5) length_px);
  try o10 <- py_int (F64.mul (F64.of_Z 10) length_px);
  Ok (<["10" := o10]> (<["5" := o5]> (<["1" := o1]> ∅))).

(** Lines 153-156: the horizontal line. *)
Definition horizontal_line (o10 : Z) (a : grid float) : grid float :=
  assign_slice scale_bar_y (scale_bar_y + scale_bar_thickness)
               scale_bar_xL (1 + scale_bar_xL + o10) F64.zero a.

(** One notch, [o] pixels right of the left end. *)
Definition notch (o : Z) (a : grid float) : grid float :=
  assign_slice (scale_bar_y - scale_bar_height) (1 + scale_bar_y)
               (scale_bar_xL + o) (1 + scale_bar_xL + o) F64.zero a.

(** Lines 159-171: a chained assignment stores into its targets from left
    to right. *)
Definition notches (o1 o5 o10 : Z) (a : grid float) : grid float :=
  notch o10 (notch o5 (notch o1 (notch 0 a))).

Definition draw_scale_bar (o1 o5 o10 : Z) (a : grid float) : grid float :=
  notches o1 o5 o10 (horizontal_line o10 a).

(** ** The store

    Python variables hold references; numpy arrays are the objects they
    refer to.  [imread] and every arithmetic expression on arrays allocate a
    new array; a subscript assignment writes into the array its target
    refers to. *)

Inductive ndarray : Type :=
  | Uint16Array (a : grid Z)
  | Float64Array (a : grid float).

Abbreviation ref := nat.
Abbreviation store := (gmap nat ndarray).

Definition Py (A : Type) : Type := store -> result A * store.

Definition ret {A : Type} (a : A) : Py A := fun σ => (Ok a, σ).

Definition bind {A B : Type} (c : Py A) (k : A -> Py B) : Py B :=
  fun σ =>
    match c σ with
    | (Ok a, σ') => k a σ'
    | (Raise e, σ') => (Raise e, σ')
    end.

Notation "'do' x <- c ; k" := (bind c (fun x => k))
  (at level 10, x name, c at level 100, k at level 200).

Definition lift {A : Type} (r : result A) : Py A := fun σ => (r, σ).

Definition alloc (v : ndarray) : Py ref :=
  fun σ => let l := fresh (dom σ) in (Ok l, <[l := v]> σ).

Definition read_uint16 (l : ref) : Py (grid Z) :=
  fun σ =>
    match σ !! l with
    | Some (Uint16Array a) => (Ok a, σ)
    | _ => (Raise TypeError, σ)
    end.

(** A write through a reference to a [float64] array. *)
Definition update_float64 (l : ref) (f : grid float -> grid float) : Py unit :=
  fun σ =>
    match σ !! l with
    | Some (Float64Array a) => (Ok tt, <[l := Float64Array (f a)]> σ)
    | _ => (Raise TypeError, σ)
    end.

Definition imread (file : grid Z) : Py ref := alloc (Uint16Array file).

(** [a[i, j]] with integer subscripts. *)
Definition np_item {A : Type} (a : grid A) (i j : Z) : result A :=
  try r <- py_getitem a i;
  py_getitem r j.

(** ** The script *)

(** Lines 27-105: the graticule and the two calibrations.  The second
    calibration overwrites the first. *)
Definition calibrate (graticule_tif : grid Z) (clicks : list click) : Py float :=
  do graticule <- imread graticule_tif;
  do g <- read_uint16 graticule;
  do _ <- lift (np_min g);
  do _ <- lift (np_max g);
  do _ <- lift (np_item g 20 10);
  do intensity_profile <- lift (py_getitem g 400);
  do _ <- lift nm_per_pixel_cursor;
  lift (nm_per_pixel clicks).

(** Lines 153-171, on the array [ecoli_norm] refers to. *)
Definition overlay (ecoli_norm : ref) (offset : gmap string Z) : Py unit :=
  do o10 <- lift (py_dict_get offset "10");
  do _ <- update_float64 ecoli_norm (horizontal_line o10);
  do _ <- update_float64 ecoli_norm (notch 0);
  do o1 <- lift (py_dict_get offset "1");
  do _ <- update_float64 ecoli_norm (notch o1);
  do o5 <- lift (py_dict_get offset "5");
  do _ <- update_float64 ecoli_norm (notch o5);
  do o10' <- lift (py_dict_get offset "10");
  update_float64 ecoli_norm (notch o10').

(** Lines 117-171, once [ecoli] refers to the loaded picture; the outcome is
    the reference [ecoli_norm]. *)
Definition annotate (nm : float) (ecoli : ref) : Py ref :=
  do e <- read_uint16 ecoli;
  do n <- lift (normalize e);
  do ecoli_norm <- alloc (Float64Array n);
  do length_px <- lift (scale_bar_length nm);
  do offset <- lift (scale_bar_offset length_px);
  do _ <- overlay ecoli_norm offset;
  ret ecoli_norm.

(** Lines 27-171: the script up to the last write into the picture; it
    leaves the references [ecoli] and [ecoli_norm].  The figure that is
    drawn, labelled and saved after line 171 is outside the embedding. *)
Definition EColiSize (graticule_tif ecoli_tif : grid Z) (clicks : list click)
    : Py (ref * ref) :=
  do nm <- calibrate graticule_tif clicks;
  do ecoli <- imread ecoli_tif;
  do ecoli_norm <- annotate nm ecoli;
  ret (ecoli, ecoli_norm).
(** ** Rounding to nearest, ties to even

    The arithmetic behind [binary_round_aux], on integers.  An exact value
    is a fraction [N / D]; [loc_of] places it between two consecutive
    integers and [rne] rounds it.  Values of floats are counted in units of
    the least subnormal, [2 ^ emin], where every finite float is an
    integer. *)

Definition loc_of (N D : Z) : location :=
  if N mod D =? 0 then loc_Exact else loc_Inexact (2 * (N mod D) ?= D).

Definition rne (N D : Z) : Z :=
  let q := N / D in
  match 2 * (N mod D) ?= D with
  | Lt => q
  | Eq => if Z.even q then q else q + 1
  | Gt => q + 1
  end.

Definition rec_of (N D : Z) : shr_record := shr_record_of_loc (N / D) (loc_of N D).

(** [N / D] units, rounded to [prec] significant bits. *)
Definition round_units (prec : Z) (N D : Z) : Z :=
  let k := Z.max (Zdigits2 (N / D) - prec) 0 in
  rne N (D * 2 ^ k) * 2 ^ k.

(** The rounding of [(N / D) * 2 ^ e]. *)
Definition round_at (prec emax : Z) (N D e : Z) : Z :=
  let emin := SpecFloat.emin prec emax in
  round_units prec (N * 2 ^ Z.max (e - emin) 0) (D * 2 ^ Z.max (emin - e) 0).

(** The magnitude of a finite float, in units. *)
Definition mag_units (prec emax : Z) (m : positive) (e : Z) : Z :=
  Z.pos m * 2 ^ (e - SpecFloat.emin prec emax).

(** [r] is the float of sign [s] whose magnitude is the rounded value [R]. *)
Definition rounds_to (prec emax : Z) (s : bool) (R : Z) (r : spec_float) : Prop :=
  (R = 0 /\ r = S754_zero s) \/
  (0 < R < 2 ^ (emax - SpecFloat.emin prec emax) /\
     exists m e, r = S754_finite s m e /\ bounded prec emax m e = true /\
                 mag_units prec emax m e = R) \/
  (2 ^ (emax - SpecFloat.emin prec emax) <= R /\ r = S754_infinity s).

(** The value of a finite float as a rational number. *)
Definition to_Q (x : float) : Q :=
  match x with
  | S754_finite s m e => (inject_Z (cond_Zopp s (Z.pos m)) * Qpower 2 e)%Q
  | _ => 0%Q
  end.

(** The value of a finite float in units, with its sign. *)
Definition val_units (x : float) : Z :=
  match x with
  | S754_finite s m e => cond_Zopp s (mag_units F64.prec F64.emax m e)
  | _ => 0
  end.

(** ** Regions of an array

    What a slice assignment amounts to: every element whose position
    satisfies a predicate is overwritten. *)

Definition paint {A : Type} (P : nat -> nat -> bool) (v : A) (a : grid A) : grid A :=
  imap (fun i row => imap (fun j x => if P i j then v else x) row) a.

(** The positions selected by [r0:r1, c0:c1] in an array of [h] rows and
    [w] columns. *)
Definition region (h w : nat) (r0 r1 c0 c1 : Z) (i j : nat) : bool :=
  in_range (slice_bound h r0) (slice_bound h r1) i &&
  in_range (slice_bound w c0) (slice_bound w c1) j.

(** The positions blackened by the ruler: the line and the four notches. *)
Definition scale_bar_mask (h w : nat) (o1 o5 o10 : Z) (i j : nat) : bool :=
  let notch_at o :=
    region h w (scale_bar_y - scale_bar_height) (1 + scale_bar_y)
               (scale_bar_xL + o) (1 + scale_bar_xL + o) i j in
  notch_at o10 || (notch_at o5 || (notch_at o1 || (notch_at 0 ||
    region h w scale_bar_y (scale_bar_y + scale_bar_thickness)
               scale_bar_xL (1 + scale_bar_xL + o10) i j))).

(** ** Further vocabulary for the properties of the script *)

(** The sign bit of [x] is clear, or [x] is NaN. *)
Definition not_negative (x : float) : bool :=
  match x with
  | S754_zero s | S754_infinity s | S754_finite s _ _ => negb s
  | S754_nan => true
  end.

(** The ruler in image coordinates: the line of [scale_bar_thickness] rows
    from [scale_bar_xL] to [scale_bar_xL + o10] inclusive, and the four
    notches, one column wide, that end on the first row of the line. *)
Definition on_ruler (o1 o5 o10 : Z) (i j : Z) : bool :=
  let on_line :=
    (scale_bar_y <=? i) && (i <? scale_bar_y + scale_bar_thickness) &&
    ((scale_bar_xL <=? j) && (j <? 1 + scale_bar_xL + o10)) in
  let on_notch o :=
    (scale_bar_y - scale_bar_height <=? i) && (i <? 1 + scale_bar_y) &&
    (j =? scale_bar_xL + o) in
  on_notch o10 || (on_notch o5 || (on_notch o1 || (on_notch 0 || on_line))).

(** * Binary64 rounding

    ** Digits and right shifts *)

Lemma digits2_log2 p : Z.pos (digits2_pos p) = Z.log2 (Z.pos p) + 1.
Proof.
  induction p as [p IH|p IH|]; simpl digits2_pos.
  - rewrite Pos2Z.inj_succ, IH. 
    change (Z.pos p~1) with (2 * Z.pos p + 1). rewrite Z.log2_succ_double by lia. lia.
  - rewrite Pos2Z.inj_succ, IH. 
    change (Z.pos p~0) with (2 * Z.pos p). rewrite Z.log2_double by lia. lia.
  - reflexivity.
Qed.

Lemma Zdigits2_log2 m : 0 < m -> Zdigits2 m = Z.log2 m + 1.
Proof. destruct m; try lia. intros _. apply digits2_log2. Qed.

Lemma Zdigits2_nonneg m : 0 <= Zdigits2 m.
Proof. destruct m; simpl; lia. Qed.

Lemma Zdigits2_spec m : 0 < m -> 2 ^ (Zdigits2 m - 1) <= m < 2 ^ Zdigits2 m.
Proof.
  intros H. rewrite Zdigits2_log2 by done.
  replace (Z.log2 m + 1 - 1) with (Z.log2 m) by lia.
  pose proof (Z.log2_spec m H). rewrite <- Z.add_1_r in *. lia.
Qed.

Lemma Zdigits2_unique m k : 2 ^ (k - 1) <= m < 2 ^ k -> 0 < k -> Zdigits2 m = k.
Proof.
  intros H Hk.
  assert (0 < m) by (pose proof (Z.pow_pos_nonneg 2 (k-1)); lia).
  rewrite Zdigits2_log2 by done.
  rewrite (Z.log2_unique m (k - 1)); try lia.
  replace (Z.succ (k-1)) with k by lia. done.
Qed.

Lemma Zdigits2_mono m n : 0 <= m <= n -> Zdigits2 m <= Zdigits2 n.
Proof.
  intros [H0 H].
  destruct (Z.eq_dec m 0) as [->|]. { apply Zdigits2_nonneg. }
  rewrite !Zdigits2_log2 by lia. pose proof (Z.log2_le_mono m n H). lia.
Qed.

Lemma iter_pos_nat {A} (f : A -> A) p x : SpecFloat.iter_pos f p x = Nat.iter (Pos.to_nat p) f x.
Proof.
  revert x. induction p as [p IH|p IH|]; intros x; simpl SpecFloat.iter_pos.
  - rewrite !IH. rewrite Pos2Nat.inj_xI. 
    replace (S (2 * Pos.to_nat p))%nat with (Pos.to_nat p + (Pos.to_nat p + 1))%nat by lia.
    rewrite !Nat.iter_add. simpl. done.
  - rewrite !IH. rewrite Pos2Nat.inj_xO.
    replace (2 * Pos.to_nat p)%nat with (Pos.to_nat p + Pos.to_nat p)%nat by lia.
    rewrite Nat.iter_add. done.
  - reflexivity.
Qed.

Lemma shr_1_rec N D : 0 <= N -> 0 < D -> shr_1 (rec_of N D) = rec_of N (2 * D).
Proof.
  intros HN HD. unfold rec_of, loc_of.
  pose proof (Z.div_mod N D ltac:(lia)) as E.
  pose proof (Z.mod_pos_bound N D HD) as B.
  pose proof (Z.div_pos N D HN HD) as Q.
  set (q := N / D) in *. set (r := N mod D) in *.
  assert (Hq2 : N / (2 * D) = q / 2).
  { rewrite (Z.mul_comm 2 D), <- Z.div_div by lia. done. }
  assert (Hr2 : N mod (2 * D) = (q mod 2) * D + r).
  { pose proof (Z.div_mod N (2 * D) ltac:(lia)) as E2. rewrite Hq2 in E2.
    pose proof (Z.div_mod q 2 ltac:(lia)). nia. }
  rewrite Hq2, Hr2.
  pose proof (Z.mod_pos_bound q 2 ltac:(lia)) as B2.
  pose proof (Z.div_mod q 2 ltac:(lia)) as E2.
  destruct q as [|[p|p|]|]; try lia.
  - (* q = 0 *) change (0 mod 2) with 0. change (0 / 2) with 0. rewrite Z.mul_0_l, Z.add_0_l.
    destruct (Z.eqb_spec r 0).
    + reflexivity.
    + assert ((2 * r ?= 2 * D) = Lt) as -> by (apply Z.compare_lt_iff; lia).
      destruct (2 * r ?= D); reflexivity.
  - (* xI *)
    assert (Z.pos p~1 / 2 = Z.pos p) as Hd by (rewrite Pos2Z.inj_xI; symmetry; apply (Z.div_unique _ 2 _ 1); lia).
    assert (Z.pos p~1 mod 2 = 1) as Hm by (rewrite Pos2Z.inj_xI; symmetry; apply (Z.mod_unique _ 2 (Z.pos p) 1); lia).
    rewrite Hd, Hm.
    destruct (Z.eqb_spec (1 * D + r) 0); try lia.
    destruct (Z.eqb_spec r 0).
    + assert ((2 * (1 * D + r) ?= 2 * D) = Eq) as -> by (apply Z.compare_eq_iff; lia). reflexivity.
    + assert ((2 * (1 * D + r) ?= 2 * D) = Gt) as -> by (apply Z.compare_gt_iff; lia).
      destruct (2 * r ?= D); reflexivity.
  - (* xO *)
    assert (Z.pos p~0 / 2 = Z.pos p) as Hd by (rewrite Pos2Z.inj_xO; symmetry; apply (Z.div_unique _ 2 _ 0); lia).
    assert (Z.pos p~0 mod 2 = 0) as Hm by (rewrite Pos2Z.inj_xO; symmetry; apply (Z.mod_unique _ 2 (Z.pos p) 0); lia).
    rewrite Hd, Hm. rewrite Z.mul_0_l, Z.add_0_l.
    destruct (Z.eqb_spec r 0).
    + reflexivity.
    + assert ((2 * r ?= 2 * D) = Lt) as -> by (apply Z.compare_lt_iff; lia).
      destruct (2 * r ?= D); reflexivity.
  - (* 1 *)
    change (1 / 2) with 0. change (1 mod 2) with 1.
    destruct (Z.eqb_spec (1 * D + r) 0); try lia.
    destruct (Z.eqb_spec r 0).
    + assert ((2 * (1 * D + r) ?= 2 * D) = Eq) as -> by (apply Z.compare_eq_iff; lia). reflexivity.
    + assert ((2 * (1 * D + r) ?= 2 * D) = Gt) as -> by (apply Z.compare_gt_iff; lia).
      destruct (2 * r ?= D); reflexivity.
Qed.

Lemma shr_iter_rec n N D :
  0 <= N -> 0 < D -> Nat.iter n shr_1 (rec_of N D) = rec_of N (D * 2 ^ Z.of_nat n).
Proof.
  intros HN HD. induction n as [|n IH].
  - simpl. rewrite Z.mul_1_r. done.
  - assert (0 < D * 2 ^ Z.of_nat n) by (pose proof (Z.pow_pos_nonneg 2 (Z.of_nat n)); nia).
    rewrite Nat.iter_succ, IH, shr_1_rec by lia.
    f_equal. rewrite Nat2Z.inj_succ, Z.pow_succ_r by lia. lia.
Qed.

Lemma shr_rec N D e n :
  0 <= N -> 0 < D ->
  shr (rec_of N D) e n = (rec_of N (D * 2 ^ Z.max n 0), e + Z.max n 0).
Proof.
  intros HN HD. destruct n as [|p|p]; simpl shr.
  - simpl. rewrite Z.mul_1_r, Z.add_0_r. done.
  - rewrite iter_pos_nat, shr_iter_rec by done.
    rewrite positive_nat_Z. rewrite Z.max_l by lia. done.
  - rewrite Z.max_r by lia. simpl. rewrite Z.mul_1_r, Z.add_0_r. done.
Qed.

(** ** Rounding a fraction to the nearest integer *)

Lemma rne_round N D : 0 < D -> round_nearest_even (N / D) (loc_of N D) = rne N D.
Proof.
  intros HD. unfold loc_of, rne.
  pose proof (Z.mod_pos_bound N D HD) as B.
  destruct (Z.eqb_spec (N mod D) 0) as [E|E].
  - rewrite E. simpl. destruct D; done.
  - simpl. destruct (2 * (N mod D) ?= D); done.
Qed.

Lemma rne_cases N D :
  0 < D ->
  let k := rne N D in
  (2 * D * k - D < 2 * N < 2 * D * k + D) \/
  ((2 * N = 2 * D * k + D \/ 2 * N = 2 * D * k - D) /\ Z.even k = true).
Proof.
  intros HD. unfold rne.
  pose proof (Z.mod_pos_bound N D HD) as B.
  pose proof (Z.div_mod N D ltac:(lia)) as E.
  set (q := N / D) in *. set (r := N mod D) in *.
  destruct (Z.compare_spec (2 * r) D) as [H|H|H].
  - destruct (Z.even q) eqn:Ev; simpl.
    + right. split; [left; nia | done].
    + right. split; [right; nia |].
      rewrite Z.even_add, Ev. done.
  - left. nia.
  - left. nia.
Qed.

Lemma rne_mono N1 D1 N2 D2 :
  0 < D1 -> 0 < D2 -> N1 * D2 <= N2 * D1 -> rne N1 D1 <= rne N2 D2.
Proof.
  intros H1 H2 H.
  pose proof (rne_cases N1 D1 H1) as C1.
  pose proof (rne_cases N2 D2 H2) as C2.
  cbv zeta in C1, C2.
  set (k1 := rne N1 D1) in *. set (k2 := rne N2 D2) in *.
  destruct (Z_le_gt_dec k1 k2) as [|G]; [done|exfalso].
  assert (HA : 2 * D1 * k1 - D1 <= 2 * N1) by lia.
  assert (HB : 2 * N2 <= 2 * D2 * k2 + D2) by lia.
  assert (HC : (2 * D1 * k1 - D1) * D2 <= (2 * D2 * k2 + D2) * D1) by nia.
  assert (HK : k1 = k2 + 1) by nia.
  assert (HE1 : 2 * N1 = 2 * D1 * k1 - D1) by nia.
  assert (HE2 : 2 * N2 = 2 * D2 * k2 + D2) by nia.
  destruct C1 as [C1|[_ C1]]; [lia|].
  destruct C2 as [C2|[_ C2]]; [lia|].
  rewrite HK, Z.even_add, C2 in C1. done.
Qed.

Lemma rne_exact c D : 0 < D -> rne (c * D) D = c.
Proof.
  intros HD. unfold rne. rewrite Z.div_mul, Z.mod_mul by lia.
  assert ((2 * 0 ?= D) = Lt) as -> by (apply Z.compare_lt_iff; lia). done.
Qed.

Lemma rne_scale c N D : 0 < c -> 0 < D -> rne (c * N) (c * D) = rne N D.
Proof.
  intros Hc HD.
  apply Z.le_antisymm; apply rne_mono; nia.
Qed.

Lemma rne_nonneg N D : 0 <= N -> 0 < D -> 0 <= rne N D.
Proof.
  intros HN HD. rewrite <- (rne_exact 0 D HD). apply rne_mono; nia.
Qed.

Lemma rne_le N c D : 0 < D -> N <= c * D -> rne N D <= c.
Proof. intros HD H. rewrite <- (rne_exact c D HD). apply rne_mono; nia. Qed.

Lemma rne_ge N c D : 0 < D -> c * D <= N -> c <= rne N D.
Proof. intros HD H. rewrite <- (rne_exact c D HD). apply rne_mono; nia. Qed.


Lemma div_pow2_ge m d a : 2 ^ d <= m -> 0 <= a <= d -> 2 ^ (d - a) <= m / 2 ^ a.
Proof.
  intros H Ha.
  pose proof (Z.pow_pos_nonneg 2 a ltac:(lia) ltac:(lia)) as Pa.
  apply Z.div_le_lower_bound; [lia|].
  rewrite <- Z.pow_add_r by lia. replace (a + (d - a)) with d by lia. done.
Qed.


Lemma Zdigits2_le m d : 0 <= m < 2 ^ d -> 0 <= d -> Zdigits2 m <= d.
Proof.
  intros [H0 H] Hd. destruct (Z.eq_dec m 0) as [->|]; [simpl; lia|].
  pose proof (Zdigits2_spec m ltac:(lia)) as [S _].
  destruct (Z_le_gt_dec (Zdigits2 m) d); [done|exfalso].
  assert (2 ^ d <= 2 ^ (Zdigits2 m - 1)) by (apply Z.pow_le_mono_r; lia). lia.
Qed.

(** *** Alignment and [binary_round] *)

Lemma iter_xO_pow2 m d : Z.pos (Pos.iter xO m d) = Z.pos m * 2 ^ Z.pos d.
Proof.
  rewrite <- Z.shiftl_mul_pow2 by lia. simpl Z.shiftl.
  apply (Pos.iter_swap_gen _ _ Z.pos xO (Z.mul 2)). reflexivity.
Qed.

Lemma shl_align_spec mx ex ex' :
  let '(mz, ez) := shl_align mx ex ex' in
  ez = Z.min ex ex' /\ Z.pos mz = Z.pos mx * 2 ^ (ex - ez).
Proof.
  unfold shl_align. destruct (ex' - ex) as [|d|d] eqn:E.
  - split; [lia|]. rewrite Z.sub_diag. simpl. lia.
  - split; [lia|]. rewrite Z.sub_diag. simpl. lia.
  - split; [lia|]. rewrite iter_xO_pow2. do 2 f_equal. lia.
Qed.

Lemma Zdigits2_mul_pow2 m j : 0 < m -> 0 <= j -> Zdigits2 (m * 2 ^ j) = Zdigits2 m + j.
Proof.
  intros Hm Hj.
  pose proof (Z.pow_pos_nonneg 2 j ltac:(lia) Hj) as Pj.
  pose proof (Zdigits2_spec m Hm) as Sm.
  assert (0 < Zdigits2 m) by (destruct m; simpl; lia).
  apply Zdigits2_unique; [|lia]. split.
  - replace (Zdigits2 m + j - 1) with (Zdigits2 m - 1 + j) by lia.
    rewrite Z.pow_add_r by lia. apply Z.mul_le_mono_nonneg_r; lia.
  - rewrite Z.pow_add_r by lia. apply Z.mul_lt_mono_pos_r; lia.
Qed.

Lemma new_location_loc_of N D : 0 < D -> new_location D (N mod D) = loc_of N D.
Proof.
  intros HD. unfold new_location, new_location_even, new_location_odd, loc_of.
  pose proof (Z.mod_pos_bound N D HD) as B.
  destruct (Z.even D) eqn:Ev; [done|].
  destruct (Z.eqb_spec (N mod D) 0); [done|]. f_equal.
  destruct (Z.compare_spec (2 * (N mod D)) D) as [E|L|G].
  - rewrite <- E, Z.even_mul in Ev. done.
  - assert ((2 * (N mod D) + 1 ?= D) <> Gt) by (rewrite Z.compare_gt_iff; lia).
    destruct (2 * (N mod D) + 1 ?= D); done.
  - assert ((2 * (N mod D) + 1 ?= D) = Gt) as -> by (apply Z.compare_gt_iff; lia). done.
Qed.

Lemma SFcompare_refl_finite s m e :
  SFcompare (S754_finite s m e) (S754_finite s m e) = Some Eq.
Proof.
  simpl. rewrite Z.compare_refl, Pos.compare_cont_refl. destruct s; reflexivity.
Qed.

Lemma SFeqb_finite_inv s1 m1 e1 s2 m2 e2 :
  SFeqb (S754_finite s1 m1 e1) (S754_finite s2 m2 e2) = true ->
  s1 = s2 /\ m1 = m2 /\ e1 = e2.
Proof.
  unfold SFeqb. simpl.
  destruct s1, s2; try done;
    destruct (Z.compare_spec e1 e2) as [E|L|G]; try done;
    destruct (Pos.compare_cont Eq m1 m2) eqn:C; try done;
    intros _; apply Pos.compare_eq in C; done.
Qed.

Section Rounding.

Variables prec emax : Z.
Hypothesis prec_gt_0 : 0 < prec.
Hypothesis prec_lt_emax : prec < emax.

Local Abbreviation emin := (SpecFloat.emin prec emax).
Local Abbreviation fexp := (SpecFloat.fexp prec emax).
Local Abbreviation rnd := (round_units prec).
Local Abbreviation rnd_at := (round_at prec emax).
Local Abbreviation mag := (mag_units prec emax).
Local Abbreviation rounds := (rounds_to prec emax).

#[local] Set Default Proof Using "All".

(** *** Rounding is monotone *)

Lemma round_units_mono N1 D1 N2 D2 :
  0 <= N1 -> 0 < D1 -> 0 < D2 -> N1 * D2 <= N2 * D1 ->
  rnd N1 D1 <= rnd N2 D2.
Proof.
  intros HN1 H1 H2 H. unfold round_units.
  assert (HN2 : 0 <= N2) by nia.
  assert (HM : N1 / D1 <= N2 / D2).
  { apply Z.div_le_lower_bound; [lia|].
    pose proof (Z.mul_div_le N1 D1 H1).
    pose proof (Z.div_pos N1 D1 HN1 H1). nia. }
  pose proof (Z.div_pos N1 D1 HN1 H1) as HM1.
  pose proof (Zdigits2_mono (N1 / D1) (N2 / D2) ltac:(lia)) as Hd.
  set (M1 := N1 / D1) in *. set (M2 := N2 / D2) in *.
  set (k1 := Z.max (Zdigits2 M1 - prec) 0).
  set (k2 := Z.max (Zdigits2 M2 - prec) 0).
  assert (Hk : 0 <= k1 <= k2) by lia.
  pose proof (Z.pow_pos_nonneg 2 k1 ltac:(lia) ltac:(lia)) as P1.
  pose proof (Z.pow_pos_nonneg 2 k2 ltac:(lia) ltac:(lia)) as P2.
  destruct (Z.eq_dec k1 k2) as [E|NE].
  - rewrite <- E. apply Z.mul_le_mono_nonneg_r; [lia|].
    apply rne_mono; nia.
  - (* a binade boundary separates the two *)
    assert (Hk12 : k1 + 1 <= k2) by lia.
    assert (HdM2 : Zdigits2 M2 = prec + k2) by lia.
    assert (HM2pos : 0 < M2).
    { destruct (Z.eq_dec M2 0) as [Z0|]; [|lia]. rewrite Z0 in HdM2. simpl in HdM2. lia. }
    pose proof (Zdigits2_spec M2 HM2pos) as S2. rewrite HdM2 in S2.
    assert (HB1 : M1 < 2 ^ (prec + k1)).
    { destruct (Z.eq_dec M1 0) as [Z0|]. 
      - rewrite Z0. apply Z.pow_pos_nonneg; lia.
      - pose proof (Zdigits2_spec M1 ltac:(lia)) as S1.
        eapply Z.lt_le_trans; [apply S1|]. apply Z.pow_le_mono_r; lia. }
    transitivity (2 ^ (prec + k1)).
    + rewrite Z.pow_add_r by lia.
      apply Z.mul_le_mono_nonneg_r; [lia|].
      apply rne_le; [nia|].
      assert (N1 < (M1 + 1) * D1).
      { pose proof (Z.div_mod N1 D1 ltac:(lia)). pose proof (Z.mod_pos_bound N1 D1 H1).
        fold M1 in H0. nia. }
      pose proof (Z.pow_pos_nonneg 2 prec ltac:(lia) ltac:(lia)).
      rewrite Z.pow_add_r in HB1 by lia. nia.
    + transitivity (2 ^ (prec - 1) * 2 ^ k2).
      * rewrite <- Z.pow_add_r by lia. apply Z.pow_le_mono_r; lia.
      * apply Z.mul_le_mono_nonneg_r; [lia|].
        apply rne_ge; [nia|].
        assert (M2 * D2 <= N2).
        { pose proof (Z.div_mod N2 D2 ltac:(lia)). pose proof (Z.mod_pos_bound N2 D2 H2).
          fold M2 in H0. nia. }
        replace (prec + k2 - 1) with (prec - 1 + k2) in S2 by lia.
        rewrite Z.pow_add_r in S2 by lia.
        pose proof (Z.pow_pos_nonneg 2 (prec - 1) ltac:(lia) ltac:(lia)). nia.
Qed.


Lemma round_units_scale c N D :
  0 < c -> 0 <= N -> 0 < D -> rnd (c * N) (c * D) = rnd N D.
Proof.
  intros Hc HN HD. apply Z.le_antisymm; apply round_units_mono; nia.
Qed.

Lemma emin_eq : emin = 3 - emax - prec.
Proof. reflexivity. Qed.

Lemma emin_le_fexp e : emin <= fexp e.
Proof. unfold SpecFloat.fexp. lia. Qed.

Lemma loc_of_shr_record_of_loc m l : loc_of_shr_record (shr_record_of_loc m l) = l.
Proof. destruct l as [|[]]; reflexivity. Qed.

Lemma shr_m_of_loc m l : shr_m (shr_record_of_loc m l) = m.
Proof. destruct l as [|[]]; reflexivity. Qed.

Lemma rec_of_exact m : rec_of m 1 = shr_record_of_loc m loc_Exact.
Proof. unfold rec_of, loc_of. rewrite Z.mod_1_r, Z.div_1_r. reflexivity. Qed.

(** Digits of a quotient by a power of two. *)
Lemma div_pow2_lt m d a : 0 <= m < 2 ^ d -> 0 <= a -> m / 2 ^ a < 2 ^ Z.max (d - a) 0.
Proof.
  intros [H0 H] Ha.
  pose proof (Z.pow_pos_nonneg 2 a ltac:(lia) Ha) as Pa.
  apply Z.div_lt_upper_bound; [lia|].
  rewrite <- Z.pow_add_r by lia.
  eapply Z.lt_le_trans; [apply H|].
  destruct (Z_lt_le_dec d 0) as [Hd|Hd].
  - rewrite Z.pow_neg_r in H by lia. lia.
  - apply Z.pow_le_mono_r; lia.
Qed.

(** What [binary_round_aux] does when the exponent handed to it is at most
    the canonical one: one rounding of the integer part at the canonical
    exponent, then a renormalisation when the rounding carried. *)
Lemma binary_round_aux_rne s N D ex :
  0 <= N -> 0 < D -> 0 < N / D ->
  let e' := fexp (Zdigits2 (N / D) + ex) in
  ex <= e' ->
  let m1 := rne N (D * 2 ^ (e' - ex)) in
  (0 <= m1 <= 2 ^ prec) /\
  (m1 < 2 ^ (prec - 1) -> e' = emin) /\
  binary_round_aux prec emax s (N / D) ex (loc_of N D) =
    if m1 =? 0 then S754_zero s
    else if m1 <? 2 ^ prec
         then (if e' <=? emax - prec then S754_finite s (Z.to_pos m1) e' else S754_infinity s)
         else (if e' + 1 <=? emax - prec
               then S754_finite s (Z.to_pos (2 ^ (prec - 1))) (e' + 1)
               else S754_infinity s).
Proof.
  intros HN HD Hmx e' He m1.
  set (mx := N / D) in *.
  set (n1 := e' - ex) in *.
  pose proof (Z.pow_pos_nonneg 2 n1 ltac:(lia) ltac:(lia)) as Pn1.
  pose proof (Z.pow_pos_nonneg 2 prec ltac:(lia) ltac:(lia)) as Pp.
  pose proof (Z.pow_pos_nonneg 2 (prec - 1) ltac:(lia) ltac:(lia)) as Pp1.
  assert (HD' : 0 < D * 2 ^ n1) by nia.
  pose proof (Zdigits2_spec mx Hmx) as Sx.
  pose proof (emin_le_fexp (Zdigits2 mx + ex)) as Hemin. fold e' in Hemin.
  assert (Hfe : e' = Z.max (Zdigits2 mx + ex - prec) emin) by reflexivity.
  assert (Hm0 : N / (D * 2 ^ n1) = mx / 2 ^ n1) by (rewrite <- Z.div_div by lia; done).
  (* the truncated mantissa has at most [prec] digits *)
  assert (Hm0lt : mx / 2 ^ n1 < 2 ^ prec).
  { eapply Z.lt_le_trans; [apply (div_pow2_lt mx (Zdigits2 mx)); lia|].
    apply Z.pow_le_mono_r; lia. }
  assert (Hm1 : 0 <= m1 <= 2 ^ prec).
  { split; [apply rne_nonneg; lia|].
    apply rne_le; [lia|].
    pose proof (Z.div_mod N (D * 2 ^ n1) ltac:(lia)) as E.
    pose proof (Z.mod_pos_bound N (D * 2 ^ n1) HD'). rewrite Hm0 in E. nia. }
  assert (Hsub : m1 < 2 ^ (prec - 1) -> e' = emin).
  { intros Hlt. destruct (Z.eq_dec e' emin) as [|NE]; [done|exfalso].
    assert (Hn1 : n1 = Zdigits2 mx - prec) by lia.
    assert (2 ^ (prec - 1) <= mx / 2 ^ n1).
    { replace (prec - 1) with (Zdigits2 mx - 1 - n1) by lia.
      apply div_pow2_ge; lia. }
    assert (2 ^ (prec - 1) <= m1); [|lia].
    apply rne_ge; [lia|].
    pose proof (Z.div_mod N (D * 2 ^ n1) ltac:(lia)) as E.
    pose proof (Z.mod_pos_bound N (D * 2 ^ n1) HD'). rewrite Hm0 in E. nia. }
  split; [done|]. split; [done|].
  unfold binary_round_aux, shr_fexp.
  change (SpecFloat.fexp prec emax (Zdigits2 mx + ex)) with e'.
  change (shr_record_of_loc mx (loc_of N D)) with (rec_of N D).
  rewrite shr_rec by lia. fold n1. rewrite Z.max_l by lia.
  replace (ex + n1) with e' by lia.
  unfold rec_of. rewrite !shr_m_of_loc, !loc_of_shr_record_of_loc.
  rewrite !rne_round by lia. fold m1.
  rewrite <- rec_of_exact.
  rewrite shr_rec by lia.
  destruct (Z.eqb_spec m1 0) as [E0|N0].
  - rewrite E0. simpl Zdigits2. rewrite Z.add_0_l.
    rewrite Z.max_r by (unfold SpecFloat.fexp; lia).
    unfold rec_of. rewrite shr_m_of_loc. rewrite Z.div_0_l by (simpl; lia). done.
  - destruct (Z.ltb_spec m1 (2 ^ prec)) as [Hlt|Hge].
    + assert (Zdigits2 m1 <= prec).
      { destruct (Z_le_gt_dec (Zdigits2 m1) prec); [done|exfalso].
        pose proof (Zdigits2_spec m1 ltac:(lia)) as [S1 _].
        assert (2 ^ prec <= 2 ^ (Zdigits2 m1 - 1)) by (apply Z.pow_le_mono_r; lia). lia. }
      rewrite Z.max_r by (unfold SpecFloat.fexp; lia).
      unfold rec_of. rewrite shr_m_of_loc. rewrite Z.pow_0_r, Z.mul_1_r, Z.div_1_r, Z.add_0_r.
      destruct m1 as [|p|p]; try lia. reflexivity.
    + assert (Em1 : m1 = 2 ^ prec) by lia.
      assert (Zdigits2 m1 = prec + 1).
      { apply Zdigits2_unique; [|lia]. replace (prec + 1 - 1) with prec by lia.
        rewrite Em1. split; [lia|]. apply Z.pow_lt_mono_r; lia. }
      assert (En2 : SpecFloat.fexp prec emax (Zdigits2 m1 + e') - e' = 1).
      { unfold SpecFloat.fexp. lia. }
      rewrite En2. change (Z.max 1 0) with 1. 
      unfold rec_of. rewrite shr_m_of_loc. rewrite Z.mul_1_l, Z.pow_1_r.
      rewrite Em1. replace (2 ^ prec / 2) with (2 ^ (prec - 1)).
      2:{ replace prec with (1 + (prec - 1)) at 2 by lia. rewrite Z.pow_add_r by lia.
          rewrite Z.pow_1_r, Z.mul_comm, Z.div_mul by lia. done. }
      destruct (2 ^ (prec - 1)) as [|p|p] eqn:Ep; try lia. reflexivity.
Qed.

(** The same rounding, read on the exact value counted in units of the
    least subnormal. *)
Lemma round_units_rne N D ex :
  0 <= N -> 0 < D -> 0 < N / D ->
  let e' := fexp (Zdigits2 (N / D) + ex) in
  ex <= e' ->
  rnd (N * 2 ^ Z.max (ex - emin) 0) (D * 2 ^ Z.max (emin - ex) 0)
  = rne N (D * 2 ^ (e' - ex)) * 2 ^ (e' - emin).
Proof.
  intros HN HD Hmx e' He.
  set (mx := N / D) in *.
  pose proof (Zdigits2_spec mx Hmx) as Sx.
  pose proof (emin_le_fexp (Zdigits2 mx + ex)) as Hemin. fold e' in Hemin.
  assert (Hfe : e' = Z.max (Zdigits2 mx + ex - prec) emin) by reflexivity.
  pose proof (Z.div_mod N D ltac:(lia)) as EN. fold mx in EN.
  pose proof (Z.mod_pos_bound N D HD) as BN.
  assert (Hdx : 0 < Zdigits2 mx).
  { destruct mx; simpl; lia. }
  pose proof (Z.pow_pos_nonneg 2 (Zdigits2 mx - 1) ltac:(lia) ltac:(lia)) as Pd1.
  unfold round_units.
  destruct (Z_le_gt_dec emin ex) as [Hex|Hex].
  - rewrite (Z.max_l (ex - emin)), (Z.max_r (emin - ex)) by lia.
    rewrite Z.pow_0_r, Z.mul_1_r.
    set (up := ex - emin).
    pose proof (Z.pow_pos_nonneg 2 up ltac:(lia) ltac:(lia)) as Pup.
    assert (Hd : Zdigits2 (N * 2 ^ up / D) = Zdigits2 mx + up).
    { apply Zdigits2_unique; [|lia]. split.
      - apply Z.div_le_lower_bound; [lia|].
        replace (Zdigits2 mx + up - 1) with (Zdigits2 mx - 1 + up) by lia.
        rewrite Z.pow_add_r by lia.
        assert (D * 2 ^ (Zdigits2 mx - 1) <= N) by nia.
        rewrite Z.mul_assoc. apply Z.mul_le_mono_nonneg_r; lia.
      - apply Z.div_lt_upper_bound; [lia|].
        rewrite Z.pow_add_r by lia.
        assert (N < D * 2 ^ Zdigits2 mx) by nia.
        rewrite Z.mul_assoc. apply Z.mul_lt_mono_pos_r; lia. }
    rewrite Hd.
    replace (Z.max (Zdigits2 mx + up - prec) 0) with (e' - emin) by lia.
    f_equal.
    replace (e' - emin) with (up + (e' - ex)) by lia.
    rewrite Z.pow_add_r by lia.
    replace (N * 2 ^ up) with (2 ^ up * N) by lia.
    replace (D * (2 ^ up * 2 ^ (e' - ex))) with (2 ^ up * (D * 2 ^ (e' - ex))) by lia.
    apply rne_scale; [lia|].
    pose proof (Z.pow_pos_nonneg 2 (e' - ex) ltac:(lia) ltac:(lia)). nia.
  - rewrite (Z.max_r (ex - emin)), (Z.max_l (emin - ex)) by lia.
    rewrite Z.pow_0_r, Z.mul_1_r.
    set (dn := emin - ex).
    pose proof (Z.pow_pos_nonneg 2 dn ltac:(lia) ltac:(lia)) as Pdn.
    assert (HM : N / (D * 2 ^ dn) = mx / 2 ^ dn) by (rewrite <- Z.div_div by lia; done).
    rewrite HM.
    assert (Hk : Z.max (Zdigits2 (mx / 2 ^ dn) - prec) 0 = e' - emin).
    { destruct (Z_le_gt_dec prec (Zdigits2 mx - dn)) as [Hn|Hs].
      - assert (Zdigits2 (mx / 2 ^ dn) = Zdigits2 mx - dn) as ->; [|lia].
        apply Zdigits2_unique; [|lia]. split.
        + replace (Zdigits2 mx - dn - 1) with (Zdigits2 mx - 1 - dn) by lia.
          apply div_pow2_ge; lia.
        + pose proof (div_pow2_lt mx (Zdigits2 mx) dn ltac:(lia) ltac:(lia)).
          rewrite Z.max_l in H by lia. done.
      - assert (Zdigits2 (mx / 2 ^ dn) <= prec - 1); [|lia].
        apply Zdigits2_le; [|lia]. split; [apply Z.div_pos; lia|].
        eapply Z.lt_le_trans; [apply (div_pow2_lt mx (Zdigits2 mx) dn); lia|].
        apply Z.pow_le_mono_r; lia. }
    rewrite Hk. f_equal. f_equal.
    rewrite <- Z.mul_assoc, <- Z.pow_add_r by lia. f_equal. f_equal. lia.
Qed.

Lemma bounded_intro m e :
  0 < m -> Zdigits2 m <= prec -> emin <= e <= emax - prec ->
  (m < 2 ^ (prec - 1) -> e = emin) ->
  bounded prec emax (Z.to_pos m) e = true.
Proof.
  intros Hm Hd He Hs. unfold bounded, canonical_mantissa.
  apply andb_true_intro. split; [|apply Z.leb_le; lia].
  apply Z.eqb_eq. 
  assert (Z.pos (digits2_pos (Z.to_pos m)) = Zdigits2 m) as ->.
  { destruct m; try lia. reflexivity. }
  unfold SpecFloat.fexp.
  destruct (Z_lt_le_dec m (2 ^ (prec - 1))) as [Hlt|Hge].
  - rewrite (Hs Hlt). lia.
  - assert (Zdigits2 m = prec); [|lia].
    apply Zdigits2_unique; [|lia]. split; [done|].
    pose proof (Zdigits2_spec m Hm) as [_ S].
    eapply Z.lt_le_trans; [apply S|]. apply Z.pow_le_mono_r; lia.
Qed.

Theorem binary_round_aux_correct s N D ex :
  0 <= N -> 0 < D -> 0 < N / D ->
  ex <= fexp (Zdigits2 (N / D) + ex) ->
  rounds s
    (rnd (N * 2 ^ Z.max (ex - emin) 0) (D * 2 ^ Z.max (emin - ex) 0))
    (binary_round_aux prec emax s (N / D) ex (loc_of N D)).
Proof.
  intros HN HD Hmx He.
  rewrite round_units_rne by done.
  destruct (binary_round_aux_rne s N D ex HN HD Hmx He) as (Hm1 & Hsub & ->).
  set (e' := fexp (Zdigits2 (N / D) + ex)) in *.
  set (m1 := rne N (D * 2 ^ (e' - ex))) in *.
  pose proof (emin_le_fexp (Zdigits2 (N / D) + ex)) as Hemin. fold e' in Hemin.
  pose proof (Z.pow_pos_nonneg 2 (e' - emin) ltac:(lia) ltac:(lia)) as Pe.
  pose proof (Z.pow_pos_nonneg 2 prec ltac:(lia) ltac:(lia)) as Pp.
  pose proof (Z.pow_pos_nonneg 2 (prec - 1) ltac:(lia) ltac:(lia)) as Pp1.
  assert (Hpp : 2 ^ prec = 2 * 2 ^ (prec - 1)).
  { replace prec with (1 + (prec - 1)) at 1 by lia. rewrite Z.pow_add_r by lia. done. }
  unfold rounds_to.
  destruct (Z.eqb_spec m1 0) as [E0|N0].
  { left. rewrite E0. split; [lia|done]. }
  right.
  (* the overflow threshold, cut at the exponent [e'] *)
  assert (Hthr : forall e, emin <= e <= emax - prec ->
            2 ^ (emax - emin) = 2 ^ prec * 2 ^ (emax - prec - e) * 2 ^ (e - emin)).
  { intros e Hle. rewrite <- !Z.pow_add_r by lia. f_equal. lia. }
  destruct (Z.ltb_spec m1 (2 ^ prec)) as [Hlt|Hge].
  - destruct (Z.leb_spec e' (emax - prec)) as [Hfin|Hinf].
    + left. split.
      * split; [nia|]. rewrite (Hthr e') by lia.
        pose proof (Z.pow_pos_nonneg 2 (emax - prec - e') ltac:(lia) ltac:(lia)).
        apply Z.mul_lt_mono_pos_r; [lia|]. nia.
      * exists (Z.to_pos m1), e'. split; [done|]. split.
        -- apply bounded_intro; try lia. apply Zdigits2_le; lia.
        -- unfold mag_units. rewrite Z2Pos.id by lia. done.
    + right. split; [|done].
      pose proof emin_eq as Hemin_eq.
      assert (2 ^ (prec - 1) <= m1) by (destruct (Z_lt_le_dec m1 (2 ^ (prec - 1))); [lia|done]).
      transitivity (2 ^ (prec - 1) * 2 ^ (e' - emin)).
      * rewrite <- Z.pow_add_r by lia. apply Z.pow_le_mono_r; lia.
      * apply Z.mul_le_mono_nonneg_r; lia.
  - assert (Em1 : m1 = 2 ^ prec) by lia.
    destruct (Z.leb_spec (e' + 1) (emax - prec)) as [Hfin|Hinf].
    + left. split.
      * split; [nia|]. rewrite (Hthr e') by lia. rewrite Em1.
        assert (2 ^ 1 <= 2 ^ (emax - prec - e')) by (apply Z.pow_le_mono_r; lia).
        change (2 ^ 1) with 2 in *.
        apply Z.mul_lt_mono_pos_r; [lia|]. nia.
      * exists (Z.to_pos (2 ^ (prec - 1))), (e' + 1). split; [done|]. split.
        -- apply bounded_intro; try lia.
           apply Zdigits2_le; [|lia]. split; [lia|]. apply Z.pow_lt_mono_r; lia.
        -- unfold mag_units. rewrite Z2Pos.id by lia. rewrite Em1, Hpp.
           replace (e' + 1 - emin) with (1 + (e' - emin)) by lia.
           rewrite Z.pow_add_r by lia. change (2 ^ 1) with 2. lia.
    + right. split; [|done]. rewrite Em1.
      rewrite <- Z.pow_add_r by lia. apply Z.pow_le_mono_r; lia.
Qed.


Lemma round_units_ext N1 D1 N2 D2 :
  0 <= N1 -> 0 < D1 -> 0 < D2 -> N1 * D2 = N2 * D1 ->
  rnd N1 D1 = rnd N2 D2.
Proof.
  intros HN H1 H2 H. assert (0 <= N2) by nia.
  apply Z.le_antisymm; apply round_units_mono; lia.
Qed.

(** A value with at most [prec] digits is its own rounding. *)
Lemma round_units_exact m j :
  0 < m -> Zdigits2 m <= prec -> 0 <= j -> rnd (m * 2 ^ j) 1 = m * 2 ^ j.
Proof.
  intros Hm Hd Hj. unfold round_units. rewrite Z.div_1_r, Z.mul_1_l.
  pose proof (Z.pow_pos_nonneg 2 j ltac:(lia) Hj) as Pj.
  pose proof (Zdigits2_spec m Hm) as Sm.
  assert (0 < Zdigits2 m) by (destruct m; simpl; lia).
  assert (Hdj : Zdigits2 (m * 2 ^ j) = Zdigits2 m + j).
  { apply Zdigits2_unique; [|lia]. split.
    - replace (Zdigits2 m + j - 1) with (Zdigits2 m - 1 + j) by lia.
      rewrite Z.pow_add_r by lia. apply Z.mul_le_mono_nonneg_r; lia.
    - rewrite Z.pow_add_r by lia. apply Z.mul_lt_mono_pos_r; lia. }
  rewrite Hdj. set (k := Z.max (Zdigits2 m + j - prec) 0).
  assert (Hk : 0 <= k <= j) by lia.
  pose proof (Z.pow_pos_nonneg 2 k ltac:(lia) ltac:(lia)) as Pk.
  replace (m * 2 ^ j) with (m * 2 ^ (j - k) * 2 ^ k).
  2:{ rewrite <- Z.mul_assoc, <- Z.pow_add_r by lia. do 2 f_equal. lia. }
  rewrite rne_exact by lia. done.
Qed.

Lemma round_units_pos N D : 0 < D -> D <= N -> 0 < rnd N D.
Proof.
  intros HD HN.
  assert (1 <= rnd N D); [|lia].
  replace 1 with (rnd (1 * 2 ^ 0) 1) at 1.
  2:{ rewrite round_units_exact; simpl; lia. }
  apply round_units_mono; simpl; lia.
Qed.

Lemma round_at_units N D e N' D' a b :
  0 <= N -> 0 < D -> 0 < D' -> 0 <= a -> 0 <= b ->
  a - b = e - emin -> N * 2 ^ a * D' = N' * (D * 2 ^ b) ->
  rnd_at N D e = rnd N' D'.
Proof.
  intros HN HD HD' Ha Hb Hab H. unfold round_at.
  set (a0 := Z.max (e - emin) 0). set (b0 := Z.max (emin - e) 0).
  pose proof (Z.pow_pos_nonneg 2 a0 ltac:(lia) ltac:(lia)) as Pa0.
  pose proof (Z.pow_pos_nonneg 2 b0 ltac:(lia) ltac:(lia)) as Pb0.
  pose proof (Z.pow_pos_nonneg 2 a ltac:(lia) ltac:(lia)) as Pa.
  pose proof (Z.pow_pos_nonneg 2 b ltac:(lia) ltac:(lia)) as Pb.
  apply round_units_ext; try nia.
  assert (E : 2 ^ a0 * 2 ^ b = 2 ^ a * 2 ^ b0).
  { rewrite <- !Z.pow_add_r by lia. f_equal. lia. }
  (* N 2^a0 D' 2^b = N 2^a D' 2^b0 = N' D 2^b 2^b0 *)
  apply (Z.mul_reg_r _ _ (2 ^ b)); [lia|].
  transitivity (N * D' * (2 ^ a0 * 2 ^ b)); [ring|].
  rewrite E. transitivity (N * 2 ^ a * D' * 2 ^ b0); [ring|].
  rewrite H. ring.
Qed.

Lemma loc_of_1 N : loc_of N 1 = loc_Exact.
Proof. unfold loc_of. rewrite Z.mod_1_r. reflexivity. Qed.

Theorem binary_round_correct s mx ex :
  rounds s (rnd_at (Z.pos mx) 1 ex) (binary_round prec emax s mx ex).
Proof.
  unfold binary_round.
  pose proof (shl_align_spec mx ex (fexp (Z.pos (digits2_pos mx) + ex))) as A.
  destruct (shl_align mx ex _) as [mz ez]. destruct A as [Ez Emz].
  change (Z.pos (digits2_pos mx)) with (Zdigits2 (Z.pos mx)) in *.
  pose proof (binary_round_aux_correct s (Z.pos mz) 1 ez) as C.
  rewrite Z.div_1_r, loc_of_1 in C.
  assert (Hd : Zdigits2 (Z.pos mz) + ez = Zdigits2 (Z.pos mx) + ex).
  { rewrite Emz, Zdigits2_mul_pow2 by lia. lia. }
  rewrite Hd in C.
  replace (rnd_at (Z.pos mx) 1 ex)
    with (rnd (Z.pos mz * 2 ^ Z.max (ez - emin) 0) (1 * 2 ^ Z.max (emin - ez) 0)).
  { apply C; lia. }
  symmetry. apply (round_at_units _ _ _ _ _ (Z.max (ez - emin) 0 + (ex - ez)) (Z.max (emin - ez) 0)); try lia.
  all: pose proof (Z.pow_pos_nonneg 2 (Z.max (emin - ez) 0) ltac:(lia) ltac:(lia)); try lia.
  rewrite Emz, Z.pow_add_r by lia. ring.
Qed.


(** *** Multiplication and division of finite floats *)

Lemma bounded_spec m e :
  bounded prec emax m e = true ->
  0 < Zdigits2 (Z.pos m) <= prec /\ emin <= e <= emax - prec /\
  (e = emin \/ Zdigits2 (Z.pos m) = prec).
Proof.
  unfold bounded, canonical_mantissa. intros H.
  apply andb_prop in H as [H1 H2].
  apply Z.eqb_eq in H1. apply Z.leb_le in H2.
  unfold SpecFloat.fexp in H1.
  change (Zdigits2 (Z.pos m)) with (Z.pos (digits2_pos m)). lia.
Qed.

Lemma emin_nonpos : emin <= 0.
Proof. rewrite emin_eq. lia. Qed.

Theorem SFmul_correct sx mx ex sy my ey :
  bounded prec emax mx ex = true -> bounded prec emax my ey = true ->
  rounds (xorb sx sy)
    (rnd (mag mx ex * mag my ey) (2 ^ (- emin)))
    (SFmul prec emax (S754_finite sx mx ex) (S754_finite sy my ey)).
Proof.
  intros Bx By.
  destruct (bounded_spec _ _ Bx) as (Dx & Ex & Cx).
  destruct (bounded_spec _ _ By) as (Dy & Ey & Cy).
  pose proof emin_nonpos as En.
  simpl SFmul.
  pose proof (binary_round_aux_correct (xorb sx sy) (Z.pos (mx * my)) 1 (ex + ey)) as C.
  rewrite Z.div_1_r, loc_of_1 in C.
  pose proof (Zdigits2_spec (Z.pos mx) ltac:(lia)) as Sx.
  pose proof (Zdigits2_spec (Z.pos my) ltac:(lia)) as Sy.
  pose proof (Zdigits2_spec (Z.pos (mx * my)) ltac:(lia)) as Sxy.
  assert (Hd : Zdigits2 (Z.pos mx) + Zdigits2 (Z.pos my) - 1 <= Zdigits2 (Z.pos (mx * my))).
  { assert (2 ^ (Zdigits2 (Z.pos mx) - 1 + (Zdigits2 (Z.pos my) - 1)) < 2 ^ Zdigits2 (Z.pos (mx * my))).
    { rewrite Z.pow_add_r by lia. rewrite Pos2Z.inj_mul in *.
      pose proof (Z.pow_pos_nonneg 2 (Zdigits2 (Z.pos mx) - 1) ltac:(lia) ltac:(lia)).
      pose proof (Z.pow_pos_nonneg 2 (Zdigits2 (Z.pos my) - 1) ltac:(lia) ltac:(lia)).
      nia. }
    pose proof (Zdigits2_nonneg (Z.pos (mx * my))).
    apply Z.pow_lt_mono_r_iff in H; lia. }
  replace (rnd (mag mx ex * mag my ey) (2 ^ (- emin)))
    with (rnd (Z.pos (mx * my) * 2 ^ Z.max (ex + ey - emin) 0)
                      (1 * 2 ^ Z.max (emin - (ex + ey)) 0)).
  { apply C; try lia. unfold SpecFloat.fexp. lia. }
  pose proof (Z.pow_pos_nonneg 2 (- emin) ltac:(lia) ltac:(lia)) as PW.
  apply (round_at_units _ _ _ _ _ (Z.max (ex + ey - emin) 0 - emin) (Z.max (emin - (ex + ey)) 0 - emin)); try lia.
  - unfold mag_units. rewrite Pos2Z.inj_mul.
    set (a := Z.max (ex + ey - emin) 0). set (b := Z.max (emin - (ex + ey)) 0).
    transitivity (Z.pos mx * Z.pos my * (2 ^ (a - emin) * 2 ^ (- emin))); [ring|].
    transitivity (Z.pos mx * Z.pos my * (2 ^ (ex - emin) * 2 ^ (ey - emin) * 2 ^ (b - emin))); [|ring].
    f_equal. rewrite <- !Z.pow_add_r by lia. f_equal. lia.
Qed.

(** Division, when the quotient is not below the normal range. *)
Theorem SFdiv_correct sx mx ex sy my ey :
  bounded prec emax mx ex = true -> bounded prec emax my ey = true ->
  emin + prec <= Zdigits2 (Z.pos mx) + ex - (Zdigits2 (Z.pos my) + ey) ->
  rounds (xorb sx sy)
    (rnd (mag mx ex * 2 ^ (- emin)) (mag my ey))
    (SFdiv prec emax (S754_finite sx mx ex) (S754_finite sy my ey)).
Proof.
  intros Bx By Hnorm.
  destruct (bounded_spec _ _ Bx) as (Dx & Ex & Cx).
  destruct (bounded_spec _ _ By) as (Dy & Ey & Cy).
  pose proof emin_nonpos as En.
  pose proof (Zdigits2_spec (Z.pos mx) ltac:(lia)) as Sx.
  pose proof (Zdigits2_spec (Z.pos my) ltac:(lia)) as Sy.
  set (dx := Zdigits2 (Z.pos mx)) in *. set (dy := Zdigits2 (Z.pos my)) in *.
  unfold SFdiv, SFdiv_core_binary. fold dx dy.
  set (e' := Z.min (SpecFloat.fexp prec emax (dx + ex - (dy + ey))) (ex - ey)).
  assert (He' : e' = dx + ex - (dy + ey) - prec).
  { unfold e', SpecFloat.fexp. lia. }
  set (sh := ex - ey - e').
  assert (Hsh : sh = prec + dy - dx) by lia.
  assert (Hm' : match sh with Z.pos _ => Z.shiftl (Z.pos mx) sh | 0 => Z.pos mx | Z.neg _ => 0 end
                = Z.pos mx * 2 ^ sh).
  { destruct sh eqn:E; try lia.
    rewrite Z.shiftl_mul_pow2 by lia. done. }
  rewrite Hm'. clear Hm'.
  set (N := Z.pos mx * 2 ^ sh).
  pose proof (Z.pow_pos_nonneg 2 sh ltac:(lia) ltac:(lia)) as Psh.
  assert (Hde : Z.div_eucl N (Z.pos my) = (N / Z.pos my, N mod Z.pos my)).
  { unfold Z.div, Z.modulo. destruct (Z.div_eucl N (Z.pos my)). done. }
  rewrite Hde. rewrite new_location_loc_of by lia.
  (* the quotient has [prec] or [prec + 1] digits *)
  assert (Hq : 2 ^ (prec - 1) <= N / Z.pos my).
  { apply Z.div_le_lower_bound; [lia|].
    transitivity (2 ^ dy * 2 ^ (prec - 1)); [apply Z.mul_le_mono_nonneg_r; lia|].
    transitivity (2 ^ (dx - 1) * 2 ^ sh); [|unfold N; apply Z.mul_le_mono_nonneg_r; lia].
    rewrite <- !Z.pow_add_r by lia. apply Z.pow_le_mono_r; lia. }
  pose proof (Z.pow_pos_nonneg 2 (prec - 1) ltac:(lia) ltac:(lia)) as Pp1.
  assert (Hdq : prec <= Zdigits2 (N / Z.pos my)).
  { pose proof (Zdigits2_spec (N / Z.pos my) ltac:(lia)) as [_ S].
    assert (2 ^ (prec - 1) < 2 ^ Zdigits2 (N / Z.pos my)) by lia.
    apply Z.pow_lt_mono_r_iff in H; [lia|lia|]. apply Zdigits2_nonneg. }
  pose proof (binary_round_aux_correct (xorb sx sy) N (Z.pos my) e') as C.
  replace (rnd (mag mx ex * 2 ^ (- emin)) (mag my ey))
    with (rnd (N * 2 ^ Z.max (e' - emin) 0) (Z.pos my * 2 ^ Z.max (emin - e') 0)).
  assert (0 <= N) by (unfold N; nia).
  { apply C; try lia.
    unfold SpecFloat.fexp. lia. }
  assert (0 < mag my ey).
  { unfold mag_units. apply Z.mul_pos_pos; [lia|]. apply Z.pow_pos_nonneg; lia. }
  apply (round_at_units _ _ _ _ _ (Z.max (e' - emin) 0) (Z.max (emin - e') 0)); try lia.
  - unfold mag_units, N.
    set (a := Z.max (e' - emin) 0). set (b := Z.max (emin - e') 0).
    transitivity (Z.pos mx * Z.pos my * (2 ^ sh * 2 ^ a * 2 ^ (ey - emin))); [ring|].
    transitivity (Z.pos mx * Z.pos my * (2 ^ (ex - emin) * 2 ^ (- emin) * 2 ^ b)); [|ring].
    f_equal. rewrite <- !Z.pow_add_r by lia. f_equal. lia.
Qed.


(** *** Order and equality of finite floats *)

Lemma mag_lt_exp m1 e1 m2 e2 :
  bounded prec emax m1 e1 = true -> bounded prec emax m2 e2 = true ->
  e1 < e2 -> mag m1 e1 < mag m2 e2.
Proof.
  intros B1 B2 He.
  destruct (bounded_spec _ _ B1) as (D1 & E1 & C1).
  destruct (bounded_spec _ _ B2) as (D2 & E2 & C2).
  pose proof (Zdigits2_spec (Z.pos m1) ltac:(lia)) as [_ S1].
  pose proof (Zdigits2_spec (Z.pos m2) ltac:(lia)) as [S2 _].
  assert (Hd2 : Zdigits2 (Z.pos m2) = prec) by lia. rewrite Hd2 in S2.
  unfold mag_units.
  pose proof (Z.pow_pos_nonneg 2 (e1 - emin) ltac:(lia) ltac:(lia)) as P1.
  pose proof (Z.pow_pos_nonneg 2 (e2 - emin) ltac:(lia) ltac:(lia)) as P2.
  apply Z.lt_le_trans with (2 ^ prec * 2 ^ (e1 - emin)).
  - apply Z.mul_lt_mono_pos_r; [lia|].
    eapply Z.lt_le_trans; [apply S1|]. apply Z.pow_le_mono_r; lia.
  - apply Z.le_trans with (2 ^ (prec - 1) * 2 ^ (e2 - emin)).
    + rewrite <- !Z.pow_add_r by lia. apply Z.pow_le_mono_r; lia.
    + apply Z.mul_le_mono_nonneg_r; lia.
Qed.

Lemma mag_compare m1 e1 m2 e2 :
  bounded prec emax m1 e1 = true -> bounded prec emax m2 e2 = true ->
  match e1 ?= e2 with
  | Lt => Lt
  | Gt => Gt
  | Eq => Pos.compare_cont Eq m1 m2
  end = (mag m1 e1 ?= mag m2 e2).
Proof.
  intros B1 B2. symmetry.
  destruct (Z.compare_spec e1 e2) as [E|L|G].
  - subst e2. unfold mag_units.
    destruct (bounded_spec _ _ B1) as (_ & E1 & _).
    pose proof (Z.pow_pos_nonneg 2 (e1 - emin) ltac:(lia) ltac:(lia)) as P1.
    change (Pos.compare_cont Eq m1 m2) with (Z.pos m1 ?= Z.pos m2).
    symmetry. apply Zmult_compare_compat_r. lia.
  - apply Z.compare_lt_iff. apply mag_lt_exp; done.
  - apply Z.compare_gt_iff. apply mag_lt_exp; done.
Qed.

(** Two finite floats of the format with the same magnitude have the same
    mantissa and exponent. *)
Lemma mag_inj m1 e1 m2 e2 :
  bounded prec emax m1 e1 = true -> bounded prec emax m2 e2 = true ->
  mag m1 e1 = mag m2 e2 -> m1 = m2 /\ e1 = e2.
Proof.
  intros B1 B2 H.
  pose proof (mag_compare m1 e1 m2 e2 B1 B2) as C.
  rewrite H, Z.compare_refl in C.
  destruct (Z.compare_spec e1 e2) as [E|L|G]; try done.
  split; [|done]. apply Pos.compare_eq. done.
Qed.

(** *** Conversion of a small integer *)

Lemma binary_normalize_exact n :
  0 < n -> Zdigits2 n <= prec ->
  exists m e, binary_normalize prec emax n 0 false = S754_finite false m e /\
              bounded prec emax m e = true /\
              mag m e = n * 2 ^ (- emin).
Proof.
  intros Hn Hd. pose proof emin_nonpos as En.
  destruct n as [|p|p]; try lia. simpl binary_normalize.
  pose proof (binary_round_correct false p 0) as C.
  assert (HR : rnd_at (Z.pos p) 1 0 = Z.pos p * 2 ^ (- emin)).
  { unfold round_at. rewrite Z.max_l, Z.max_r by lia.
    rewrite Z.sub_0_l. change (1 * 2 ^ 0) with 1.
    apply round_units_exact; lia. }
  rewrite HR in C.
  pose proof (Z.pow_pos_nonneg 2 (- emin) ltac:(lia) ltac:(lia)) as PW.
  destruct C as [[C _]|[(_ & m & e & -> & B & M)|[C _]]].
  - nia.
  - exists m, e. done.
  - exfalso.
    pose proof (Zdigits2_spec (Z.pos p) ltac:(lia)) as [_ S].
    assert (Z.pos p * 2 ^ (- emin) < 2 ^ emax * 2 ^ (- emin)).
    { apply Z.mul_lt_mono_pos_r; [lia|].
      eapply Z.lt_le_trans; [apply S|]. apply Z.pow_le_mono_r; lia. }
    rewrite <- Z.pow_add_r in H by lia.
    replace (emax + - emin) with (emax - emin) in H by lia. lia.
Qed.

(** The integer part of a finite float. *)
Lemma shiftl_mag m e :
  emin <= e -> Z.shiftl (Z.pos m) e = mag m e / 2 ^ (- emin).
Proof.
  intros He. pose proof emin_nonpos as En. unfold mag_units.
  destruct (Z_le_gt_dec 0 e) as [H0|H0].
  - rewrite Z.shiftl_mul_pow2 by lia.
    replace (e - emin) with (e + - emin) by lia.
    rewrite Z.pow_add_r by lia. rewrite Z.mul_assoc, Z.div_mul; [done|].
    pose proof (Z.pow_pos_nonneg 2 (- emin)). lia.
  - rewrite Z.shiftl_div_pow2 by lia.
    replace (- emin) with ((- e) + (e - emin)) at 1 by lia.
    rewrite Z.pow_add_r by lia.
    rewrite Z.div_mul_cancel_r; [done| |].
    + pose proof (Z.pow_pos_nonneg 2 (- e)). lia.
    + pose proof (Z.pow_pos_nonneg 2 (e - emin)). lia.
Qed.

(** *** Subtraction: the difference of two floats is zero only when they
    compare equal *)

Lemma rounds_pos_not_zero s R r : 0 < R -> rounds s R r -> F64.is_zero r = false.
Proof.
  intros HR [[H _]|[(_ & m & e & -> & _)|[_ ->]]]; [lia|done|done].
Qed.

Lemma binary_round_not_zero s p e :
  emin <= e -> F64.is_zero (binary_round prec emax s p e) = false.
Proof.
  intros He. apply (rounds_pos_not_zero s (rnd_at (Z.pos p) 1 e)).
  - unfold round_at. rewrite Z.max_l, Z.max_r by lia.
    apply round_units_pos; [simpl; lia|].
    pose proof (Z.pow_pos_nonneg 2 (e - emin) ltac:(lia) ltac:(lia)).
    change (1 * 2 ^ 0) with 1. nia.
  - apply binary_round_correct.
Qed.

Lemma SFsub_diag s m e :
  SFsub prec emax (S754_finite s m e) (S754_finite s m e) = S754_zero false.
Proof.
  simpl. rewrite Z.sub_diag. reflexivity.
Qed.

Lemma SFsub_finite_not_zero sx mx ex sy my ey :
  bounded prec emax mx ex = true -> bounded prec emax my ey = true ->
  SFeqb (S754_finite sx mx ex) (S754_finite sy my ey) = false ->
  F64.is_zero (SFsub prec emax (S754_finite sx mx ex) (S754_finite sy my ey)) = false.
Proof.
  intros Bx By Hne.
  destruct (bounded_spec _ _ Bx) as (_ & Ex & _).
  destruct (bounded_spec _ _ By) as (_ & Ey & _).
  simpl SFsub. set (ez := Z.min ex ey).
  pose proof (shl_align_spec mx ex ez) as Ax.
  pose proof (shl_align_spec my ey ez) as Ay.
  destruct (shl_align mx ex ez) as [mx' ex'], (shl_align my ey ez) as [my' ey'].
  destruct Ax as [Hex' Hmx'], Ay as [Hey' Hmy']. simpl fst.
  assert (Ex' : ex' = ez) by lia. assert (Ey' : ey' = ez) by lia.
  rewrite Ex' in Hmx'. rewrite Ey' in Hmy'. clear Hex' Hey' Ex' Ey'.
  destruct (cond_Zopp sx (Z.pos mx') - cond_Zopp sy (Z.pos my')) as [|p|p] eqn:Ed.
  - exfalso.
    assert (sx = sy /\ Z.pos mx' = Z.pos my') as [-> Hm].
    { destruct sx, sy; simpl in Ed; try lia; (split; [done|lia]). }
    assert (mag mx ex = mag my ey).
    { unfold mag_units.
      replace (ex - emin) with (ex - ez + (ez - emin)) by lia.
      replace (ey - emin) with (ey - ez + (ez - emin)) by lia.
      rewrite !Z.pow_add_r by lia. rewrite !Z.mul_assoc, <- Hmx', <- Hmy', Hm. done. }
    destruct (mag_inj _ _ _ _ Bx By H) as [-> ->].
    unfold SFeqb in Hne. rewrite SFcompare_refl_finite in Hne. done.
  - simpl. apply binary_round_not_zero. lia.
  - simpl. apply binary_round_not_zero. lia.
Qed.

(** For valid operands of any class. *)
Lemma SFsub_not_zero x y :
  valid_binary prec emax x = true -> valid_binary prec emax y = true ->
  SFeqb x y = false -> F64.is_zero (SFsub prec emax x y) = false.
Proof.
  intros Vx Vy Hne.
  destruct x as [sx|sx| |sx mx ex], y as [sy|sy| |sy my ey];
    try (apply SFsub_finite_not_zero; done);
    try (destruct sx, sy; done); try (destruct sx; done); try (destruct sy; done); try done.
Qed.

(** The difference of two finite floats is the rounding of the exact
    difference, with its sign. *)
Lemma SFsub_finite_correct sx mx ex sy my ey :
  bounded prec emax mx ex = true -> bounded prec emax my ey = true ->
  cond_Zopp sx (mag mx ex) <> cond_Zopp sy (mag my ey) ->
  rounds (cond_Zopp sx (mag mx ex) - cond_Zopp sy (mag my ey) <? 0)
    (rnd (Z.abs (cond_Zopp sx (mag mx ex) - cond_Zopp sy (mag my ey))) 1)
    (SFsub prec emax (S754_finite sx mx ex) (S754_finite sy my ey)).
Proof.
  intros Bx By Hne.
  destruct (bounded_spec _ _ Bx) as (_ & Ex & _).
  destruct (bounded_spec _ _ By) as (_ & Ey & _).
  simpl SFsub. set (ez := Z.min ex ey).
  pose proof (shl_align_spec mx ex ez) as Ax.
  pose proof (shl_align_spec my ey ez) as Ay.
  destruct (shl_align mx ex ez) as [mx' ex'], (shl_align my ey ez) as [my' ey'].
  destruct Ax as [Hex' Hmx'], Ay as [Hey' Hmy']. simpl fst.
  assert (Ex' : ex' = ez) by lia. assert (Ey' : ey' = ez) by lia.
  rewrite Ex' in Hmx'. rewrite Ey' in Hmy'. clear Hex' Hey' Ex' Ey'.
  pose proof (Z.pow_pos_nonneg 2 (ez - emin) ltac:(lia) ltac:(lia)) as PG.
  assert (HV : cond_Zopp sx (mag mx ex) - cond_Zopp sy (mag my ey)
               = (cond_Zopp sx (Z.pos mx') - cond_Zopp sy (Z.pos my')) * 2 ^ (ez - emin)).
  { unfold mag_units.
    replace (ex - emin) with (ex - ez + (ez - emin)) by lia.
    replace (ey - emin) with (ey - ez + (ez - emin)) by lia.
    rewrite !Z.pow_add_r by lia. rewrite !Z.mul_assoc, <- Hmx', <- Hmy'.
    destruct sx, sy; unfold cond_Zopp; ring. }
  assert (Hne' : (cond_Zopp sx (Z.pos mx') - cond_Zopp sy (Z.pos my')) * 2 ^ (ez - emin) <> 0)
    by lia.
  rewrite HV. clear HV Hne.
  destruct (cond_Zopp sx (Z.pos mx') - cond_Zopp sy (Z.pos my')) as [|p|p]; [lia| |].
  - simpl binary_normalize.
    assert ((Z.pos p * 2 ^ (ez - emin) <? 0) = false) as -> by (apply Z.ltb_ge; lia).
    rewrite Z.abs_eq by lia.
    pose proof (binary_round_correct false p ez) as C.
    unfold round_at in C. rewrite Z.max_l, Z.max_r in C by lia.
    change (1 * 2 ^ 0) with 1 in C. exact C.
  - simpl binary_normalize.
    assert ((Z.neg p * 2 ^ (ez - emin) <? 0) = true) as -> by (apply Z.ltb_lt; lia).
    replace (Z.abs (Z.neg p * 2 ^ (ez - emin))) with (Z.pos p * 2 ^ (ez - emin)) by lia.
    pose proof (binary_round_correct true p ez) as C.
    unfold round_at in C. rewrite Z.max_l, Z.max_r in C by lia.
    change (1 * 2 ^ 0) with 1 in C. exact C.
Qed.

(** *** Doubling, and the largest finite magnitude *)

Lemma round_units_double N D :
  0 < D -> 2 ^ (prec - 1) * D <= N -> rnd (2 * N) D = 2 * rnd N D.
Proof.
  intros HD HN.
  pose proof (Z.pow_pos_nonneg 2 (prec - 1) ltac:(lia) ltac:(lia)) as Pp1.
  assert (HM : 2 ^ (prec - 1) <= N / D) by (apply Z.div_le_lower_bound; lia).
  set (M := N / D) in *.
  pose proof (Zdigits2_spec M ltac:(lia)) as SM.
  assert (HdM : prec <= Zdigits2 M).
  { pose proof (Zdigits2_nonneg M).
    assert (2 ^ (prec - 1) < 2 ^ Zdigits2 M) as H1 by lia.
    apply Z.pow_lt_mono_r_iff in H1; lia. }
  pose proof (Z.div_mod N D ltac:(lia)) as EN. fold M in EN.
  pose proof (Z.mod_pos_bound N D HD) as BN.
  pose proof (Z.pow_pos_nonneg 2 (Zdigits2 M - 1) ltac:(lia) ltac:(lia)) as Pd.
  assert (Hpow : 2 ^ Zdigits2 M = 2 * 2 ^ (Zdigits2 M - 1)).
  { replace (Zdigits2 M) with (1 + (Zdigits2 M - 1)) at 1 by lia.
    rewrite Z.pow_add_r by lia. reflexivity. }
  assert (Hd2 : Zdigits2 (2 * N / D) = Zdigits2 M + 1).
  { apply Zdigits2_unique; [|lia]. replace (Zdigits2 M + 1 - 1) with (Zdigits2 M) by lia.
    split.
    - apply Z.div_le_lower_bound; [lia|]. nia.
    - apply Z.div_lt_upper_bound; [lia|].
      rewrite Z.pow_add_r by lia. change (2 ^ 1) with 2. nia. }
  unfold round_units. fold M. rewrite Hd2.
  rewrite !Z.max_l by lia.
  replace (Zdigits2 M + 1 - prec) with (1 + (Zdigits2 M - prec)) by lia.
  rewrite Z.pow_add_r by lia. change (2 ^ 1) with 2.
  pose proof (Z.pow_pos_nonneg 2 (Zdigits2 M - prec) ltac:(lia) ltac:(lia)) as Pk.
  replace (D * (2 * 2 ^ (Zdigits2 M - prec))) with (2 * (D * 2 ^ (Zdigits2 M - prec))) by ring.
  rewrite rne_scale by nia. ring.
Qed.

Lemma mag_lt_overflow m e :
  bounded prec emax m e = true -> 0 < mag m e < 2 ^ (emax - emin).
Proof.
  intros B. destruct (bounded_spec _ _ B) as (Dm & He & _).
  pose proof (Zdigits2_spec (Z.pos m) ltac:(lia)) as [_ S].
  pose proof (Z.pow_pos_nonneg 2 (e - emin) ltac:(lia) ltac:(lia)) as Pe.
  unfold mag_units. split; [lia|].
  apply Z.lt_le_trans with (2 ^ prec * 2 ^ (e - emin)).
  - apply Z.mul_lt_mono_pos_r; [lia|].
    eapply Z.lt_le_trans; [apply S|]. apply Z.pow_le_mono_r; lia.
  - rewrite <- Z.pow_add_r by lia. apply Z.pow_le_mono_r; lia.
Qed.

(** In the normal range a rounding is off by at most half a unit in the
    last place: a relative error of [2 ^ - prec]. *)
Lemma round_units_rel N D :
  0 < D -> 2 ^ (prec - 1) * D <= N ->
  2 ^ prec * Z.abs (D * rnd N D - N) <= N.
Proof.
  intros HD HN.
  pose proof (Z.pow_pos_nonneg 2 (prec - 1) ltac:(lia) ltac:(lia)) as Pp1.
  assert (HM : 2 ^ (prec - 1) <= N / D) by (apply Z.div_le_lower_bound; lia).
  assert (Hq : 0 < N / D) by lia.
  pose proof (Zdigits2_spec (N / D) Hq) as [S1 S2].
  assert (Hdig : prec <= Zdigits2 (N / D)).
  { destruct (Z_lt_le_dec (Zdigits2 (N / D)) prec) as [Hlt|]; [exfalso|done].
    assert (2 ^ Zdigits2 (N / D) <= 2 ^ (prec - 1)) by (apply Z.pow_le_mono_r; lia).
    lia. }
  unfold round_units. rewrite Z.max_l by lia.
  set (k := Zdigits2 (N / D) - prec) in *.
  pose proof (Z.pow_pos_nonneg 2 k ltac:(lia) ltac:(lia)) as Pk.
  assert (PG : 0 < D * 2 ^ k) by nia.
  pose proof (rne_cases N (D * 2 ^ k) PG) as C. cbv zeta in C.
  set (r := rne N (D * 2 ^ k)) in *.
  assert (HG : 2 ^ (prec - 1) * (D * 2 ^ k) <= N).
  { assert (Hk : 2 ^ (prec - 1) * 2 ^ k <= N / D).
    { rewrite <- Z.pow_add_r by lia.
      replace (prec - 1 + k) with (Zdigits2 (N / D) - 1) by lia. done. }
    pose proof (Z.mul_div_le N D HD) as Hdiv.
    apply (Z.mul_le_mono_nonneg_l _ _ D) in Hk; [|lia].
    replace (2 ^ (prec - 1) * (D * 2 ^ k)) with (D * (2 ^ (prec - 1) * 2 ^ k)) by ring.
    lia. }
  assert (HE : 2 * Z.abs (D * (r * 2 ^ k) - N) <= D * 2 ^ k).
  { replace (D * (r * 2 ^ k)) with (D * 2 ^ k * r) by ring.
    destruct C as [C|[[C|C] _]]; lia. }
  replace (2 ^ prec) with (2 ^ (prec - 1) * 2).
  2:{ rewrite Z.mul_comm, <- Z.pow_succ_r by lia. f_equal. lia. }
  apply (Z.mul_le_mono_nonneg_l _ _ (2 ^ (prec - 1))) in HE; [|lia].
  rewrite <- Z.mul_assoc. lia.
Qed.

(** A finite float is its own rounding. *)
Lemma round_units_mag m e :
  bounded prec emax m e = true -> rnd (mag m e) 1 = mag m e.
Proof.
  intros B. destruct (bounded_spec _ _ B) as (Dm & He & _).
  unfold mag_units. apply round_units_exact; lia.
Qed.

End Rounding.

(** * The script

    ** Binary64 instances *)

Lemma F64_prec_gt_0 : 0 < F64.prec.
Proof. reflexivity. Qed.

Lemma F64_prec_lt_emax : F64.prec < F64.emax.
Proof. reflexivity. Qed.

(** A lemma of the rounding theory, taken at the binary64 parameters. *)
Notation "'binary64' lem" :=
  (lem F64.prec F64.emax F64_prec_gt_0 F64_prec_lt_emax)
  (at level 10, lem at level 9, only parsing).

Lemma SFeqb_sym x y : SFeqb x y = SFeqb y x.
Proof.
  unfold SFeqb.
  destruct x as [sx|sx| |sx mx ex], y as [sy|sy| |sy my ey]; simpl;
    try (destruct sx; reflexivity); try (destruct sy; reflexivity);
    try (destruct sx, sy; reflexivity); try reflexivity.
  rewrite (Z.compare_antisym ex ey).
  replace (Pos.compare_cont Eq my mx) with (CompOpp (Pos.compare_cont Eq mx my))
    by apply (Pos.compare_cont_antisym mx my Eq).
  destruct sx, sy; simpl; try reflexivity;
    destruct (ex ?= ey); simpl; try reflexivity;
    destruct (Pos.compare_cont Eq mx my); reflexivity.
Qed.

Lemma is_zero_abs x : F64.is_zero (F64.abs x) = F64.is_zero x.
Proof. destruct x; reflexivity. Qed.

Lemma sub_not_zero x y :
  F64.valid x = true -> F64.valid y = true -> F64.eqb x y = false ->
  F64.is_zero (F64.sub x y) = false.
Proof. apply (binary64 SFsub_not_zero). Qed.

Lemma sub_eq_zero x y :
  F64.is_finite x = true -> F64.is_finite y = true -> F64.eqb x y = true ->
  F64.abs (F64.sub x y) = F64.zero.
Proof.
  intros Fx Fy E.
  destruct x as [sx|sx| |sx mx ex], y as [sy|sy| |sy my ey]; try done.
  - destruct sx, sy; reflexivity.
  - destruct sy; done.
  - destruct sx; done.
  - apply SFeqb_finite_inv in E as (-> & -> & ->).
    unfold F64.sub. rewrite (binary64 SFsub_diag). reflexivity.
Qed.

Lemma known_distance_nm_exact : known_distance_nm = F64.of_Z (1000 * 8 * 10).
Proof. vm_compute. reflexivity. Qed.

Lemma Ok_inj {A : Type} (a b : A) : Ok a = Ok b -> a = b.
Proof. congruence. Qed.

(** ** The store monad *)

Lemma bind_inv {A B : Type} (c : Py A) (k : A -> Py B) σ r σ' :
  bind c k σ = (r, σ') ->
  (exists a σ1, c σ = (Ok a, σ1) /\ k a σ1 = (r, σ')) \/
  (exists e, c σ = (Raise e, σ') /\ r = Raise e).
Proof.
  unfold bind. destruct (c σ) as [[a|e] σ1]; intros H.
  - left. exists a, σ1. done.
  - right. exists e. by inversion H.
Qed.

(** Peels the successful prefix off a run that ended in [Ok]. *)
Ltac bind_ok H :=
  let a := fresh "a" in
  let σ1 := fresh "σ" in
  let H1 := fresh "Hstep" in
  apply bind_inv in H as [(a & σ1 & H1 & H)|(? & _ & ?)]; [|discriminate].

(** ** Calibration *)

Lemma py_getitem_fmap {A B : Type} (f : A -> B) (l : list A) (i : Z) :
  py_getitem (f <$> l) i = try a <- py_getitem l i; Ok (f a).
Proof.
  unfold py_getitem. rewrite length_fmap, list_lookup_fmap.
  destruct (_ && _); [|reflexivity].
  destruct (l !! _); reflexivity.
Qed.

Lemma pixels_between_lines_fst (clicks : list click) :
  pixels_between_lines clicks =
    try x1 <- py_getitem (fst <$> clicks) 1;
    try x0 <- py_getitem (fst <$> clicks) 0;
    Ok (F64.abs (F64.sub x1 x0)).
Proof.
  unfold pixels_between_lines. rewrite !py_getitem_fmap.
  destruct (py_getitem clicks 1); [|reflexivity]. simpl.
  destruct (py_getitem clicks 0); reflexivity.
Qed.

(** C6: with the embedded positions the distance is 1237 pixels and the
    calibration is within 0.01 of 64.67 nm per pixel. *)
Theorem nm_per_pixel_cursor_example :
  pixels_between_lines_cursor = 1237 /\
  exists v, nm_per_pixel_cursor = Ok v /\
            (Qabs (to_Q v - (6467 # 100)) < 1 # 100)%Q.
Proof.
  split; [reflexivity|].
  exists (S754_finite false 4550929292007373 (-46)).
  split; vm_compute; reflexivity.
Qed.

(** C8: the measured distance and the calibration depend on the clicks only
    through their x-components. *)
Theorem calibration_ignores_y (clicks clicks' : list click) :
  fst <$> clicks = fst <$> clicks' ->
  pixels_between_lines clicks = pixels_between_lines clicks' /\
  nm_per_pixel clicks = nm_per_pixel clicks'.
Proof.
  intros H.
  assert (pixels_between_lines clicks = pixels_between_lines clicks') as HP.
  { rewrite !pixels_between_lines_fst, H. reflexivity. }
  split; [done|]. unfold nm_per_pixel. rewrite HP. reflexivity.
Qed.

Lemma calibration_ignores_y_witness :
  nm_per_pixel [(F64.of_Z 62, F64.of_Z 300); (F64.of_Z 1299, F64.of_Z 310)] =
  nm_per_pixel [(F64.of_Z 62, F64.of_Z 7); (F64.of_Z 1299, F64.of_Z 811)].
Proof.
  apply (calibration_ignores_y
           [(F64.of_Z 62, F64.of_Z 300); (F64.of_Z 1299, F64.of_Z 310)]
           [(F64.of_Z 62, F64.of_Z 7); (F64.of_Z 1299, F64.of_Z 811)]).
  reflexivity.
Defined.

(** ** Slice assignment *)

Lemma imap_id_ext {A : Type} (f : nat -> A -> A) (l : list A) :
  (forall i x, l !! i = Some x -> f i x = x) -> imap f l = l.
Proof.
  intros H. apply list_eq. intros i. rewrite list_lookup_imap.
  destruct (l !! i) as [x|] eqn:E; [|done]. simpl. by rewrite (H i x E).
Qed.

Lemma imap_imap {A B C : Type} (f : nat -> B -> C) (g : nat -> A -> B) (l : list A) :
  imap f (imap g l) = imap (fun i x => f i (g i x)) l.
Proof.
  apply list_eq. intros i. rewrite !list_lookup_imap.
  destruct (l !! i); done.
Qed.

Lemma assign_slice_paint {A : Type} r0 r1 c0 c1 (v : A) (a : grid A) :
  assign_slice r0 r1 c0 c1 v a = paint (region (nrows a) (ncols a) r0 r1 c0 c1) v a.
Proof.
  unfold assign_slice, paint, update_range, region.
  apply imap_ext. intros i row _.
  destruct (in_range (slice_bound (nrows a) r0) (slice_bound (nrows a) r1) i); simpl.
  - reflexivity.
  - symmetry. by apply imap_id_ext.
Qed.

Lemma nrows_paint {A : Type} P (v : A) (a : grid A) : nrows (paint P v a) = nrows a.
Proof. unfold nrows, paint. apply length_imap. Qed.

Lemma ncols_paint {A : Type} P (v : A) (a : grid A) : ncols (paint P v a) = ncols a.
Proof.
  unfold paint. destruct a as [|row a]; [done|].
  rewrite imap_cons. simpl. apply length_imap.
Qed.

Lemma pixel_paint {A : Type} P (v : A) (a : grid A) i j :
  pixel (paint P v a) i j = (fun x => if P i j then v else x) <$> pixel a i j.
Proof.
  unfold pixel, paint. rewrite list_lookup_imap.
  destruct (a !! i) as [row|]; [|done]. simpl.
  by rewrite list_lookup_imap.
Qed.

Lemma paint_paint {A : Type} P Q (v : A) (a : grid A) :
  paint P v (paint Q v a) = paint (fun i j => P i j || Q i j) v a.
Proof.
  unfold paint. rewrite imap_imap. apply imap_ext. intros i row _.
  rewrite imap_imap. apply imap_ext. intros j x _.
  destruct (P i j), (Q i j); reflexivity.
Qed.

Lemma paint_ext {A : Type} P Q (v : A) (a : grid A) :
  (forall i j, P i j = Q i j) -> paint P v a = paint Q v a.
Proof.
  intros H. unfold paint. apply imap_ext. intros i row _.
  apply imap_ext. intros j x _. by rewrite H.
Qed.

(** The five assignments together blacken [scale_bar_mask]. *)
Lemma draw_scale_bar_paint o1 o5 o10 (a : grid float) :
  draw_scale_bar o1 o5 o10 a =
    paint (scale_bar_mask (nrows a) (ncols a) o1 o5 o10) F64.zero a.
Proof.
  unfold draw_scale_bar, notches, notch, horizontal_line.
  rewrite !assign_slice_paint.
  rewrite ?nrows_paint, ?ncols_paint, !paint_paint.
  apply paint_ext. intros i j. unfold scale_bar_mask.
  rewrite ?nrows_paint, ?ncols_paint.
  repeat match goal with
         | |- context [region ?h ?w ?r0 ?r1 ?c0 ?c1 i j] =>
             destruct (region h w r0 r1 c0 c1 i j)
         end; reflexivity.
Qed.

(** C10: drawing the ruler a second time changes nothing. *)
Theorem draw_scale_bar_idempotent o1 o5 o10 (a : grid float) :
  draw_scale_bar o1 o5 o10 (draw_scale_bar o1 o5 o10 a) = draw_scale_bar o1 o5 o10 a.
Proof.
  set (b := draw_scale_bar o1 o5 o10 a).
  rewrite (draw_scale_bar_paint o1 o5 o10 b). subst b.
  rewrite (draw_scale_bar_paint o1 o5 o10 a).
  rewrite nrows_paint, ncols_paint, paint_paint.
  apply paint_ext. intros i j. apply orb_diag.
Qed.

Lemma in_range_slice (n : nat) (lo hi : Z) (i : nat) :
  0 <= lo -> 0 <= hi -> (i < n)%nat ->
  in_range (slice_bound n lo) (slice_bound n hi) i
  = (lo <=? Z.of_nat i) && (Z.of_nat i <? hi).
Proof.
  intros Hlo Hhi Hi. unfold in_range, slice_bound.
  rewrite (proj2 (Z.ltb_ge lo 0)), (proj2 (Z.ltb_ge hi 0)) by lia.
  destruct (Z.leb_spec lo (Z.of_nat i)), (Z.ltb_spec (Z.of_nat i) hi);
    destruct (Nat.leb_spec (Z.to_nat (Z.min (Z.max lo 0) (Z.of_nat n))) i);
    destruct (Nat.ltb_spec i (Z.to_nat (Z.min (Z.max hi 0) (Z.of_nat n))));
    simpl; try reflexivity; lia.
Qed.

Lemma pixel_in_bounds {A : Type} (a : grid A) i j x :
  rectangular a -> pixel a i j = Some x -> (i < nrows a)%nat /\ (j < ncols a)%nat.
Proof.
  unfold rectangular, pixel, nrows. intros R H.
  destruct (a !! i) as [row|] eqn:E; [|done]. simpl in H.
  split; [by eapply lookup_lt_Some|].
  rewrite Forall_lookup in R. rewrite <- (R i row E). by eapply lookup_lt_Some.
Qed.

(** C3, as the code has it: the assignment blackens the part of rows
    [900, 905) and columns [1150, 1150 + 1 + offset) that lies inside the
    picture, keeps the shape, and never raises, whatever the width. *)
Theorem horizontal_line_clipped (a : grid float) (o10 : Z) :
  rectangular a -> 0 <= o10 ->
  nrows (horizontal_line o10 a) = nrows a /\
  ncols (horizontal_line o10 a) = ncols a /\
  (forall i j,
     pixel (horizontal_line o10 a) i j =
       (fun x => if (900 <=? Z.of_nat i) && (Z.of_nat i <? 905) &&
                    ((1150 <=? Z.of_nat j) && (Z.of_nat j <? 1150 + 1 + o10))
                 then F64.zero else x) <$> pixel a i j) /\
  (forall l σ, σ !! l = Some (Float64Array a) ->
     update_float64 l (horizontal_line o10) σ
     = (Ok tt, <[l := Float64Array (horizontal_line o10 a)]> σ)).
Proof.
  intros R Ho.
  assert (E : horizontal_line o10 a =
              paint (region (nrows a) (ncols a) scale_bar_y
                            (scale_bar_y + scale_bar_thickness)
                            scale_bar_xL (1 + scale_bar_xL + o10)) F64.zero a)
    by apply assign_slice_paint.
  split; [rewrite E; apply nrows_paint|].
  split; [rewrite E; apply ncols_paint|]. split.
  - intros i j. rewrite E, pixel_paint.
    destruct (pixel a i j) as [x|] eqn:Ex; [|done]. simpl.
    destruct (pixel_in_bounds a i j x R Ex) as [Hi Hj].
    unfold region, scale_bar_y, scale_bar_thickness, scale_bar_xL.
    rewrite !in_range_slice by lia. reflexivity.
  - intros l σ Hl. unfold update_float64. rewrite Hl. reflexivity.
Qed.

Lemma horizontal_line_clipped_witness :
  nrows (horizontal_line 154 (repeat (repeat F64.one 1200%nat) 905%nat)) = 905%nat /\
  ncols (horizontal_line 154 (repeat (repeat F64.one 1200%nat) 905%nat)) = 1200%nat /\
  pixel (horizontal_line 154 (repeat (repeat F64.one 1200%nat) 905%nat)) 900 1150
    = Some F64.zero /\
  pixel (horizontal_line 154 (repeat (repeat F64.one 1200%nat) 905%nat)) 904 1199
    = Some F64.zero /\
  pixel (horizontal_line 154 (repeat (repeat F64.one 1200%nat) 905%nat)) 899 1150
    = Some F64.one /\
  pixel (horizontal_line 154 (repeat (repeat F64.one 1200%nat) 905%nat)) 902 1149
    = Some F64.one /\
  pixel (horizontal_line 154 (repeat (repeat F64.one 1200%nat) 905%nat)) 902 1200
    = None.
Proof.
  destruct (horizontal_line_clipped (repeat (repeat F64.one 1200%nat) 905%nat) 154)
    as (Hr & Hc & H & _).
  - unfold rectangular. apply Forall_forall. intros r Hin.
    apply list_elem_of_In, repeat_spec in Hin. subst r. reflexivity.
  - lia.
  - rewrite Hr, Hc, !H. repeat split; reflexivity.
Defined.

(** C3, as stated, fails: with the ruler of the data-cursor calibration
    (154 pixels for 10 um) on a picture 1200 pixels wide, the column range
    ends at 1305, the assignment succeeds and stops at the right edge. *)
Lemma horizontal_line_no_bounds_error :
  let a := repeat (repeat F64.one 1200) 905 in
  (try nm <- nm_per_pixel_cursor;
   try length_px <- scale_bar_length nm;
   try offset <- scale_bar_offset length_px;
   py_dict_get offset "10") = Ok 154 /\
  Z.of_nat (ncols a) < 1150 + 1 + 154 /\
  fst (update_float64 0%nat (horizontal_line 154) {[0%nat := Float64Array a]}) = Ok tt /\
  ncols (horizontal_line 154 a) = 1200%nat /\
  pixel (horizontal_line 154 a) 900 1199 = Some F64.zero /\
  pixel (horizontal_line 154 a) 900 1200 = None.
Proof.
  cbv zeta.
  split; [vm_compute; reflexivity|].
  split; [vm_compute; reflexivity|].
  split; [vm_compute; reflexivity|].
  split; [vm_compute; reflexivity|].
  split; vm_compute; reflexivity.
Qed.

(** ** Runs and the store *)

Lemma alloc_spec v σ :
  exists l, alloc v σ = (Ok l, <[l := v]> σ) /\ σ !! l = None.
Proof.
  exists (fresh (dom σ)). split; [reflexivity|].
  apply not_elem_of_dom. apply is_fresh.
Qed.

Lemma scale_bar_offset_inv length_px offset :
  scale_bar_offset length_px = Ok offset ->
  exists o1 o5 o10,
    py_int length_px = Ok o1 /\
    py_int (F64.mul (F64.of_Z 5) length_px) = Ok o5 /\
    py_int (F64.mul (F64.of_Z 10) length_px) = Ok o10 /\
    offset = <["10" := o10]> (<["5" := o5]> (<["1" := o1]> ∅)).
Proof.
  unfold scale_bar_offset.
  destruct (py_int length_px) as [o1|]; [|done].
  destruct (py_int (F64.mul (F64.of_Z 5) length_px)) as [o5|]; [|done].
  destruct (py_int (F64.mul (F64.of_Z 10) length_px)) as [o10|]; [|done].
  simpl. intros [= <-]. by exists o1, o5, o10.
Qed.

Lemma scale_bar_offset_lookup (o1 o5 o10 : Z) :
  let offset : gmap string Z := <["10" := o10]> (<["5" := o5]> (<["1" := o1]> ∅)) in
  py_dict_get offset "1" = Ok o1 /\
  py_dict_get offset "5" = Ok o5 /\
  py_dict_get offset "10" = Ok o10.
Proof.
  unfold py_dict_get. repeat split; by simplify_map_eq.
Qed.

(** The five assignments, run against the store, replace the array behind
    [ecoli_norm] by the array with the ruler drawn and touch nothing else. *)
Lemma overlay_spec (l : ref) (a : grid float) (o1 o5 o10 : Z) σ :
  σ !! l = Some (Float64Array a) ->
  overlay l (<["10" := o10]> (<["5" := o5]> (<["1" := o1]> ∅))) σ
  = (Ok tt, <[l := Float64Array (draw_scale_bar o1 o5 o10 a)]> σ).
Proof.
  intros Hl.
  destruct (scale_bar_offset_lookup o1 o5 o10) as (L1 & L5 & L10).
  cbv zeta in L1, L5, L10.
  unfold overlay, bind, lift, update_float64.
  rewrite L10, L1, L5, Hl. cbv beta iota.
  do 4 (rewrite lookup_insert_eq; cbv beta iota).
  rewrite !insert_insert_eq. reflexivity.
Qed.

Lemma annotate_spec (nm : float) (ecoli : ref) σ r σ' :
  annotate nm ecoli σ = (r, σ') ->
  σ ⊆ σ' /\
  forall ecoli_norm, r = Ok ecoli_norm ->
    σ !! ecoli_norm = None /\
    exists a n length_px o1 o5 o10,
      σ !! ecoli = Some (Uint16Array a) /\
      normalize a = Ok n /\
      scale_bar_length nm = Ok length_px /\
      scale_bar_offset length_px
        = Ok (<["10" := o10]> (<["5" := o5]> (<["1" := o1]> ∅))) /\
      σ' = <[ecoli_norm := Float64Array (draw_scale_bar o1 o5 o10 n)]> σ.
Proof.
  unfold annotate, bind at 1, read_uint16.
  destruct (σ !! ecoli) as [[a|a]|] eqn:Ee; try (intros [= <- <-]; done).
  unfold bind at 1, lift at 1.
  destruct (normalize a) as [n|e] eqn:En; [|intros [= <- <-]; done].
  unfold bind at 1.
  destruct (alloc_spec (Float64Array n) σ) as (l & -> & Hl).
  assert (Hsub : σ ⊆ <[l := Float64Array n]> σ) by by apply insert_subseteq.
  unfold bind at 1, lift at 1.
  destruct (scale_bar_length nm) as [length_px|e] eqn:Es; [|intros [= <- <-]; done].
  unfold bind at 1, lift at 1.
  destruct (scale_bar_offset length_px) as [offset|e] eqn:Eo; [|intros [= <- <-]; done].
  destruct (scale_bar_offset_inv _ _ Eo) as (o1 & o5 & o10 & _ & _ & _ & ->).
  unfold bind at 1.
  rewrite (overlay_spec l n o1 o5 o10) by apply lookup_insert_eq.
  rewrite insert_insert_eq. unfold ret. intros [= <- <-].
  split.
  - by apply insert_subseteq.
  - intros ? [= <-]. split; [done|].
    by exists a, n, length_px, o1, o5, o10.
Qed.

Lemma calibrate_frame graticule_tif clicks σ r σ' :
  calibrate graticule_tif clicks σ = (r, σ') -> σ ⊆ σ'.
Proof.
  unfold calibrate, bind at 1, imread.
  destruct (alloc_spec (Uint16Array graticule_tif) σ) as (l & -> & Hl).
  assert (Hsub : σ ⊆ <[l := Uint16Array graticule_tif]> σ) by by apply insert_subseteq.
  unfold bind, read_uint16, lift. rewrite lookup_insert_eq.
  repeat match goal with
         | |- context [match ?x with Ok _ => _ | Raise _ => _ end] => destruct x
         end; intros [= <- <-]; done.
Qed.

(** C9: the script never writes into the array it loaded as [ecoli] (nor
    into any array that existed before): the normalised picture is a new
    array, and the ruler is drawn into that one. *)
Theorem ecoli_unchanged graticule_tif ecoli_tif clicks σ r σ' :
  EColiSize graticule_tif ecoli_tif clicks σ = (r, σ') ->
  σ ⊆ σ' /\
  forall ecoli ecoli_norm, r = Ok (ecoli, ecoli_norm) ->
    σ' !! ecoli = Some (Uint16Array ecoli_tif) /\
    ecoli_norm <> ecoli /\
    exists n, σ' !! ecoli_norm = Some (Float64Array n).
Proof.
  unfold EColiSize, bind at 1.
  destruct (calibrate graticule_tif clicks σ) as [[nm|e] σ1] eqn:Ec;
    pose proof (calibrate_frame _ _ _ _ _ Ec) as F1;
    [|intros [= <- <-]; done].
  unfold bind at 1, imread.
  destruct (alloc_spec (Uint16Array ecoli_tif) σ1) as (ecoli & -> & Hl).
  assert (F2 : σ1 ⊆ <[ecoli := Uint16Array ecoli_tif]> σ1) by by apply insert_subseteq.
  unfold bind at 1.
  destruct (annotate nm ecoli _) as [[ecoli_norm|e] σ3] eqn:Ea;
    destruct (annotate_spec _ _ _ _ _ Ea) as [F3 S];
    unfold ret; intros [= <- <-].
  - split; [by repeat (etrans; [eassumption|])|].
    intros ? ? [= <- <-].
    destruct (S ecoli_norm eq_refl) as (Hfresh & a & n & s & o1 & o5 & o10 & _ & _ & _ & _ & ->).
    assert (ecoli_norm <> ecoli).
    { intros ->. by rewrite lookup_insert_eq in Hfresh. }
    split; [|split; [done|]].
    + rewrite lookup_insert_ne by done. apply lookup_insert_eq.
    + eexists. apply lookup_insert_eq.
  - split; [by repeat (etrans; [eassumption|])|]. done.
Qed.

Lemma ecoli_unchanged_witness :
  exists σ', EColiSize (repeat (repeat 100 11%nat) 401%nat) [[3; 7]; [5; 7]]
               [(F64.of_Z 640, F64.of_Z 300); (F64.of_Z 640, F64.of_Z 25)] ∅
             = (Ok (1%nat, 2%nat), σ') /\
             σ' !! 1%nat = Some (Uint16Array [[3; 7]; [5; 7]]).
Proof.
  eexists. split; [vm_compute; reflexivity|].
  eapply (ecoli_unchanged (repeat (repeat 100 11%nat) 401%nat) [[3; 7]; [5; 7]]
            [(F64.of_Z 640, F64.of_Z 300); (F64.of_Z 640, F64.of_Z 25)] ∅).
  - vm_compute. reflexivity.
  - reflexivity.
Defined.

(** ** Quotients of small integers in binary64 *)

Lemma F64_emin_val : F64.emin = -1074.
Proof. reflexivity. Qed.

Lemma unit_scale_bounds :
  0 < 2 ^ (- F64.emin) /\
  2 ^ 53 <= 2 ^ (- F64.emin).
Proof.
  rewrite F64_emin_val. split.
  - apply Z.pow_pos_nonneg; lia.
  - apply Z.pow_le_mono_r; lia.
Qed.

Lemma SFleb_finite_mag m1 e1 m2 e2 :
  bounded F64.prec F64.emax m1 e1 = true -> bounded F64.prec F64.emax m2 e2 = true ->
  F64.leb (S754_finite false m1 e1) (S754_finite false m2 e2)
  = (mag_units F64.prec F64.emax m1 e1 <=? mag_units F64.prec F64.emax m2 e2).
Proof.
  intros B1 B2. unfold F64.leb, SFleb, Z.leb. simpl SFcompare.
  rewrite (binary64 mag_compare _ _ _ _ B1 B2).
  destruct (_ ?= _); reflexivity.
Qed.

Lemma of_Z_small n :
  0 < n < 2 ^ 53 ->
  exists m e, F64.of_Z n = S754_finite false m e /\
              bounded F64.prec F64.emax m e = true /\
              mag_units F64.prec F64.emax m e
                = n * 2 ^ (- F64.emin) /\
              Zdigits2 (Z.pos m) + e = Zdigits2 n.
Proof.
  intros Hn.
  destruct (binary64 binary_normalize_exact n)
    as (m & e & E & B & M); [lia| |].
  { apply Zdigits2_le; [|done]. change F64.prec with 53. lia. }
  exists m, e. split; [done|]. split; [done|]. split; [done|].
  destruct (binary64 bounded_spec _ _ B) as (_ & He & _).
  pose proof F64_emin_val as Ev.
  assert (Hd : Zdigits2 (mag_units F64.prec F64.emax m e)
               = Zdigits2 (n * 2 ^ (- F64.emin))) by by rewrite M.
  unfold mag_units in Hd. rewrite !Zdigits2_mul_pow2 in Hd by lia. lia.
Qed.

Lemma div_of_Z a d :
  0 < a < 2 ^ 53 -> 0 < d < 2 ^ 53 ->
  exists m e, F64.div (F64.of_Z a) (F64.of_Z d) = S754_finite false m e /\
              bounded F64.prec F64.emax m e = true /\
              mag_units F64.prec F64.emax m e
                = round_units F64.prec (a * 2 ^ (- F64.emin)) d.
Proof.
  intros Ha Hd.
  destruct (of_Z_small a Ha) as (ma & ea & -> & Ba & Ma & Da).
  destruct (of_Z_small d Hd) as (md & ed & -> & Bd & Md & Dd).
  destruct unit_scale_bounds as [PW LW].
  pose proof F64_emin_val as Ev.
  set (W := 2 ^ (- F64.emin)) in *.
  pose proof (binary64 SFdiv_correct false ma ea false md ed Ba Bd) as C.
  rewrite Ma, Md in C. fold W in C.
  assert (Hdig : 0 < Zdigits2 a /\ Zdigits2 d <= 53).
  { split; [destruct a; simpl; lia|]. apply Zdigits2_le; lia. }
  assert (ER : round_units F64.prec (a * W * W) (d * W) = round_units F64.prec (a * W) d).
  { replace (a * W * W) with (W * (a * W)) by ring. replace (d * W) with (W * d) by ring.
    apply (binary64 round_units_scale); lia. }
  rewrite ER in C.
  assert (Rpos : 0 < round_units F64.prec (a * W) d).
  { apply (binary64 round_units_pos); [lia|nia]. }
  assert (Rlt : round_units F64.prec (a * W) d
                < 2 ^ (F64.emax - F64.emin)).
  { apply Z.le_lt_trans with (round_units F64.prec (a * W) 1).
    - apply (binary64 round_units_mono); nia.
    - unfold W. rewrite (binary64 round_units_exact); [|lia| |lia].
      2:{ apply Zdigits2_le; [|done]. change F64.prec with 53. lia. }
      apply Z.lt_le_trans with (2 ^ 53 * 2 ^ (- F64.emin)).
      + apply Z.mul_lt_mono_pos_r; lia.
      + rewrite <- Z.pow_add_r by lia. apply Z.pow_le_mono_r; [lia|].
        rewrite Ev. change F64.emax with 1024. lia. }
  assert (Hnorm : F64.emin + F64.prec
                  <= Zdigits2 (Z.pos ma) + ea - (Zdigits2 (Z.pos md) + ed)).
  { rewrite Da, Dd, Ev. change F64.prec with 53. lia. }
  destruct (C Hnorm) as [[C0 _]|[(_ & m & e & E & B & M)|[C0 _]]]; [lia| |lia].
  exists m, e. done.
Qed.

Lemma div_of_Z_0 d : 0 < d < 2 ^ 53 -> F64.div (F64.of_Z 0) (F64.of_Z d) = F64.zero.
Proof.
  intros Hd. destruct (of_Z_small d Hd) as (md & ed & -> & _). reflexivity.
Qed.

Lemma one_finite : F64.one = S754_finite false 4503599627370496 (-52).
Proof. reflexivity. Qed.

Lemma div_of_Z_self d : 0 < d < 2 ^ 53 -> F64.div (F64.of_Z d) (F64.of_Z d) = F64.one.
Proof.
  intros Hd. destruct (div_of_Z d d Hd Hd) as (m & e & -> & B & M).
  destruct unit_scale_bounds as [PW LW].
  pose proof F64_emin_val as Ev.
  assert (B1 : bounded F64.prec F64.emax 4503599627370496 (-52) = true) by reflexivity.
  assert (M1 : mag_units F64.prec F64.emax 4503599627370496 (-52)
               = 2 ^ (- F64.emin)).
  { unfold mag_units. rewrite Ev. change (Z.pos 4503599627370496) with (2 ^ 52).
    rewrite <- Z.pow_add_r by lia. reflexivity. }
  assert (MR : round_units F64.prec (d * 2 ^ (- F64.emin)) d
               = 2 ^ (- F64.emin)).
  { rewrite (binary64 round_units_ext _ d (1 * 2 ^ (- F64.emin)) 1);
      [|nia|lia|lia|ring].
    rewrite (binary64 round_units_exact); [lia|lia|simpl; change F64.prec with 53; lia|lia]. }
  rewrite MR, <- M1 in M.
  destruct (binary64 mag_inj _ _ _ _ B B1 M) as [-> ->].
  reflexivity.
Qed.

Lemma div_of_Z_le a b d :
  0 <= a <= b -> b < 2 ^ 53 -> 0 < d < 2 ^ 53 ->
  F64.leb (F64.div (F64.of_Z a) (F64.of_Z d)) (F64.div (F64.of_Z b) (F64.of_Z d)) = true.
Proof.
  intros Hab Hb Hd.
  destruct unit_scale_bounds as [PW LW].
  destruct (Z.eq_dec b 0) as [Eb|Nb].
  { assert (a = 0) by lia. subst a b. rewrite div_of_Z_0 by done. reflexivity. }
  destruct (div_of_Z b d ltac:(lia) Hd) as (mb & eb & Eb & Bb & Mb). rewrite Eb.
  destruct (Z.eq_dec a 0) as [Ea|Na].
  { subst a. rewrite div_of_Z_0 by done. reflexivity. }
  destruct (div_of_Z a d ltac:(lia) Hd) as (ma & ea & Ea & Ba & Ma). rewrite Ea.
  rewrite SFleb_finite_mag by done. rewrite Ma, Mb.
  apply Z.leb_le. apply (binary64 round_units_mono); nia.
Qed.

(** ** The calibration from two clicks

    *** Subtraction, and values as rationals *)

Lemma sub_correct x y :
  F64.valid x = true -> F64.valid y = true ->
  F64.is_finite x = true -> F64.is_finite y = true ->
  val_units x <> val_units y ->
  rounds_to F64.prec F64.emax (val_units x - val_units y <? 0)
    (round_units F64.prec (Z.abs (val_units x - val_units y)) 1) (F64.sub x y).
Proof.
  intros Vx Vy Fx Fy Hne.
  destruct x as [sx|sx| |sx mx ex], y as [sy|sy| |sy my ey]; try done.
  - change (bounded F64.prec F64.emax my ey = true) in Vy.
    pose proof (binary64 mag_lt_overflow _ _ Vy) as [P L].
    pose proof (binary64 round_units_mag _ _ Vy) as E.
    change (F64.sub (S754_zero sx) (S754_finite sy my ey))
      with (S754_finite (negb sy) my ey).
    unfold val_units. set (M := mag_units F64.prec F64.emax my ey) in *.
    replace (Z.abs (0 - cond_Zopp sy M)) with M by (destruct sy; unfold cond_Zopp; lia).
    replace (0 - cond_Zopp sy M <? 0) with (negb sy).
    2:{ destruct sy; unfold cond_Zopp, negb; symmetry;
          [apply Z.ltb_ge|apply Z.ltb_lt]; lia. }
    right; left. rewrite E. split; [lia|]. by exists my, ey.
  - change (bounded F64.prec F64.emax mx ex = true) in Vx.
    pose proof (binary64 mag_lt_overflow _ _ Vx) as [P L].
    pose proof (binary64 round_units_mag _ _ Vx) as E.
    change (F64.sub (S754_finite sx mx ex) (S754_zero sy))
      with (S754_finite sx mx ex).
    unfold val_units. set (M := mag_units F64.prec F64.emax mx ex) in *.
    replace (Z.abs (cond_Zopp sx M - 0)) with M by (destruct sx; unfold cond_Zopp; lia).
    replace (cond_Zopp sx M - 0 <? 0) with sx.
    2:{ destruct sx; unfold cond_Zopp; symmetry;
          [apply Z.ltb_lt|apply Z.ltb_ge]; lia. }
    right; left. rewrite E. split; [lia|]. by exists mx, ex.
  - apply (binary64 SFsub_finite_correct); done.
Qed.

Lemma Qpower_units e :
  F64.emin <= e ->
  (Qpower 2 e * inject_Z (2 ^ (- F64.emin)) == inject_Z (2 ^ (e - F64.emin)))%Q.
Proof.
  intros He. pose proof F64_emin_val as Ev.
  rewrite !Zpower_Qpower by lia.
  change (inject_Z 2) with 2%Q.
  rewrite <- Qpower_plus by (unfold Qeq; simpl; lia).
  replace (e + - F64.emin) with (e - F64.emin) by lia. reflexivity.
Qed.

(** A float counted in units is its rational value times [2 ^ 1074]. *)
Lemma to_Q_units x :
  F64.valid x = true ->
  (to_Q x * inject_Z (2 ^ (- F64.emin)) == inject_Z (val_units x))%Q.
Proof.
  intros V. destruct x as [s|s| |s m e]; try apply Qmult_0_l.
  change (bounded F64.prec F64.emax m e = true) in V.
  destruct (binary64 bounded_spec _ _ V) as (_ & He & _).
  unfold to_Q, val_units, mag_units.
  rewrite <- Qmult_assoc, Qpower_units by lia.
  rewrite <- inject_Z_mult.
  assert (cond_Zopp s (Z.pos m) * 2 ^ (e - F64.emin)
          = cond_Zopp s (Z.pos m * 2 ^ (e - F64.emin))) as ->
    by (destruct s; unfold cond_Zopp; lia).
  reflexivity.
Qed.

Lemma Qabs_scale (a w : Q) : (0 < w)%Q -> (Qabs a * w == Qabs (a * w))%Q.
Proof.
  intros Hw. rewrite Qabs_Qmult, (Qabs_pos w); [reflexivity|]. by apply Qlt_le_weak.
Qed.

Lemma inject_Z_pos z : 0 < z -> (0 < inject_Z z)%Q.
Proof. intros H. unfold Qlt. simpl. lia. Qed.

Lemma Q_rel_le (z K : Z) (t : positive) :
  Z.pos t * Z.abs z <= K -> (Qabs (inject_Z z) <= (1 # t) * inject_Z K)%Q.
Proof. intros H. unfold Qle. simpl. lia. Qed.

Lemma Qabs_units (q : Q) (z W : Z) :
  0 < W -> (q * inject_Z W == inject_Z z)%Q ->
  (Qabs q * inject_Z W == inject_Z (Z.abs z))%Q.
Proof.
  intros HW H. rewrite Qabs_scale by by apply inject_Z_pos.
  rewrite H. reflexivity.
Qed.

Lemma Qle_units (a b : Q) (za zb W : Z) :
  0 < W -> (a * inject_Z W == inject_Z za)%Q -> (b * inject_Z W == inject_Z zb)%Q ->
  (a <= b)%Q -> za <= zb.
Proof.
  intros HW Ha Hb Hab. rewrite Zle_Qle, <- Ha, <- Hb.
  apply Qmult_le_compat_r; [done|]. apply Qlt_le_weak. by apply inject_Z_pos.
Qed.

Lemma quotient_form (k nm D eps : Q) :
  (0 < D)%Q ->
  (Qabs (nm * D - k) <= eps * k)%Q ->
  (Qabs (nm - k / D) <= eps * (k / D))%Q.
Proof.
  intros HD H.
  apply (Qmult_le_r _ _ D HD).
  rewrite Qabs_scale by done.
  assert (E1 : ((nm - k / D) * D == nm * D - k)%Q).
  { field. intros E. rewrite E in HD. by apply Qlt_irrefl in HD. }
  assert (E2 : (eps * (k / D) * D == eps * k)%Q).
  { field. intros E. rewrite E in HD. by apply Qlt_irrefl in HD. }
  rewrite E1, E2. exact H.
Qed.

(** *** The distance and the quotient, in units

    For two positions at most [2 ^ 1000] from the origin and at least
    [2 ^ -1000] apart, neither the difference nor the quotient leaves the
    range of the normal numbers: each is rounded once, by at most half a
    unit in the last place. *)
Lemma calibration_units x0 x1 :
  F64.valid x0 = true -> F64.valid x1 = true ->
  F64.is_finite x0 = true -> F64.is_finite x1 = true ->
  Z.abs (val_units x0) <= 2 ^ 1000 * 2 ^ (- F64.emin) ->
  Z.abs (val_units x1) <= 2 ^ 1000 * 2 ^ (- F64.emin) ->
  2 ^ 74 <= Z.abs (val_units x1 - val_units x0) ->
  exists md ed m e,
    F64.abs (F64.sub x1 x0) = S754_finite false md ed /\
    bounded F64.prec F64.emax md ed = true /\
    F64.div (F64.of_Z (1000 * 8 * 10)) (S754_finite false md ed)
      = S754_finite false m e /\
    bounded F64.prec F64.emax m e = true /\
    2 ^ 53 * Z.abs (mag_units F64.prec F64.emax md ed
                    - Z.abs (val_units x1 - val_units x0))
      <= Z.abs (val_units x1 - val_units x0) /\
    2 ^ 51 * Z.abs (mag_units F64.prec F64.emax m e
                      * Z.abs (val_units x1 - val_units x0)
                    - 80000 * 2 ^ (- F64.emin) * 2 ^ (- F64.emin))
      <= 80000 * 2 ^ (- F64.emin) * 2 ^ (- F64.emin).
Proof.
  intros V0 V1 F0 F1 B0 B1 HD.
  pose proof F64_emin_val as Ev.
  destruct unit_scale_bounds as [PW _].
  assert (HW : 2 ^ (- F64.emin) = 2 ^ 74 * 2 ^ 1000).
  { rewrite <- Z.pow_add_r by lia. f_equal; lia. }
  assert (Hover : 2 ^ (F64.emax - F64.emin) = 2 ^ 24 * (2 ^ 1000 * 2 ^ (- F64.emin))).
  { rewrite <- !Z.pow_add_r by lia. change F64.emax with 1024. f_equal; lia. }
  assert (Hdig : 2 ^ (1003 + - F64.emin) = 2 ^ 3 * (2 ^ 1000 * 2 ^ (- F64.emin))).
  { rewrite <- !Z.pow_add_r by lia. f_equal; lia. }
  assert (PP : 0 < 2 ^ 1000) by (apply Z.pow_pos_nonneg; lia).
  assert (Hne : val_units x1 <> val_units x0) by lia.
  pose proof (sub_correct x1 x0 V1 V0 F1 F0 Hne) as C1.
  pose proof (binary64 round_units_rel (Z.abs (val_units x1 - val_units x0)) 1
                ltac:(lia)) as R1.
  remember (Z.abs (val_units x1 - val_units x0)) as Δ eqn:EΔ.
  set (W := 2 ^ (- F64.emin)) in *. set (P := 2 ^ 1000) in *.
  assert (HPW : 0 < P * W) by (apply Z.mul_pos_pos; lia).
  assert (HWW : W * W = 2 ^ 74 * (P * W)) by (rewrite HW at 1; ring).
  set (dM := round_units F64.prec Δ 1) in *.
  specialize (R1 ltac:(change (F64.prec - 1) with 52; lia)).
  change (2 ^ F64.prec) with (2 ^ 53) in R1. rewrite Z.mul_1_l in R1.
  destruct C1 as [[C0 _]|[(_ & md & ed & Es & Bd & Md)|[C0 _]]]; [lia| |lia].
  (* the quotient *)
  destruct (of_Z_small (1000 * 8 * 10) ltac:(lia)) as (mk & ek & Ek & Bk & Mk & Dk).
  change (Zdigits2 (1000 * 8 * 10)) with 17 in Dk. fold W in Mk.
  pose proof (binary64 SFdiv_correct false mk ek false md ed Bk Bd) as C2.
  rewrite Mk, Md in C2. fold W in C2.
  assert (HdM : Zdigits2 dM = Zdigits2 (Z.pos md) + (ed - F64.emin)).
  { rewrite <- Md. unfold mag_units. apply Zdigits2_mul_pow2; [lia|].
    destruct (binary64 bounded_spec _ _ Bd) as (_ & He & _). lia. }
  assert (HdM' : Zdigits2 dM <= 1003 + - F64.emin) by (apply Zdigits2_le; lia).
  specialize (C2 ltac:(rewrite Ev; change F64.prec with 53; lia)).
  cbv beta iota delta [xorb] in C2.
  pose proof (binary64 round_units_rel (1000 * 8 * 10 * W * W) dM ltac:(lia)) as R2.
  pose proof (binary64 round_units_pos (1000 * 8 * 10 * W * W) dM ltac:(lia) ltac:(lia))
    as Rpos.
  set (R := round_units F64.prec (1000 * 8 * 10 * W * W) dM) in *.
  specialize (R2 ltac:(change (F64.prec - 1) with 52; lia)).
  change (2 ^ F64.prec) with (2 ^ 53) in R2.
  assert (Rlt : R < 2 ^ (F64.emax - F64.emin)).
  { assert (S0 : P * 2 ^ 74 <= P * (2 * dM))
      by (apply Z.mul_le_mono_nonneg_l; lia).
    assert (S1 : W * R <= 2 * P * dM * R)
      by (apply Z.mul_le_mono_nonneg_r; lia).
    assert (S2 : 2 * P * (dM * R) <= 2 * P * (2 * (1000 * 8 * 10 * W * W)))
      by (apply Z.mul_le_mono_nonneg_l; lia).
    assert (S3 : W * R <= W * (320000 * (P * W))) by lia.
    apply Z.mul_le_mono_pos_l in S3; lia. }
  destruct C2 as [[C0 _]|[(_ & m & e & E2 & B2 & M2)|[C0 _]]]; [lia| |lia].
  exists md, ed, m, e.
  split; [unfold F64.abs; rewrite Es; reflexivity|].
  split; [exact Bd|]. split; [rewrite Ek; exact E2|]. split; [exact B2|].
  rewrite Md, M2. split; [exact R1|].
  assert (S4 : 2 ^ 53 * Z.abs (dM * R - R * Δ) <= R * Δ).
  { replace (dM * R - R * Δ) with (R * (dM - Δ)) by ring.
    rewrite Z.abs_mul, (Z.abs_eq R) by lia.
    apply (Z.mul_le_mono_nonneg_l _ _ R) in R1; lia. }
  lia.
Qed.

(** C1: for two clicks at distinct x-positions (not more than [2 ^ 1000]
    from the origin, not less than [2 ^ -1000] apart, so that nothing
    overflows) the measured distance is [|x1 - x0|] and the calibration is
    [1000 * 8 * 10 / |x1 - x0|], as rational numbers and up to the rounding
    of binary64: a relative error of at most [2 ^ -53] for the distance and
    [2 ^ -51] for the calibration.  The data-cursor variant is
    [1000 * 8 * 10 / (1299 - 62)] up to [2 ^ -53]. *)
Theorem nm_per_pixel_formula (c0 c1 : click) :
  F64.valid (fst c0) = true -> F64.valid (fst c1) = true ->
  F64.is_finite (fst c0) = true -> F64.is_finite (fst c1) = true ->
  (Qabs (to_Q (fst c0)) <= 2 ^ 1000)%Q ->
  (Qabs (to_Q (fst c1)) <= 2 ^ 1000)%Q ->
  (2 ^ (-1000) <= Qabs (to_Q (fst c1) - to_Q (fst c0)))%Q ->
  (exists d nm,
     pixels_between_lines [c0; c1] = Ok d /\
     nm_per_pixel [c0; c1] = Ok nm /\
     F64.is_finite d = true /\ F64.is_finite nm = true /\
     (Qabs (to_Q d - Qabs (to_Q (fst c1) - to_Q (fst c0)))
        <= 2 ^ (-53) * Qabs (to_Q (fst c1) - to_Q (fst c0)))%Q /\
     (Qabs (to_Q nm - 1000 * 8 * 10 / Qabs (to_Q (fst c1) - to_Q (fst c0)))
        <= 2 ^ (-51) * (1000 * 8 * 10 / Qabs (to_Q (fst c1) - to_Q (fst c0))))%Q) /\
  (exists v,
     nm_per_pixel_cursor = Ok v /\
     (Qabs (to_Q v - 1000 * 8 * 10 / inject_Z (1299 - 62))
        <= 2 ^ (-53) * (1000 * 8 * 10 / inject_Z (1299 - 62)))%Q).
Proof.
  intros V0 V1 F0 F1 B0 B1 HD. split.
  2:{ exists (S754_finite false 4550929292007373 (-46)).
      split; [vm_compute; reflexivity|].
      apply Qle_bool_iff. vm_compute. reflexivity. }
  destruct unit_scale_bounds as [PW _].
  pose proof (to_Q_units _ V0) as U0. pose proof (to_Q_units _ V1) as U1.
  assert (E74 : (2 ^ (-1000) * inject_Z (2 ^ (- F64.emin)) == inject_Z (2 ^ 74))%Q)
    by (vm_compute; reflexivity).
  assert (E1000 : (2 ^ 1000 * inject_Z (2 ^ (- F64.emin))
                   == inject_Z (2 ^ 1000 * 2 ^ (- F64.emin)))%Q).
  { rewrite inject_Z_mult, (Zpower_Qpower 2 1000) by lia. reflexivity. }
  set (W := 2 ^ (- F64.emin)) in *.
  assert (Hw : (0 < inject_Z W)%Q) by by apply inject_Z_pos.
  assert (UD : ((to_Q (fst c1) - to_Q (fst c0)) * inject_Z W
                == inject_Z (val_units (fst c1) - val_units (fst c0)))%Q).
  { unfold Z.sub. rewrite inject_Z_plus, inject_Z_opp, <- U1, <- U0. ring. }
  pose proof (Qabs_units _ _ _ PW UD) as UΔ.
  pose proof (Qle_units _ _ _ _ _ PW (Qabs_units _ _ _ PW U0) E1000 B0) as B0z.
  pose proof (Qle_units _ _ _ _ _ PW (Qabs_units _ _ _ PW U1) E1000 B1) as B1z.
  pose proof (Qle_units _ _ _ _ _ PW E74 UΔ HD) as HDz.
  destruct (calibration_units (fst c0) (fst c1) V0 V1 F0 F1 B0z B1z HDz)
    as (md & ed & m & e & Ed & Bd & Enm & Bn & R1 & R2).
  fold W in R2.
  set (D := Qabs (to_Q (fst c1) - to_Q (fst c0))) in *.
  set (Δ := Z.abs (val_units (fst c1) - val_units (fst c0))) in *.
  assert (HΔ : 0 < Δ) by lia.
  pose proof (to_Q_units (S754_finite false md ed) Bd) as Ud.
  pose proof (to_Q_units (S754_finite false m e) Bn) as Un.
  change (val_units (S754_finite false md ed))
    with (mag_units F64.prec F64.emax md ed) in Ud.
  change (val_units (S754_finite false m e))
    with (mag_units F64.prec F64.emax m e) in Un.
  fold W in Ud, Un.
  set (dM := mag_units F64.prec F64.emax md ed) in *.
  set (R := mag_units F64.prec F64.emax m e) in *.
  assert (HDpos : (0 < D)%Q).
  { apply (Qmult_lt_r _ _ (inject_Z W) Hw). rewrite Qmult_0_l, UΔ.
    by apply inject_Z_pos. }
  exists (S754_finite false md ed), (S754_finite false m e).
  assert (EP : pixels_between_lines [c0; c1] = Ok (S754_finite false md ed)).
  { change (pixels_between_lines [c0; c1])
      with (Ok (A := float) (F64.abs (F64.sub (fst c1) (fst c0)))).
    by rewrite Ed. }
  split; [exact EP|]. split.
  { unfold nm_per_pixel. rewrite EP. cbv beta iota delta [result_bind].
    unfold float64_truediv. by rewrite known_distance_nm_exact, Enm. }
  split; [reflexivity|]. split; [reflexivity|]. split.
  - apply (Qmult_le_r _ _ (inject_Z W) Hw).
    rewrite Qabs_scale by done.
    assert (E : ((to_Q (S754_finite false md ed) - D) * inject_Z W
                 == inject_Z (dM - Δ))%Q).
    { unfold Z.sub. rewrite inject_Z_plus, inject_Z_opp, <- Ud, <- UΔ. ring. }
    rewrite E, <- Qmult_assoc, UΔ.
    change (2 ^ (-53))%Q with (1 # 9007199254740992)%Q.
    apply Q_rel_le. lia.
  - apply quotient_form; [exact HDpos|].
    assert (Hww : (0 < inject_Z W * inject_Z W)%Q).
    { rewrite <- (Qmult_0_l (inject_Z W)). by apply Qmult_lt_r. }
    apply (Qmult_le_r _ _ (inject_Z W * inject_Z W) Hww).
    rewrite Qabs_scale by done.
    assert (EK : (1000 * 8 * 10 * (inject_Z W * inject_Z W)
                  == inject_Z (80000 * W * W))%Q).
    { rewrite !inject_Z_mult. change (inject_Z 80000) with 80000%Q. ring. }
    assert (E : ((to_Q (S754_finite false m e) * D - 1000 * 8 * 10)
                   * (inject_Z W * inject_Z W)
                 == inject_Z (R * Δ - 80000 * W * W))%Q).
    { unfold Z.sub. rewrite inject_Z_plus, inject_Z_opp, <- EK.
      rewrite inject_Z_mult, <- Un, <- UΔ. ring. }
    rewrite E, <- Qmult_assoc, EK.
    change (2 ^ (-51))%Q with (1 # 2251799813685248)%Q.
    apply Q_rel_le. lia.
Qed.

Lemma nm_per_pixel_formula_witness :
  exists d nm,
    pixels_between_lines
      [(S754_finite false 8760908650119168 (-47), F64.of_Z 300);
       (S754_finite false 5715261441179648 (-42), F64.of_Z 310)] = Ok d /\
    nm_per_pixel
      [(S754_finite false 8760908650119168 (-47), F64.of_Z 300);
       (S754_finite false 5715261441179648 (-42), F64.of_Z 310)] = Ok nm /\
    (Qabs (to_Q d - (494900 # 400)) <= 2 ^ (-53) * (494900 # 400))%Q /\
    (Qabs (to_Q nm - 1000 * 8 * 10 / (494900 # 400))
       <= 2 ^ (-51) * (1000 * 8 * 10 / (494900 # 400)))%Q.
Proof.
  destruct (nm_per_pixel_formula
              (S754_finite false 8760908650119168 (-47), F64.of_Z 300)
              (S754_finite false 5715261441179648 (-42), F64.of_Z 310))
    as [(d & nm & Hd & Hnm & _ & _ & Qd & Qnm) _].
  - reflexivity.
  - reflexivity.
  - reflexivity.
  - reflexivity.
  - apply Qle_bool_iff. vm_compute. reflexivity.
  - apply Qle_bool_iff. vm_compute. reflexivity.
  - apply Qle_bool_iff. vm_compute. reflexivity.
  - exists d, nm. split; [exact Hd|]. split; [exact Hnm|].
    assert (E : (Qabs (to_Q (S754_finite false 5715261441179648 (-42))
                       - to_Q (S754_finite false 8760908650119168 (-47)))
                 == 494900 # 400)%Q) by (vm_compute; reflexivity).
    simpl fst in Qd, Qnm. rewrite E in Qd, Qnm. split; [exact Qd|exact Qnm].
Defined.

(** ** Normalisation *)

Lemma foldr_min_spec (x : Z) (l : list Z) :
  foldr Z.min x l ∈ x :: l /\ forall y, y ∈ x :: l -> foldr Z.min x l <= y.
Proof.
  induction l as [|z l [IHin IHle]]; simpl.
  - split; [apply list_elem_of_here|]. intros y Hy. apply list_elem_of_singleton in Hy. lia.
  - split.
    + destruct (Z.min_spec z (foldr Z.min x l)) as [[_ ->]|[_ ->]].
      * apply list_elem_of_further, list_elem_of_here.
      * apply elem_of_cons in IHin as [->|Hin];
          [apply list_elem_of_here|by do 2 apply list_elem_of_further].
    + intros y Hy. apply elem_of_cons in Hy as [->|Hy].
      * specialize (IHle x (list_elem_of_here _ _)). lia.
      * apply elem_of_cons in Hy as [->|Hy]; [lia|].
        specialize (IHle y (list_elem_of_further _ _ _ Hy)). lia.
Qed.

Lemma foldr_max_spec (x : Z) (l : list Z) :
  foldr Z.max x l ∈ x :: l /\ forall y, y ∈ x :: l -> y <= foldr Z.max x l.
Proof.
  induction l as [|z l [IHin IHle]]; simpl.
  - split; [apply list_elem_of_here|]. intros y Hy. apply list_elem_of_singleton in Hy. lia.
  - split.
    + destruct (Z.max_spec z (foldr Z.max x l)) as [[_ ->]|[_ ->]].
      * apply elem_of_cons in IHin as [->|Hin];
          [apply list_elem_of_here|by do 2 apply list_elem_of_further].
      * apply list_elem_of_further, list_elem_of_here.
    + intros y Hy. apply elem_of_cons in Hy as [->|Hy].
      * specialize (IHle x (list_elem_of_here _ _)). lia.
      * apply elem_of_cons in Hy as [->|Hy]; [lia|].
        specialize (IHle y (list_elem_of_further _ _ _ Hy)). lia.
Qed.

Lemma np_min_spec (g : grid Z) (lo : Z) :
  np_min g = Ok lo -> lo ∈ concat g /\ forall x, x ∈ concat g -> lo <= x.
Proof.
  unfold np_min, reduce. destruct (concat g) as [|x l]; [done|].
  intros [= <-]. apply foldr_min_spec.
Qed.

Lemma np_max_spec (g : grid Z) (hi : Z) :
  np_max g = Ok hi -> hi ∈ concat g /\ forall x, x ∈ concat g -> x <= hi.
Proof.
  unfold np_max, reduce. destruct (concat g) as [|x l]; [done|].
  intros [= <-]. apply foldr_max_spec.
Qed.

Lemma elem_of_concat_pixel {A : Type} (g : grid A) (x : A) :
  x ∈ concat g <-> exists i j, pixel g i j = Some x.
Proof.
  rewrite list_elem_of_In, in_concat. unfold pixel. split.
  - intros (row & Hrow & Hx).
    apply list_elem_of_In, list_elem_of_lookup in Hrow as [i Hi].
    apply list_elem_of_In, list_elem_of_lookup in Hx as [j Hj].
    exists i, j. rewrite Hi. done.
  - intros (i & j & H). destruct (g !! i) as [row|] eqn:Hi; [|done].
    exists row. split; apply list_elem_of_In, list_elem_of_lookup; eauto.
Qed.

Lemma pixel_elementwise {A B : Type} (f : A -> B) (g : grid A) i j :
  pixel (elementwise f g) i j = f <$> pixel g i j.
Proof.
  unfold pixel, elementwise. rewrite list_lookup_fmap.
  destruct (g !! i) as [row|]; [|done]. simpl. apply list_lookup_fmap.
Qed.

Lemma shape_elementwise {A B : Type} (f : A -> B) (g : grid A) :
  nrows (elementwise f g) = nrows g /\
  forall i, length <$> elementwise f g !! i = length <$> g !! i.
Proof.
  unfold nrows, elementwise. split; [apply length_fmap|].
  intros i. rewrite list_lookup_fmap. destruct (g !! i); [|done].
  simpl. by rewrite length_fmap.
Qed.

Lemma elementwise_ext {A B : Type} (f h : A -> B) (g : grid A) :
  (forall x, x ∈ concat g -> f x = h x) -> elementwise f g = elementwise h g.
Proof.
  intros H. unfold elementwise.
  apply list_eq. intros i. rewrite !list_lookup_fmap.
  destruct (g !! i) as [row|] eqn:Hi; [|done]. simpl. f_equal.
  apply list_eq. intros j. rewrite !list_lookup_fmap.
  destruct (row !! j) as [x|] eqn:Hj; [|done]. simpl. f_equal.
  apply H. apply elem_of_concat_pixel. exists i, j. unfold pixel. by rewrite Hi.
Qed.

Lemma elementwise_elementwise {A B C : Type} (f : B -> C) (h : A -> B) (g : grid A) :
  elementwise f (elementwise h g) = elementwise (fun x => f (h x)) g.
Proof.
  unfold elementwise. rewrite <- list_fmap_compose.
  apply list_fmap_ext. intros _ row _. simpl. by rewrite <- list_fmap_compose.
Qed.

Lemma wrap16_small z : 0 <= z <= uint16_max -> wrap16 z = z.
Proof. unfold wrap16, uint16_max. intros H. apply Z.mod_small. lia. Qed.

Lemma uint16_grid_elem (g : grid Z) (x : Z) :
  uint16_grid g -> x ∈ concat g -> 0 <= x <= uint16_max.
Proof.
  unfold uint16_grid. intros U Hx.
  apply elem_of_concat_pixel in Hx as (i & j & Hp). unfold pixel in Hp.
  destruct (g !! i) as [row|] eqn:Hi; [|done]. simpl in Hp.
  rewrite Forall_lookup in U. specialize (U i row Hi).
  rewrite Forall_lookup in U. apply (U j x Hp).
Qed.

(** C2: when the brightest sample exceeds the dimmest, the normalised
    picture has the shape of the input, each value is the binary64 quotient
    [(x - min) / (max - min)], the dimmest sample maps to 0.0 and the
    brightest to 1.0 exactly, all values lie between them, and the order of
    the samples is preserved. *)
Theorem normalize_spec (ecoli : grid Z) (lo hi : Z) :
  uint16_grid ecoli -> np_min ecoli = Ok lo -> np_max ecoli = Ok hi -> lo < hi ->
  exists out,
    normalize ecoli = Ok out /\
    nrows out = nrows ecoli /\
    (forall i, length <$> out !! i = length <$> ecoli !! i) /\
    (forall i j, pixel out i j
       = (fun x => F64.div (F64.of_Z (x - lo)) (F64.of_Z (hi - lo))) <$> pixel ecoli i j) /\
    (exists i j, pixel out i j = Some F64.zero) /\
    (exists i j, pixel out i j = Some F64.one) /\
    (forall i j v, pixel out i j = Some v ->
       F64.leb F64.zero v = true /\ F64.leb v F64.one = true) /\
    (forall i j i' j' x x' v v',
       pixel ecoli i j = Some x -> pixel ecoli i' j' = Some x' ->
       pixel out i j = Some v -> pixel out i' j' = Some v' ->
       x <= x' -> F64.leb v v' = true).
Proof.
  intros U Hmin Hmax Hlt.
  destruct (np_min_spec _ _ Hmin) as [Hlo_in Hlo].
  destruct (np_max_spec _ _ Hmax) as [Hhi_in Hhi].
  pose proof (uint16_grid_elem _ _ U Hlo_in) as Blo.
  pose proof (uint16_grid_elem _ _ U Hhi_in) as Bhi.
  unfold uint16_max in *.
  assert (Hd : 0 < hi - lo < 2 ^ 53) by lia.
  set (q := fun x => F64.div (F64.of_Z (x - lo)) (F64.of_Z (hi - lo))).
  assert (Eout : normalize ecoli = Ok (elementwise q ecoli)).
  { unfold normalize. rewrite Hmin, Hmax. simpl. f_equal.
    unfold np_true_divide, np_subtract. rewrite elementwise_elementwise.
    apply elementwise_ext. intros x Hx. unfold q.
    pose proof (uint16_grid_elem _ _ U Hx). specialize (Hlo x Hx).
    rewrite !wrap16_small by (unfold uint16_max in *; lia). done. }
  assert (Hrange : forall x, x ∈ concat ecoli -> 0 <= x - lo <= hi - lo).
  { intros x Hx. specialize (Hlo x Hx). specialize (Hhi x Hx). lia. }
  assert (Hq_le : forall x x', x ∈ concat ecoli -> x' ∈ concat ecoli -> x <= x' ->
                    F64.leb (q x) (q x') = true).
  { intros x x' Hx Hx' Hle. unfold q.
    pose proof (Hrange x Hx). pose proof (Hrange x' Hx').
    apply div_of_Z_le; lia. }
  assert (Hq_lo : q lo = F64.zero).
  { unfold q. rewrite Z.sub_diag. by apply div_of_Z_0. }
  assert (Hq_hi : q hi = F64.one).
  { unfold q. by apply div_of_Z_self. }
  exists (elementwise q ecoli).
  split; [done|]. split; [apply shape_elementwise|]. split; [apply shape_elementwise|].
  split; [intros i j; apply pixel_elementwise|].
  split.
  { apply elem_of_concat_pixel in Hlo_in as (i & j & Hp).
    exists i, j. by rewrite pixel_elementwise, Hp, <- Hq_lo. }
  split.
  { apply elem_of_concat_pixel in Hhi_in as (i & j & Hp).
    exists i, j. by rewrite pixel_elementwise, Hp, <- Hq_hi. }
  split.
  - intros i j v. rewrite pixel_elementwise.
    destruct (pixel ecoli i j) as [x|] eqn:Hp; [|done]. intros [= <-].
    assert (Hx : x ∈ concat ecoli) by (apply elem_of_concat_pixel; eauto).
    rewrite <- Hq_lo, <- Hq_hi. split; apply Hq_le; try done.
    + by apply Hlo.
    + by apply Hhi.
  - intros i j i' j' x x' v v' Hp Hp'. rewrite !pixel_elementwise, Hp, Hp'.
    intros [= <-] [= <-] Hle.
    apply Hq_le; try done; apply elem_of_concat_pixel; eauto.
Qed.

Lemma normalize_spec_witness :
  exists out, normalize [[3; 7]; [5; 7]] = Ok out /\ pixel out 1 0 = Some (F64.div (F64.of_Z 1) (F64.of_Z 2)).
Proof.
  destruct (normalize_spec [[3; 7]; [5; 7]] 3 7) as (out & E & _ & _ & P & _).
  - repeat constructor; unfold uint16_max; lia.
  - reflexivity.
  - reflexivity.
  - lia.
  - exists out. split; [done|]. rewrite P. vm_compute. reflexivity.
Defined.

(** C4, as the code has it: on a constant picture nothing is raised and
    nothing is left as it was; every normalised sample is NaN. *)
Theorem normalize_constant (ecoli : grid Z) (c : Z) :
  np_min ecoli = Ok c -> np_max ecoli = Ok c ->
  normalize ecoli = Ok (elementwise (fun _ => S754_nan) ecoli).
Proof.
  intros Hmin Hmax.
  destruct (np_min_spec _ _ Hmin) as [_ Hlo].
  destruct (np_max_spec _ _ Hmax) as [_ Hhi].
  unfold normalize. rewrite Hmin, Hmax. simpl. f_equal.
  unfold np_true_divide, np_subtract. rewrite elementwise_elementwise.
  apply elementwise_ext. intros x Hx.
  assert (x = c) as -> by (specialize (Hlo x Hx); specialize (Hhi x Hx); lia).
  rewrite Z.sub_diag. reflexivity.
Qed.

Lemma normalize_constant_witness :
  normalize [[7; 7]; [7; 7]] = Ok [[S754_nan; S754_nan]; [S754_nan; S754_nan]].
Proof.
  apply (normalize_constant [[7; 7]; [7; 7]] 7); reflexivity.
Defined.

(** C4, as stated, fails: a constant picture is normalised to NaN without
    any exception, and the script runs to its end. *)
Lemma normalize_constant_silent :
  normalize [[7; 7]; [7; 7]] = Ok [[S754_nan; S754_nan]; [S754_nan; S754_nan]] /\
  fst (EColiSize (repeat (repeat 100 11%nat) 401%nat) [[7; 7]; [7; 7]]
         [(F64.of_Z 62, F64.of_Z 5); (F64.of_Z 1299, F64.of_Z 9)] ∅)
  = Ok (1%nat, 2%nat).
Proof. split; vm_compute; reflexivity. Qed.

(** ** Offsets of the ticks *)

Lemma py_int_finite m e :
  bounded F64.prec F64.emax m e = true ->
  py_int (S754_finite false m e)
  = Ok (mag_units F64.prec F64.emax m e / 2 ^ (- F64.emin)).
Proof.
  intros B. destruct (binary64 bounded_spec _ _ B) as (_ & He & _).
  simpl. rewrite (binary64 shiftl_mag) by lia. reflexivity.
Qed.

(** The product of a small integer and a positive finite float is the
    rounding of the exact product. *)
Lemma mul_of_Z L m e :
  0 < L < 2 ^ 53 -> bounded F64.prec F64.emax m e = true ->
  rounds_to F64.prec F64.emax false
    (round_units F64.prec (L * mag_units F64.prec F64.emax m e) 1)
    (F64.mul (F64.of_Z L) (S754_finite false m e)).
Proof.
  intros HL B.
  destruct (of_Z_small L HL) as (mL & eL & -> & BL & ML & _).
  destruct unit_scale_bounds as [PW _].
  pose proof (binary64 mag_lt_overflow _ _ B) as [Mpos _].
  pose proof (binary64 SFmul_correct false mL eL false m e BL B) as C.
  rewrite ML in C.
  rewrite (binary64 round_units_ext _ _ (L * mag_units F64.prec F64.emax m e) 1) in C;
    [done|nia|lia|lia|ring].
Qed.

Lemma mul_1_finite m e :
  bounded F64.prec F64.emax m e = true ->
  F64.mul (F64.of_Z 1) (S754_finite false m e) = S754_finite false m e.
Proof.
  intros B.
  pose proof (mul_of_Z 1 m e ltac:(lia) B) as C.
  rewrite Z.mul_1_l, (binary64 round_units_mag) in C by done.
  pose proof (binary64 mag_lt_overflow _ _ B) as [Mpos Mlt].
  destruct C as [[C0 _]|[(_ & m' & e' & -> & B' & M')|[C0 _]]]; [lia| |lia].
  by destruct (binary64 mag_inj _ _ _ _ B' B M') as [-> ->].
Qed.

Lemma positive_finite (s : float) :
  F64.valid s = true -> F64.is_finite s = true -> F64.ltb F64.zero s = true ->
  exists m e, s = S754_finite false m e /\ bounded F64.prec F64.emax m e = true.
Proof.
  intros V F P. destruct s as [sg|sg| |sg m e]; try done.
  destruct sg; [done|]. by exists m, e.
Qed.

(** C5, as the code has it: each offset is the integer part of the float
    product of the tick length and the bar length; the offsets never
    decrease with the tick length, they increase strictly once the bar
    length is at least one pixel, and a product that overflows makes
    [int] raise. *)
Theorem scale_bar_offset_spec (length_px : float) :
  F64.valid length_px = true -> F64.is_finite length_px = true ->
  F64.ltb F64.zero length_px = true ->
  (F64.mul (F64.of_Z 10) length_px = S754_infinity false /\
   scale_bar_offset length_px = Raise OverflowError) \/
  exists o1 o5 o10,
    scale_bar_offset length_px = Ok (<["10" := o10]> (<["5" := o5]> (<["1" := o1]> ∅))) /\
    py_int (F64.mul (F64.of_Z 1) length_px) = Ok o1 /\
    py_int (F64.mul (F64.of_Z 5) length_px) = Ok o5 /\
    py_int (F64.mul (F64.of_Z 10) length_px) = Ok o10 /\
    0 <= o1 <= o5 /\ o5 <= o10 /\
    (F64.leb F64.one length_px = true -> o1 < o5 < o10).
Proof.
  intros V F P.
  destruct (positive_finite _ V F P) as (m & e & -> & B).
  destruct unit_scale_bounds as [PW LW].
  pose proof (binary64 mag_lt_overflow _ _ B) as [Mpos Mlt].
  pose proof (mul_of_Z 5 m e ltac:(lia) B) as C5.
  pose proof (mul_of_Z 10 m e ltac:(lia) B) as C10.
  set (W := 2 ^ (- F64.emin)) in *.
  set (U := mag_units F64.prec F64.emax m e) in *.
  set (R5 := round_units F64.prec (5 * U) 1) in *.
  set (R10 := round_units F64.prec (10 * U) 1) in *.
  assert (E1 : round_units F64.prec U 1 = U) by apply (binary64 round_units_mag m e B).
  assert (H15 : U <= R5).
  { rewrite <- E1 at 1. unfold R5. apply (binary64 round_units_mono); lia. }
  assert (H510 : R5 <= R10) by (unfold R5, R10; apply (binary64 round_units_mono); lia).
  unfold scale_bar_offset. rewrite (py_int_finite m e B). fold U W. cbv beta iota delta [result_bind].
  rewrite (mul_1_finite m e B), (py_int_finite m e B). fold U W.
  destruct C10 as [[C0 _]|[(Hfin10 & m10 & e10 & E10 & B10 & M10)|[_ E10]]]; [lia| |].
  2:{ left. split; [done|]. rewrite E10.
      destruct (F64.mul (F64.of_Z 5) (S754_finite false m e)) as [| | |s5 m5 e5];
        try reflexivity.
      destruct C5 as [[_ [=]]|[(_ & ? & ? & [=] & _)|[_ [=]]]]. }
  destruct C5 as [[C0 _]|[(Hfin5 & m5 & e5 & E5 & B5 & M5)|[Hinf5 _]]]; [lia| |lia].
  right. rewrite E5, E10, (py_int_finite m5 e5 B5), (py_int_finite m10 e10 B10).
  rewrite M5, M10. cbv beta iota delta [result_bind].
  exists (U / W), (R5 / W), (R10 / W).
  split; [done|]. split; [done|]. split; [done|]. split; [done|].
  split; [split; [apply Z.div_pos; lia|apply Z.div_le_mono; lia]|].
  split; [apply Z.div_le_mono; lia|].
  intros Hone. rewrite one_finite in Hone.
  rewrite SFleb_finite_mag in Hone by done. apply Z.leb_le in Hone.
  assert (M1 : mag_units F64.prec F64.emax 4503599627370496 (-52) = W).
  { unfold mag_units, W. rewrite F64_emin_val.
    change (Z.pos 4503599627370496) with (2 ^ 52).
    rewrite <- Z.pow_add_r by lia. reflexivity. }
  rewrite M1 in Hone.
  (* one pixel or more: 5 x is at least 2 x, and 10 x rounds to twice 5 x *)
  assert (H2 : 2 * U <= R5).
  { assert (E2 : round_units F64.prec (2 * U) 1 = 2 * U).
    { destruct (binary64 bounded_spec _ _ B) as (Dm & He & _).
      unfold U, mag_units.
      replace (2 * (Z.pos m * 2 ^ (e - F64.emin)))
        with (Z.pos m * 2 ^ (e - F64.emin + 1)).
      - apply (binary64 round_units_exact); lia.
      - rewrite Z.pow_add_r by lia. change (2 ^ 1) with 2. ring. }
    rewrite <- E2. apply (binary64 round_units_mono); lia. }
  assert (H10 : R10 = 2 * R5).
  { unfold R10, R5. replace (10 * U) with (2 * (5 * U)) by ring.
    apply (binary64 round_units_double); [lia|].
    change F64.prec with 53. change (2 ^ (53 - 1)) with (2 ^ 52).
    assert (2 ^ 52 <= 2 ^ 53) by (apply Z.pow_le_mono_r; lia). lia. }
  assert (Hq1 : 1 <= U / W) by (apply Z.div_le_lower_bound; lia).
  assert (Hq5 : 2 * (U / W) <= R5 / W).
  { apply Z.div_le_lower_bound; [lia|].
    pose proof (Z.mul_div_le U W PW). lia. }
  assert (Hq10 : 2 * (R5 / W) <= R10 / W).
  { apply Z.div_le_lower_bound; [lia|].
    pose proof (Z.mul_div_le R5 W PW). lia. }
  lia.
Qed.

Lemma scale_bar_offset_spec_witness :
  exists o1 o5 o10,
    scale_bar_offset (S754_finite false 8704613654777036 (-49))
    = Ok (<["10" := o10]> (<["5" := o5]> (<["1" := o1]> ∅))) /\ o1 <= o5 <= o10.
Proof.
  destruct (scale_bar_offset_spec (S754_finite false 8704613654777036 (-49)))
    as [[_ H]|(o1 & o5 & o10 & H & _ & _ & _ & H1 & H2 & _)].
  - reflexivity.
  - reflexivity.
  - reflexivity.
  - vm_compute in H. discriminate H.
  - exists o1, o5, o10. split; [exact H|lia].
Defined.

(** C5, as stated, fails: two clicks one pixel apart give 80000 nm per
    pixel, a bar length of 0.0125 pixels, and three offsets equal to 0. *)
Lemma scale_bar_offset_not_increasing :
  (try nm <- nm_per_pixel [(F64.of_Z 100, F64.of_Z 0); (F64.of_Z 101, F64.of_Z 0)];
   try length_px <- scale_bar_length nm;
   if F64.ltb F64.zero length_px then scale_bar_offset length_px else Raise ValueError)
  = Ok (<["10" := 0]> (<["5" := 0]> (<["1" := 0]> ∅))).
Proof. vm_compute. reflexivity. Qed.

(** * Further properties of the script

    ** The clicks *)

Lemma py_getitem_nonneg {A : Type} (l : list A) (i : Z) :
  0 <= i ->
  py_getitem l i = match l !! Z.to_nat i with Some a => Ok a | None => Raise IndexError end.
Proof.
  intros Hi. unfold py_getitem.
  rewrite (proj2 (Z.ltb_ge i 0)) by lia.
  destruct (l !! Z.to_nat i) as [a|] eqn:E.
  - apply lookup_lt_Some in E.
    rewrite (proj2 (Z.leb_le 0 i)), (proj2 (Z.ltb_lt i (Z.of_nat (length l)))) by lia.
    reflexivity.
  - destruct (_ && _); reflexivity.
Qed.

(** X1: the calibration raises [IndexError] exactly when fewer than two
    clicks were captured, and clicks after the second are never looked at. *)
Theorem clicks_needed (clicks : list click) :
  (nm_per_pixel clicks = Raise IndexError <-> (length clicks < 2)%nat) /\
  pixels_between_lines clicks = pixels_between_lines (take 2 clicks) /\
  nm_per_pixel clicks = nm_per_pixel (take 2 clicks).
Proof.
  unfold nm_per_pixel, pixels_between_lines.
  rewrite !(py_getitem_nonneg _ 1), !(py_getitem_nonneg _ 0) by lia.
  destruct clicks as [|c0 [|c1 rest]]; simpl.
  - split; [split; [intros _; lia|done]|done].
  - split; [split; [intros _; lia|done]|done].
  - split; [|done]. split; [done|lia].
Qed.

Lemma clicks_needed_witness :
  nm_per_pixel [(F64.of_Z 62, F64.of_Z 300)] = Raise IndexError.
Proof.
  apply (proj2 (proj1 (clicks_needed [(F64.of_Z 62, F64.of_Z 300)]))). simpl. lia.
Defined.

Lemma SFabs_binary_round_aux prec emax s s' m e l :
  SFabs (binary_round_aux prec emax s m e l) = SFabs (binary_round_aux prec emax s' m e l).
Proof.
  unfold binary_round_aux.
  destruct (shr_fexp prec emax m e l) as [mrs' e'].
  destruct (shr_fexp prec emax _ e' loc_Exact) as [mrs'' e''].
  destruct (shr_m mrs''); [reflexivity| |reflexivity].
  destruct (e'' <=? emax - prec); reflexivity.
Qed.

Lemma SFabs_binary_round prec emax s s' m e :
  SFabs (binary_round prec emax s m e) = SFabs (binary_round prec emax s' m e).
Proof.
  unfold binary_round. destruct (shl_align m e _) as [mz ez].
  apply SFabs_binary_round_aux.
Qed.

Lemma abs_sub_comm (x y : float) : F64.abs (F64.sub x y) = F64.abs (F64.sub y x).
Proof.
  unfold F64.abs, F64.sub.
  destruct x as [sx|sx| |sx mx ex], y as [sy|sy| |sy my ey];
    try (destruct sx, sy; reflexivity); try reflexivity.
  simpl SFsub. rewrite (Z.min_comm ey ex).
  set (a := cond_Zopp sx (Z.pos (shl_align mx ex (Z.min ex ey)).1)).
  set (b := cond_Zopp sy (Z.pos (shl_align my ey (Z.min ex ey)).1)).
  replace (b - a) with (- (a - b)) by lia.
  destruct (a - b) as [|p|p]; simpl; try reflexivity; apply SFabs_binary_round.
Qed.

(** X2: the measured distance and the calibration do not depend on the
    order in which the two lines were clicked. *)
Theorem click_order_irrelevant (c0 c1 : click) :
  pixels_between_lines [c0; c1] = pixels_between_lines [c1; c0] /\
  nm_per_pixel [c0; c1] = nm_per_pixel [c1; c0].
Proof.
  assert (E : pixels_between_lines [c0; c1] = pixels_between_lines [c1; c0]).
  { change (Ok (A := float) (F64.abs (F64.sub c1.1 c0.1))
            = Ok (F64.abs (F64.sub c0.1 c1.1))).
    by rewrite abs_sub_comm. }
  split; [done|]. unfold nm_per_pixel. by rewrite E.
Qed.

(** ** Signs *)

Lemma not_negative_binary_round_aux prec emax m e l :
  not_negative (binary_round_aux prec emax false m e l) = true.
Proof.
  unfold binary_round_aux.
  destruct (shr_fexp prec emax m e l) as [mrs' e'].
  destruct (shr_fexp prec emax _ e' loc_Exact) as [mrs'' e''].
  destruct (shr_m mrs''); [reflexivity| |reflexivity].
  destruct (e'' <=? emax - prec); reflexivity.
Qed.

Lemma not_negative_abs x : not_negative (F64.abs x) = true.
Proof. destruct x; reflexivity. Qed.

Lemma not_negative_of_Z n : 0 <= n -> not_negative (F64.of_Z n) = true.
Proof.
  intros Hn. destruct n as [|p|p]; [reflexivity| |lia].
  unfold F64.of_Z. simpl binary_normalize. unfold binary_round.
  destruct (shl_align p 0 _) as [mz ez]. apply not_negative_binary_round_aux.
Qed.

Lemma not_negative_div x y :
  not_negative x = true -> not_negative y = true -> not_negative (F64.div x y) = true.
Proof.
  unfold F64.div.
  destruct x as [sx|sx| |sx mx ex], y as [sy|sy| |sy my ey]; simpl;
    try done; try (destruct sx, sy; done); try (destruct sx; done); try (destruct sy; done).
  destruct sx, sy; try done. intros _ _.
  destruct (SFdiv_core_binary _ _ _ _ _ _) as [[mz ez] lz].
  apply not_negative_binary_round_aux.
Qed.

Lemma not_negative_mul x y :
  not_negative x = true -> not_negative y = true -> not_negative (F64.mul x y) = true.
Proof.
  unfold F64.mul.
  destruct x as [sx|sx| |sx mx ex], y as [sy|sy| |sy my ey]; simpl;
    try done; try (destruct sx, sy; done); try (destruct sx; done); try (destruct sy; done).
  destruct sx, sy; try done. intros _ _.
  apply not_negative_binary_round_aux.
Qed.

Lemma py_int_not_negative x o : not_negative x = true -> py_int x = Ok o -> 0 <= o.
Proof.
  destruct x as [s|s| |s m e]; simpl; try done.
  - intros _ [= <-]. lia.
  - destruct s; [done|]. intros _ [= <-]. simpl. apply Z.shiftl_nonneg. lia.
Qed.

Lemma pixels_between_lines_not_negative clicks d :
  pixels_between_lines clicks = Ok d -> not_negative d = true.
Proof.
  unfold pixels_between_lines.
  destruct (py_getitem clicks 1); [|done]. destruct (py_getitem clicks 0); [|done].
  simpl. intros [= <-]. apply not_negative_abs.
Qed.

Lemma nm_per_pixel_not_negative clicks nm :
  nm_per_pixel clicks = Ok nm -> not_negative nm = true.
Proof.
  unfold nm_per_pixel.
  destruct (pixels_between_lines clicks) as [d|] eqn:E; [|done].
  apply pixels_between_lines_not_negative in E.
  cbv beta iota delta [result_bind]. unfold float64_truediv. intros H.
  assert (nm = F64.div known_distance_nm d) as -> by congruence.
  apply not_negative_div; [reflexivity|done].
Qed.

(** X3: whatever was clicked, the calibration and the bar length are never
    negative, and the three offsets are never negative: no slice of the
    overlay starts or ends at a negative index. *)
Theorem offsets_never_negative (clicks : list click) (nm length_px : float)
    (offset : gmap string Z) :
  nm_per_pixel clicks = Ok nm ->
  scale_bar_length nm = Ok length_px ->
  scale_bar_offset length_px = Ok offset ->
  not_negative nm = true /\ not_negative length_px = true /\
  exists o1 o5 o10,
    offset = <["10" := o10]> (<["5" := o5]> (<["1" := o1]> ∅)) /\
    0 <= o1 /\ 0 <= o5 /\ 0 <= o10.
Proof.
  intros Hnm Hlen Hoff.
  assert (N1 : not_negative nm = true) by by eapply nm_per_pixel_not_negative.
  assert (N2 : not_negative length_px = true).
  { unfold scale_bar_length, float64_truediv in Hlen.
    assert (length_px = F64.div (F64.of_Z 1000) nm) as -> by congruence.
    apply not_negative_div; [by apply not_negative_of_Z|done]. }
  split; [done|]. split; [done|].
  destruct (scale_bar_offset_inv _ _ Hoff) as (o1 & o5 & o10 & H1 & H5 & H10 & ->).
  exists o1, o5, o10. split; [done|].
  split; [by eapply py_int_not_negative|].
  split; (eapply py_int_not_negative; [|eassumption]);
    (apply not_negative_mul; [by apply not_negative_of_Z|done]).
Qed.

Lemma offsets_never_negative_witness :
  exists o1 o5 o10 : Z, 0 <= o1 /\ 0 <= o5 /\ 0 <= o10 /\
    (try nm <- nm_per_pixel [(F64.of_Z 62, F64.of_Z 5); (F64.of_Z 1299, F64.of_Z 9)];
     try length_px <- scale_bar_length nm;
     scale_bar_offset length_px)
    = Ok (<["10" := o10]> (<["5" := o5]> (<["1" := o1]> ∅))).
Proof.
  destruct (offsets_never_negative
              [(F64.of_Z 62, F64.of_Z 5); (F64.of_Z 1299, F64.of_Z 9)]
              (S754_finite false 4550929292007373 (-46))
              (S754_finite false 8704613654777036 (-49))
              (<["10" := 154]> (<["5" := 77]> (<["1" := 15]> ∅))))
    as (_ & _ & o1 & o5 & o10 & E & H1 & H5 & H10).
  - vm_compute. reflexivity.
  - vm_compute. reflexivity.
  - vm_compute. reflexivity.
  - exists 15, 77, 154. split; [lia|]. split; [lia|]. split; [lia|].
    vm_compute. reflexivity.
Defined.

(** ** The offsets as a function of the bar length *)

Lemma py_int_mul_of_Z L m e o :
  0 < L < 2 ^ 53 -> bounded F64.prec F64.emax m e = true ->
  py_int (F64.mul (F64.of_Z L) (S754_finite false m e)) = Ok o ->
  o = round_units F64.prec (L * mag_units F64.prec F64.emax m e) 1
      / 2 ^ (- F64.emin).
Proof.
  intros HL B Ho.
  pose proof (binary64 mag_lt_overflow _ _ B) as [Mpos _].
  assert (Rpos : 0 < round_units F64.prec (L * mag_units F64.prec F64.emax m e) 1).
  { apply (binary64 round_units_pos); nia. }
  destruct (mul_of_Z L m e HL B) as [[R0 _]|[(_ & m' & e' & E & B' & M')|[_ E]]].
  - lia.
  - rewrite E, (py_int_finite m' e' B'), M' in Ho. congruence.
  - rewrite E in Ho. discriminate.
Qed.

(** X4: a longer bar length never gives a smaller offset, for any of the
    three ticks. *)
Theorem offsets_monotone (s s' : float) (offset offset' : gmap string Z) :
  F64.valid s = true -> F64.is_finite s = true -> F64.ltb F64.zero s = true ->
  F64.valid s' = true -> F64.is_finite s' = true ->
  F64.leb s s' = true ->
  scale_bar_offset s = Ok offset -> scale_bar_offset s' = Ok offset' ->
  forall k o o', offset !! k = Some o -> offset' !! k = Some o' -> o <= o'.
Proof.
  intros V F P V' F' Hle Hoff Hoff'.
  destruct (positive_finite _ V F P) as (m & e & -> & B).
  assert (P' : F64.ltb F64.zero s' = true).
  { destruct s' as [sg|sg| |sg m' e']; try done. destruct sg; done. }
  destruct (positive_finite _ V' F' P') as (m' & e' & -> & B').
  rewrite SFleb_finite_mag in Hle by done. apply Z.leb_le in Hle.
  destruct unit_scale_bounds as [PW _].
  pose proof (binary64 mag_lt_overflow _ _ B) as [Mpos _].
  destruct (scale_bar_offset_inv _ _ Hoff) as (o1 & o5 & o10 & H1 & H5 & H10 & ->).
  destruct (scale_bar_offset_inv _ _ Hoff') as (o1' & o5' & o10' & H1' & H5' & H10' & ->).
  rewrite py_int_finite in H1, H1' by done.
  apply py_int_mul_of_Z in H5, H5', H10, H10'; try done; try lia.
  injection H1 as <-. injection H1' as <-. subst o5 o5' o10 o10'.
  intros k o o' Hk Hk'.
  destruct (decide (k = "10")) as [->|]; [|destruct (decide (k = "5")) as [->|];
    [|destruct (decide (k = "1")) as [->|]]]; simplify_map_eq;
    apply Z.div_le_mono; try lia; apply (binary64 round_units_mono); nia.
Qed.

Lemma offsets_monotone_witness : (15 : Z) <= 30.
Proof.
  apply (offsets_monotone
           (S754_finite false 8704613654777036 (-49))
           (S754_finite false 8704613654777036 (-48))
           (<["10" := 154]> (<["5" := 77]> (<["1" := 15]> ∅)))
           (<["10" := 309]> (<["5" := 154]> (<["1" := 30]> ∅)))
           eq_refl eq_refl eq_refl eq_refl eq_refl eq_refl) with (k := "1").
  - vm_compute. reflexivity.
  - vm_compute. reflexivity.
  - reflexivity.
  - reflexivity.
Defined.

(** ** Outcomes of a run *)

Lemma reduce_outcome (f : Z -> Z -> Z) (l : list Z) :
  (l = [] /\ reduce f l = Raise ValueError) \/ (l <> [] /\ exists v, reduce f l = Ok v).
Proof. destruct l as [|x l]; [by left|right]. split; [done|]. by eexists. Qed.

Lemma py_getitem_error {A : Type} (l : list A) (i : Z) err :
  py_getitem l i = Raise err -> err = IndexError.
Proof.
  unfold py_getitem. destruct (_ && _); [|congruence].
  destruct (l !! _); congruence.
Qed.

Lemma py_int_error x err : py_int x = Raise err -> err = ValueError \/ err = OverflowError.
Proof. destruct x; simpl; intros [=]; auto. Qed.

(** What the calibration part returns, apart from the store. *)
Lemma calibrate_result graticule_tif clicks σ :
  fst (calibrate graticule_tif clicks σ) =
    (try _ <- np_min graticule_tif;
     try _ <- np_max graticule_tif;
     try _ <- np_item graticule_tif 20 10;
     try _ <- py_getitem graticule_tif 400;
     nm_per_pixel clicks).
Proof.
  unfold calibrate, bind at 1, imread.
  destruct (alloc_spec (Uint16Array graticule_tif) σ) as (l & -> & _).
  unfold bind, read_uint16, lift. rewrite lookup_insert_eq.
  destruct (np_min graticule_tif); [|done]. destruct (np_max graticule_tif); [|done].
  destruct (np_item graticule_tif 20 10); [|done].
  destruct (py_getitem graticule_tif 400); done.
Qed.

(** What the second part returns, apart from the store and the reference. *)
Lemma annotate_result nm ecoli a σ :
  σ !! ecoli = Some (Uint16Array a) ->
  exists ecoli_norm,
    fst (annotate nm ecoli σ) =
      (try _ <- normalize a;
       try length_px <- scale_bar_length nm;
       try _ <- scale_bar_offset length_px;
       Ok ecoli_norm).
Proof.
  intros Ha. unfold annotate, bind at 1, read_uint16. rewrite Ha.
  unfold bind at 1, lift at 1.
  destruct (alloc_spec (Float64Array (match normalize a with Ok n => n | _ => [] end)) σ)
    as (l & El & _).
  exists l. destruct (normalize a) as [n|]; [|reflexivity].
  unfold bind at 1. rewrite El.
  unfold bind at 1, lift at 1. destruct (scale_bar_length nm) as [s|]; [|reflexivity].
  unfold bind at 1, lift at 1. cbv beta iota delta [result_bind].
  destruct (scale_bar_offset s) as [offset|] eqn:Eo; [|reflexivity].
  destruct (scale_bar_offset_inv _ _ Eo) as (o1 & o5 & o10 & _ & _ & _ & ->).
  unfold bind at 1. rewrite (overlay_spec l n o1 o5 o10) by apply lookup_insert_eq.
  reflexivity.
Qed.

Lemma EColiSize_result graticule_tif ecoli_tif clicks σ :
  exists ecoli ecoli_norm,
    fst (EColiSize graticule_tif ecoli_tif clicks σ) =
      (try nm <- fst (calibrate graticule_tif clicks σ);
       try _ <- normalize ecoli_tif;
       try length_px <- scale_bar_length nm;
       try _ <- scale_bar_offset length_px;
       Ok (ecoli, ecoli_norm)).
Proof.
  unfold EColiSize, bind at 1.
  destruct (calibrate graticule_tif clicks σ) as [[nm|e] σ1]; [|by exists 0%nat, 0%nat].
  unfold bind at 1, imread.
  destruct (alloc_spec (Uint16Array ecoli_tif) σ1) as (ecoli & -> & _).
  destruct (annotate_result nm ecoli ecoli_tif (<[ecoli := Uint16Array ecoli_tif]> σ1))
    as (ecoli_norm & E); [apply lookup_insert_eq|].
  exists ecoli, ecoli_norm. unfold bind, ret.
  cbn [fst]. unfold result_bind at 1.
  set (sl := scale_bar_length nm) in *. clearbody sl.
  destruct (annotate nm ecoli _) as [[r|e] σ3]; simpl in *;
    (destruct (normalize ecoli_tif); simpl in *; [|congruence]);
    (destruct sl as [s|]; simpl in *; [|congruence]);
    destruct (scale_bar_offset s); simpl in *; congruence.
Qed.

(** X5: with a rectangular graticule, the calibration part succeeds exactly
    when the graticule has more than 400 rows and more than 10 columns and
    the clicks give a calibration; its value comes from the clicks alone,
    the samples of the graticule are only displayed. *)
Theorem graticule_requirement (graticule_tif : grid Z) (clicks : list click) σ nm :
  rectangular graticule_tif ->
  fst (calibrate graticule_tif clicks σ) = Ok nm <->
  (400 < nrows graticule_tif)%nat /\ (10 < ncols graticule_tif)%nat /\
  nm_per_pixel clicks = Ok nm.
Proof.
  intros R. rewrite calibrate_result. unfold np_item, nrows.
  rewrite !py_getitem_nonneg by lia. change (Z.to_nat 20) with 20%nat.
  change (Z.to_nat 10) with 10%nat. change (Z.to_nat 400) with 400%nat.
  unfold rectangular in R. rewrite Forall_lookup in R.
  split.
  - destruct (np_min graticule_tif); [|cbv beta iota delta [result_bind]; discriminate].
    destruct (np_max graticule_tif); [|cbv beta iota delta [result_bind]; discriminate].
    cbv beta iota delta [result_bind].
    destruct (graticule_tif !! 20%nat) as [row|] eqn:E20; [|cbv beta iota delta [result_bind]; discriminate].
    cbv beta iota. rewrite (py_getitem_nonneg row 10) by lia.
    change (Z.to_nat 10) with 10%nat.
    destruct (row !! 10%nat) as [x|] eqn:E10; [|cbv beta iota delta [result_bind]; discriminate].
    destruct (graticule_tif !! 400%nat) as [row'|] eqn:E400; [|cbv beta iota delta [result_bind]; discriminate].
    intros H. split; [by eapply lookup_lt_Some|]. split; [|done].
    rewrite <- (R 20%nat row E20). by eapply lookup_lt_Some.
  - intros (Hr & Hc & Hnm).
    destruct (lookup_lt_is_Some_2 graticule_tif 20 ltac:(lia)) as [row E20].
    destruct (lookup_lt_is_Some_2 graticule_tif 400 ltac:(lia)) as [row' E400].
    destruct (lookup_lt_is_Some_2 row 10) as [x E10]; [rewrite (R _ _ E20); lia|].
    assert (Hx : x ∈ concat graticule_tif).
    { apply elem_of_concat_pixel. exists 20%nat, 10%nat. unfold pixel. by rewrite E20. }
    assert (Hne : concat graticule_tif <> []).
    { intros E. rewrite E in Hx. by apply not_elem_of_nil in Hx. }
    unfold np_min, np_max.
    destruct (reduce_outcome Z.min (concat graticule_tif)) as [[? _]|[_ [? ->]]]; [done|].
    destruct (reduce_outcome Z.max (concat graticule_tif)) as [[? _]|[_ [? ->]]]; [done|].
    cbv beta iota delta [result_bind]. rewrite E20. cbv beta iota.
    rewrite (py_getitem_nonneg row 10) by lia. change (Z.to_nat 10) with 10%nat.
    rewrite E10, E400. done.
Qed.

Lemma graticule_requirement_witness :
  fst (calibrate (repeat (repeat 100 11%nat) 401%nat)
         [(F64.of_Z 62, F64.of_Z 5); (F64.of_Z 1299, F64.of_Z 9)] ∅)
  = Ok (S754_finite false 4550929292007373 (-46)).
Proof.
  apply (graticule_requirement (repeat (repeat 100 11%nat) 401%nat)).
  - apply Forall_forall. intros row Hrow.
    apply list_elem_of_In, repeat_spec in Hrow as ->. reflexivity.
  - split; [vm_compute; lia|]. split; [vm_compute; lia|]. vm_compute. reflexivity.
Defined.

Lemma normalize_outcome_cases (g : grid Z) :
  (concat g = [] /\ normalize g = Raise ValueError) \/
  (concat g <> [] /\ exists f : Z -> float, normalize g = Ok (elementwise f g)).
Proof.
  unfold normalize, np_min, np_max, np_true_divide, np_subtract.
  destruct (reduce_outcome Z.min (concat g)) as [[E ->]|[NE [lo ->]]]; [by left|right].
  destruct (reduce_outcome Z.max (concat g)) as [[E _]|[_ [hi ->]]]; [done|].
  split; [done|]. eexists. cbv beta iota delta [result_bind].
  by rewrite elementwise_elementwise.
Qed.

(** X6: normalisation raises [ValueError] exactly for a picture without
    samples and raises nothing else; for every other picture it returns an
    array of the same shape. *)
Theorem normalize_outcome (g : grid Z) :
  (concat g = [] /\ normalize g = Raise ValueError) \/
  (concat g <> [] /\
   exists out, normalize g = Ok out /\ nrows out = nrows g /\
               forall i, length <$> out !! i = length <$> g !! i).
Proof.
  destruct (normalize_outcome_cases g) as [H|[NE [f E]]]; [by left|right].
  split; [done|]. exists (elementwise f g). split; [done|]. apply shape_elementwise.
Qed.

Lemma nm_per_pixel_error clicks err :
  nm_per_pixel clicks = Raise err -> err = IndexError.
Proof.
  unfold nm_per_pixel, pixels_between_lines.
  destruct (py_getitem clicks 1) eqn:E1; [|intros [= <-]; by eapply py_getitem_error].
  destruct (py_getitem clicks 0) eqn:E0; [|intros [= <-]; by eapply py_getitem_error].
  done.
Qed.

Lemma scale_bar_offset_error length_px err :
  scale_bar_offset length_px = Raise err -> err = ValueError \/ err = OverflowError.
Proof.
  unfold scale_bar_offset.
  destruct (py_int length_px) eqn:E1; [|intros [= <-]; by eapply py_int_error].
  cbv beta iota delta [result_bind].
  destruct (py_int (F64.mul (F64.of_Z 5) length_px)) eqn:E5;
    [|intros [= <-]; by eapply py_int_error].
  destruct (py_int (F64.mul (F64.of_Z 10) length_px)) eqn:E10;
    [|intros [= <-]; by eapply py_int_error].
  done.
Qed.

(** X7: once both pictures are loaded and the clicks captured, the
    statements of lines 27-171 raise nothing but [IndexError], [ValueError]
    and [OverflowError]: no division raises, whatever the divisor, and every
    subscript of the offset dictionary finds its key. *)
Theorem script_errors graticule_tif ecoli_tif clicks σ err :
  fst (EColiSize graticule_tif ecoli_tif clicks σ) = Raise err ->
  err = IndexError \/ err = ValueError \/ err = OverflowError.
Proof.
  destruct (EColiSize_result graticule_tif ecoli_tif clicks σ) as (l1 & l2 & ->).
  rewrite calibrate_result. unfold np_min, np_max, np_item.
  destruct (reduce_outcome Z.min (concat graticule_tif)) as [[_ ->]|[_ [? ->]]];
    [intros [= <-]; auto|].
  destruct (reduce_outcome Z.max (concat graticule_tif)) as [[_ ->]|[_ [? ->]]];
    [intros [= <-]; auto|].
  cbv beta iota delta [result_bind].
  destruct (py_getitem graticule_tif 20) as [row|] eqn:E20;
    [|apply py_getitem_error in E20 as ->; intros [= <-]; auto].
  destruct (py_getitem row 10) eqn:E10;
    [|apply py_getitem_error in E10 as ->; intros [= <-]; auto].
  destruct (py_getitem graticule_tif 400) eqn:E400;
    [|apply py_getitem_error in E400 as ->; intros [= <-]; auto].
  destruct (nm_per_pixel clicks) as [nm|] eqn:Enm;
    [|apply nm_per_pixel_error in Enm as ->; intros [= <-]; auto].
  destruct (normalize_outcome_cases ecoli_tif) as [[_ ->]|[_ [f ->]]];
    [intros [= <-]; auto|].
  unfold scale_bar_length.
  destruct (scale_bar_offset _) eqn:Eo; [done|].
  apply scale_bar_offset_error in Eo as [->| ->]; intros [= <-]; auto.
Qed.

Lemma script_errors_witness :
  fst (EColiSize (repeat (repeat 100 11%nat) 401%nat) [[3; 7]; [5; 7]]
         [(F64.of_Z 62, F64.of_Z 5)] ∅) = Raise IndexError /\
  (IndexError = IndexError \/ IndexError = ValueError \/ IndexError = OverflowError).
Proof.
  split; [vm_compute; reflexivity|].
  apply (script_errors (repeat (repeat 100 11%nat) 401%nat) [[3; 7]; [5; 7]]
           [(F64.of_Z 62, F64.of_Z 5)] ∅).
  vm_compute. reflexivity.
Defined.

Lemma paint_row_length {A : Type} P (v : A) (a : grid A) i :
  length <$> paint P v a !! i = length <$> a !! i.
Proof.
  unfold paint. rewrite list_lookup_imap.
  destruct (a !! i); [|done]. simpl. by rewrite length_imap.
Qed.

Lemma offsets_inj (o1 o5 o10 a1 a5 a10 : Z) :
  (<["10" := o10]> (<["5" := o5]> (<["1" := o1]> ∅)) : gmap string Z)
    = <["10" := a10]> (<["5" := a5]> (<["1" := a1]> ∅)) ->
  o1 = a1 /\ o5 = a5 /\ o10 = a10.
Proof.
  intros E.
  destruct (scale_bar_offset_lookup o1 o5 o10) as (L1 & L5 & L10).
  destruct (scale_bar_offset_lookup a1 a5 a10) as (M1 & M5 & M10).
  cbv zeta in *. rewrite E in L1, L5, L10.
  split; [congruence|]. split; congruence.
Qed.

(** X8: after a complete run of lines 27-171, the array behind
    [ecoli_norm] is the normalised picture with the ruler drawn at the
    offsets [int(s)], [int(5*s)], [int(10*s)] of the bar length
    [s = 1000 / nm_per_pixel] computed from the clicks, and it has the shape
    of the picture that was loaded. *)
Theorem complete_run graticule_tif ecoli_tif clicks σ ecoli ecoli_norm :
  fst (EColiSize graticule_tif ecoli_tif clicks σ) = Ok (ecoli, ecoli_norm) ->
  exists nm length_px n o1 o5 o10,
    nm_per_pixel clicks = Ok nm /\
    scale_bar_length nm = Ok length_px /\
    py_int length_px = Ok o1 /\
    py_int (F64.mul (F64.of_Z 5) length_px) = Ok o5 /\
    py_int (F64.mul (F64.of_Z 10) length_px) = Ok o10 /\
    normalize ecoli_tif = Ok n /\
    snd (EColiSize graticule_tif ecoli_tif clicks σ) !! ecoli_norm
      = Some (Float64Array (draw_scale_bar o1 o5 o10 n)) /\
    nrows (draw_scale_bar o1 o5 o10 n) = nrows ecoli_tif /\
    forall i, length <$> draw_scale_bar o1 o5 o10 n !! i = length <$> ecoli_tif !! i.
Proof.
  destruct (EColiSize graticule_tif ecoli_tif clicks σ) as [r0 σ'] eqn:Erun.
  cbn [fst snd]. intros ->. revert Erun.
  unfold EColiSize, bind at 1.
  destruct (calibrate graticule_tif clicks σ) as [[nm|e] σ1] eqn:Ec; [|done].
  assert (Hnm : nm_per_pixel clicks = Ok nm).
  { pose proof (calibrate_result graticule_tif clicks σ) as Hr. rewrite Ec in Hr.
    simpl fst in Hr. symmetry in Hr.
    destruct (np_min graticule_tif); [|discriminate].
    destruct (np_max graticule_tif); [|discriminate].
    destruct (np_item graticule_tif 20 10); [|discriminate].
    destruct (py_getitem graticule_tif 400); [|discriminate]. exact Hr. }
  unfold bind at 1, imread.
  destruct (alloc_spec (Uint16Array ecoli_tif) σ1) as (l & -> & Hl).
  unfold bind at 1.
  destruct (annotate nm l _) as [[r|e] σ3] eqn:Ea; [|done].
  unfold ret. intros [= <- <- <-].
  destruct (annotate_spec _ _ _ _ _ Ea) as [_ S].
  destruct (S r eq_refl) as (_ & a & n & s & o1 & o5 & o10 & Ha & Hn & Hs & Ho & ->).
  rewrite lookup_insert_eq in Ha. injection Ha as <-.
  destruct (scale_bar_offset_inv _ _ Ho) as (a1 & a5 & a10 & H1 & H5 & H10 & Emap).
  apply offsets_inj in Emap as (-> & -> & ->).
  exists nm, s, n, a1, a5, a10.
  split; [done|]. split; [done|]. split; [done|]. split; [done|]. split; [done|].
  split; [done|]. split; [apply lookup_insert_eq|].
  destruct (normalize_outcome_cases ecoli_tif) as [[_ E]|[_ [f E]]]; [congruence|].
  assert (n = elementwise f ecoli_tif) as -> by congruence.
  rewrite draw_scale_bar_paint. split.
  - rewrite nrows_paint. apply shape_elementwise.
  - intros i. rewrite paint_row_length. apply shape_elementwise.
Qed.

Lemma complete_run_witness :
  let graticule_tif := repeat (repeat 100 11%nat) 401%nat in
  let ecoli_tif :=
    repeat (repeat 100 1400%nat) 880%nat
    ++ [repeat 100 1150%nat ++ [200; 200] ++ repeat 100 13%nat ++ [200; 200]
        ++ repeat 100 233%nat]
    ++ repeat (repeat 100 1400%nat) 21%nat
    ++ [repeat 100 1304%nat ++ [200; 200] ++ repeat 100 94%nat]
    ++ repeat (repeat 100 1400%nat) 47%nat in
  let clicks := [(F64.of_Z 62, F64.of_Z 5); (F64.of_Z 1299, F64.of_Z 9)] in
  exists n,
    normalize ecoli_tif = Ok n /\
    snd (EColiSize graticule_tif ecoli_tif clicks ∅) !! 2%nat
      = Some (Float64Array (draw_scale_bar 15 77 154 n)) /\
    nrows (draw_scale_bar 15 77 154 n) = 950%nat /\
    pixel n 880 1150 = Some F64.one /\
    pixel (draw_scale_bar 15 77 154 n) 880 1150 = Some F64.zero /\
    pixel (draw_scale_bar 15 77 154 n) 880 1151 = Some F64.one /\
    pixel (draw_scale_bar 15 77 154 n) 880 1165 = Some F64.zero /\
    pixel (draw_scale_bar 15 77 154 n) 880 1166 = Some F64.one /\
    pixel (draw_scale_bar 15 77 154 n) 902 1304 = Some F64.zero /\
    pixel (draw_scale_bar 15 77 154 n) 902 1305 = Some F64.one.
Proof.
  intros graticule_tif ecoli_tif clicks.
  destruct (complete_run graticule_tif ecoli_tif clicks ∅ 1%nat 2%nat)
    as (nm & s & n & o1 & o5 & o10 & Hnm & Hs & H1 & H5 & H10 & Hn & Hσ & Hrows & _).
  - reflexivity.
  - vm_compute in Hnm. injection Hnm as <-.
    vm_compute in Hs. injection Hs as <-.
    vm_compute in H1. injection H1 as <-.
    vm_compute in H5. injection H5 as <-.
    vm_compute in H10. injection H10 as <-.
    assert (Hmin : np_min ecoli_tif = Ok 100) by (vm_compute; reflexivity).
    assert (Hmax : np_max ecoli_tif = Ok 200) by (vm_compute; reflexivity).
    unfold normalize in Hn. rewrite Hmin, Hmax in Hn.
    cbv beta iota delta [result_bind] in Hn. apply Ok_inj in Hn. subst n.
    exists (np_true_divide (np_subtract ecoli_tif 100) (wrap16 (200 - 100))).
    split.
    { unfold normalize. rewrite Hmin, Hmax. reflexivity. }
    split; [exact Hσ|].
    split; [rewrite Hrows; reflexivity|].
    repeat split; reflexivity.
Defined.

(** ** The ruler in image coordinates *)

Lemma one_column (x o j : Z) :
  (x + o <=? j) && (j <? 1 + x + o) = (j =? x + o).
Proof.
  destruct (Z.leb_spec (x + o) j), (Z.ltb_spec j (1 + x + o)), (Z.eqb_spec j (x + o));
    simpl; try reflexivity; lia.
Qed.

Lemma scale_bar_mask_on_ruler (h w : nat) (o1 o5 o10 : Z) (i j : nat) :
  0 <= o1 -> 0 <= o5 -> 0 <= o10 -> (i < h)%nat -> (j < w)%nat ->
  scale_bar_mask h w o1 o5 o10 i j = on_ruler o1 o5 o10 (Z.of_nat i) (Z.of_nat j).
Proof.
  intros H1 H5 H10 Hi Hj.
  unfold scale_bar_mask, on_ruler, region.
  rewrite !in_range_slice
    by (unfold scale_bar_y, scale_bar_height, scale_bar_thickness, scale_bar_xL; lia).
  rewrite !one_column. reflexivity.
Qed.

Lemma rectangular_paint {A : Type} P (v : A) (a : grid A) :
  rectangular a -> rectangular (paint P v a).
Proof.
  unfold rectangular. rewrite ncols_paint, !Forall_lookup.
  intros R i row Hrow. unfold paint in Hrow. rewrite list_lookup_imap in Hrow.
  destruct (a !! i) as [row'|] eqn:E; [|done]. simpl in Hrow.
  injection Hrow as <-. rewrite length_imap. by eapply R.
Qed.

(** X9: on a rectangular picture and with offsets that are not negative,
    the five assignments blacken exactly the pixels of the picture that lie
    on the ruler -- rows 900..904 from column 1150 to column 1150 + offset
    10 inclusive, and rows 875..900 of the four columns 1150, 1150 + offset
    1, 1150 + offset 5 and 1150 + offset 10 -- and leave every other pixel
    and the shape as they were. *)
Theorem draw_scale_bar_pixels (a : grid float) (o1 o5 o10 : Z) :
  rectangular a -> 0 <= o1 -> 0 <= o5 -> 0 <= o10 ->
  nrows (draw_scale_bar o1 o5 o10 a) = nrows a /\
  ncols (draw_scale_bar o1 o5 o10 a) = ncols a /\
  rectangular (draw_scale_bar o1 o5 o10 a) /\
  forall i j,
    pixel (draw_scale_bar o1 o5 o10 a) i j =
      (fun x => if on_ruler o1 o5 o10 (Z.of_nat i) (Z.of_nat j) then F64.zero else x)
        <$> pixel a i j.
Proof.
  intros R H1 H5 H10. rewrite draw_scale_bar_paint.
  split; [apply nrows_paint|]. split; [apply ncols_paint|].
  split; [by apply rectangular_paint|].
  intros i j. rewrite pixel_paint.
  destruct (pixel a i j) as [x|] eqn:Ex; [|done]. simpl.
  destruct (pixel_in_bounds a i j x R Ex) as [Hi Hj].
  by rewrite scale_bar_mask_on_ruler.
Qed.

Lemma draw_scale_bar_pixels_witness :
  pixel (draw_scale_bar 15 77 154 (repeat (repeat F64.one 1400%nat) 950%nat))
        880 1227 = Some F64.zero /\
  pixel (draw_scale_bar 15 77 154 (repeat (repeat F64.one 1400%nat) 950%nat))
        880 1228 = Some F64.one.
Proof.
  assert (R : rectangular (repeat (repeat F64.one 1400%nat) 950%nat)).
  { unfold rectangular. apply Forall_forall. intros r Hr.
    apply list_elem_of_In, repeat_spec in Hr. subst r. reflexivity. }
  destruct (draw_scale_bar_pixels (repeat (repeat F64.one 1400%nat) 950%nat) 15 77 154 R)
    as (_ & _ & _ & P); [lia|lia|lia|].
  rewrite !P. split; reflexivity.
Defined.

Lemma in_range_empty (lo hi i : nat) : (hi <= lo)%nat -> in_range lo hi i = false.
Proof.
  intros H. unfold in_range.
  destruct (Nat.leb_spec lo i), (Nat.ltb_spec i hi); simpl; try reflexivity; lia.
Qed.

Lemma paint_nothing {A : Type} P (v : A) (a : grid A) :
  (forall i j, (i < nrows a)%nat -> P i j = false) -> paint P v a = a.
Proof.
  intros H. unfold paint. apply imap_id_ext. intros i row Hrow.
  apply imap_id_ext. intros j x _.
  rewrite H; [done|]. by eapply lookup_lt_Some.
Qed.

Lemma region_outside (h w : nat) (r0 r1 c0 c1 : Z) (i j : nat) :
  (Z.of_nat h <= r0 /\ 0 <= r1) \/ (Z.of_nat w <= c0 /\ 0 <= c1) ->
  (i < h)%nat -> region h w r0 r1 c0 c1 i j = false.
Proof.
  intros H Hi. unfold region.
  destruct H as [[H0 H1]|[H0 H1]].
  - unfold in_range at 1.
    replace (slice_bound h r0) with h.
    + destruct (Nat.leb_spec h i); [lia|reflexivity].
    + unfold slice_bound. destruct (Z.ltb_spec r0 0); lia.
  - rewrite (in_range_empty (slice_bound w c0)), andb_false_r; [done|].
    replace (slice_bound w c0) with w.
    + unfold slice_bound. destruct (Z.ltb_spec c1 0); lia.
    + unfold slice_bound. destruct (Z.ltb_spec c0 0); lia.
Qed.

(** X10: on a picture of at most 875 rows, or of at most 1150 columns, the
    five assignments raise nothing and change nothing: every slice is
    empty, and the picture comes out without a ruler. *)
Theorem draw_scale_bar_small_picture (a : grid float) (o1 o5 o10 : Z) :
  0 <= o1 -> 0 <= o5 -> 0 <= o10 ->
  (nrows a <= 875)%nat \/ (ncols a <= 1150)%nat ->
  draw_scale_bar o1 o5 o10 a = a.
Proof.
  intros H1 H5 H10 Hsmall. rewrite draw_scale_bar_paint.
  apply paint_nothing. intros i j Hi. unfold scale_bar_mask.
  assert (Hout : forall r0 r1 c0 c1,
             875 <= r0 -> 0 <= r1 -> 1150 <= c0 -> 0 <= c1 ->
             region (nrows a) (ncols a) r0 r1 c0 c1 i j = false).
  { intros r0 r1 c0 c1 Hr0 Hr1 Hc0 Hc1. apply region_outside; [|done].
    destruct Hsmall; [left|right]; lia. }
  rewrite !Hout
    by (unfold scale_bar_y, scale_bar_height, scale_bar_thickness, scale_bar_xL; lia).
  reflexivity.
Qed.

Lemma draw_scale_bar_small_picture_witness :
  draw_scale_bar 15 77 154 [[F64.one; F64.one]; [F64.one; F64.one]]
  = [[F64.one; F64.one]; [F64.one; F64.one]].
Proof.
  apply (draw_scale_bar_small_picture [[F64.one; F64.one]; [F64.one; F64.one]] 15 77 154);
    [lia|lia|lia|left; simpl; lia].
Defined.

(** ** Normalisation: brightness, gain and distinct grey levels *)

Lemma concat_elementwise {A B : Type} (f : A -> B) (g : grid A) :
  concat (elementwise f g) = f <$> concat g.
Proof.
  unfold elementwise. induction g as [|row g IH]; [done|].
  rewrite fmap_cons. simpl concat. by rewrite fmap_app, IH.
Qed.

Lemma foldr_fmap_commute (op : Z -> Z -> Z) (f : Z -> Z) (x : Z) (l : list Z) :
  (forall a b, f (op a b) = op (f a) (f b)) ->
  foldr op (f x) (f <$> l) = f (foldr op x l).
Proof.
  intros H. induction l as [|y l IH]; [done|].
  rewrite fmap_cons. simpl foldr. by rewrite IH, H.
Qed.

Lemma reduce_fmap (op : Z -> Z -> Z) (f : Z -> Z) (l : list Z) :
  (forall a b, f (op a b) = op (f a) (f b)) ->
  reduce op (f <$> l) = try m <- reduce op l; Ok (f m).
Proof.
  intros H. destruct l as [|x l]; [done|].
  rewrite fmap_cons. unfold reduce. cbv beta iota delta [result_bind].
  by rewrite foldr_fmap_commute.
Qed.

(** X11: two pictures that differ by a constant brightness normalise to the
    same array. *)
Theorem normalize_shift (c : Z) (a : grid Z) :
  normalize (elementwise (fun x => x + c) a) = normalize a.
Proof.
  unfold normalize, np_min, np_max. rewrite concat_elementwise.
  rewrite (reduce_fmap Z.min (fun x => x + c))
    by (intros; symmetry; apply Z.add_min_distr_r).
  rewrite (reduce_fmap Z.max (fun x => x + c))
    by (intros; symmetry; apply Z.add_max_distr_r).
  destruct (reduce Z.min (concat a)) as [lo|]; [|done].
  destruct (reduce Z.max (concat a)) as [hi|]; [|done].
  cbv beta iota delta [result_bind]. f_equal.
  unfold np_true_divide, np_subtract. rewrite !elementwise_elementwise.
  apply elementwise_ext. intros x _.
  replace (x + c - (lo + c)) with (x - lo) by lia.
  replace (hi + c - (lo + c)) with (hi - lo) by lia. done.
Qed.

Lemma div_of_Z_scale (k n d : Z) :
  0 < k -> 0 <= n -> 0 <= d -> k * n < 2 ^ 53 -> k * d < 2 ^ 53 ->
  F64.div (F64.of_Z (k * n)) (F64.of_Z (k * d)) = F64.div (F64.of_Z n) (F64.of_Z d).
Proof.
  intros Hk Hn Hd Hkn Hkd.
  assert (Bn : n < 2 ^ 53) by nia. assert (Bd : d < 2 ^ 53) by nia.
  destruct (Z.eq_dec d 0) as [->|Nd].
  { rewrite Z.mul_0_r. destruct (Z.eq_dec n 0) as [->|Nn].
    - by rewrite Z.mul_0_r.
    - destruct (of_Z_small n ltac:(lia)) as (m & e & -> & _).
      destruct (of_Z_small (k * n) ltac:(nia)) as (m' & e' & -> & _).
      reflexivity. }
  destruct (Z.eq_dec n 0) as [->|Nn].
  { rewrite Z.mul_0_r, !div_of_Z_0 by nia. done. }
  destruct (div_of_Z (k * n) (k * d) ltac:(nia) ltac:(nia)) as (m' & e' & -> & B' & M').
  destruct (div_of_Z n d ltac:(lia) ltac:(lia)) as (m & e & -> & B & M).
  destruct unit_scale_bounds as [PW _].
  assert (E : round_units F64.prec (k * n * 2 ^ (- F64.emin)) (k * d)
              = round_units F64.prec (n * 2 ^ (- F64.emin)) d).
  { apply (binary64 round_units_ext); [nia|nia|lia|ring]. }
  rewrite E, <- M in M'.
  by destruct (binary64 mag_inj _ _ _ _ B' B M') as [-> ->].
Qed.

(** The quotient the script computes for every sample of a 16-bit picture. *)
Lemma normalize_uint16 (ecoli : grid Z) (lo hi : Z) :
  uint16_grid ecoli -> np_min ecoli = Ok lo -> np_max ecoli = Ok hi ->
  normalize ecoli
  = Ok (elementwise (fun x => F64.div (F64.of_Z (x - lo)) (F64.of_Z (hi - lo))) ecoli).
Proof.
  intros U Hmin Hmax.
  destruct (np_min_spec _ _ Hmin) as [Hlo_in Hlo].
  destruct (np_max_spec _ _ Hmax) as [Hhi_in Hhi].
  pose proof (uint16_grid_elem _ _ U Hlo_in) as Blo.
  pose proof (uint16_grid_elem _ _ U Hhi_in) as Bhi.
  specialize (Hlo hi Hhi_in).
  unfold normalize. rewrite Hmin, Hmax. cbv beta iota delta [result_bind]. f_equal.
  unfold np_true_divide, np_subtract. rewrite elementwise_elementwise.
  apply elementwise_ext. intros x Hx.
  pose proof (uint16_grid_elem _ _ U Hx) as Bx.
  destruct (np_min_spec _ _ Hmin) as [_ Hlo'].
  specialize (Hlo' x Hx).
  rewrite !wrap16_small by (unfold uint16_max in *; lia). done.
Qed.

Lemma uint16_grid_scale (k : Z) (a : grid Z) :
  0 < k -> uint16_grid (elementwise (Z.mul k) a) -> uint16_grid a.
Proof.
  intros Hk U. unfold uint16_grid. rewrite Forall_lookup. intros i row Hi.
  rewrite Forall_lookup. intros j x Hj.
  assert (Hp : pixel (elementwise (Z.mul k) a) i j = Some (k * x)).
  { rewrite pixel_elementwise. unfold pixel. rewrite Hi. simpl. by rewrite Hj. }
  assert (Hin : k * x ∈ concat (elementwise (Z.mul k) a))
    by (apply elem_of_concat_pixel; eauto).
  pose proof (uint16_grid_elem _ _ U Hin) as B.
  unfold is_uint16, uint16_max in *. nia.
Qed.

(** X12: multiplying every sample by a gain [k > 0] without leaving the
    16-bit range does not change the normalised picture, bit for bit. *)
Theorem normalize_gain (k : Z) (a : grid Z) :
  0 < k -> uint16_grid (elementwise (Z.mul k) a) ->
  normalize (elementwise (Z.mul k) a) = normalize a.
Proof.
  intros Hk U. pose proof (uint16_grid_scale k a Hk U) as Ua.
  destruct (np_min a) as [lo|] eqn:Hmin.
  2:{ unfold normalize, np_min. rewrite concat_elementwise.
      unfold np_min in Hmin. destruct (concat a); [done|discriminate]. }
  destruct (np_max a) as [hi|] eqn:Hmax.
  2:{ unfold np_min, np_max in *. destruct (concat a); discriminate. }
  assert (Hmin' : np_min (elementwise (Z.mul k) a) = Ok (k * lo)).
  { unfold np_min in *. rewrite concat_elementwise, (reduce_fmap Z.min (Z.mul k)), Hmin.
    - done.
    - intros. symmetry. apply Z.mul_min_distr_nonneg_l. lia. }
  assert (Hmax' : np_max (elementwise (Z.mul k) a) = Ok (k * hi)).
  { unfold np_max in *. rewrite concat_elementwise, (reduce_fmap Z.max (Z.mul k)), Hmax.
    - done.
    - intros. symmetry. apply Z.mul_max_distr_nonneg_l. lia. }
  rewrite (normalize_uint16 _ _ _ U Hmin' Hmax'), (normalize_uint16 _ _ _ Ua Hmin Hmax).
  f_equal. rewrite elementwise_elementwise.
  apply elementwise_ext. intros x Hx.
  destruct (np_min_spec _ _ Hmin) as [Hlo_in Hlo].
  destruct (np_max_spec _ _ Hmax) as [Hhi_in Hhi].
  specialize (Hlo x Hx). pose proof (Hhi x Hx) as Hxhi.
  assert (Bhi : 0 <= k * hi <= uint16_max).
  { apply (uint16_grid_elem _ _ U). rewrite concat_elementwise.
    apply list_elem_of_fmap. eauto. }
  assert (Blo : 0 <= lo <= uint16_max) by by apply (uint16_grid_elem _ _ Ua).
  unfold uint16_max in *.
  replace (k * x - k * lo) with (k * (x - lo)) by ring.
  replace (k * hi - k * lo) with (k * (hi - lo)) by ring.
  apply div_of_Z_scale; try lia; nia.
Qed.

Lemma normalize_gain_witness :
  normalize [[6; 14]; [10; 14]] = normalize [[3; 7]; [5; 7]].
Proof.
  apply (normalize_gain 2 [[3; 7]; [5; 7]]); [lia|].
  repeat constructor; unfold uint16_max; lia.
Defined.

Lemma SFltb_finite_mag m1 e1 m2 e2 :
  bounded F64.prec F64.emax m1 e1 = true -> bounded F64.prec F64.emax m2 e2 = true ->
  F64.ltb (S754_finite false m1 e1) (S754_finite false m2 e2)
  = (mag_units F64.prec F64.emax m1 e1 <? mag_units F64.prec F64.emax m2 e2).
Proof.
  intros B1 B2. unfold F64.ltb, SFltb, Z.ltb. simpl SFcompare.
  rewrite (binary64 mag_compare _ _ _ _ B1 B2).
  destruct (_ ?= _); reflexivity.
Qed.

(** Between two fractions [a / d < b / d] with a denominator below [2 ^ 26]
    there are two consecutive multiples of [2 ^ -53], both floats; rounding
    cannot carry the fractions across them. *)
Lemma div_of_Z_lt a b d :
  0 <= a < b -> b <= d -> d < 2 ^ 26 ->
  F64.ltb (F64.div (F64.of_Z a) (F64.of_Z d)) (F64.div (F64.of_Z b) (F64.of_Z d)) = true.
Proof.
  intros Hab Hbd Hd.
  destruct (div_of_Z b d ltac:(lia) ltac:(lia)) as (mb & eb & -> & Bb & Mb).
  destruct (Z.eq_dec a 0) as [->|Na].
  { rewrite div_of_Z_0 by lia. reflexivity. }
  destruct (div_of_Z a d ltac:(lia) ltac:(lia)) as (ma & ea & -> & Ba & Ma).
  rewrite SFltb_finite_mag by done. rewrite Ma, Mb. apply Z.ltb_lt.
  pose proof F64_emin_val as Ev.
  assert (HW : 2 ^ (- F64.emin) = 2 ^ 53 * 2 ^ (- F64.emin - 53)).
  { rewrite <- Z.pow_add_r by lia. f_equal; lia. }
  assert (PG : 0 < 2 ^ (- F64.emin - 53)) by (apply Z.pow_pos_nonneg; lia).
  rewrite HW. set (G := 2 ^ (- F64.emin - 53)) in *.
  set (n1 := a * 2 ^ 53 / d + 1).
  assert (H1 : a * 2 ^ 53 < d * n1 <= a * 2 ^ 53 + d).
  { unfold n1. pose proof (Z.mul_div_le (a * 2 ^ 53) d ltac:(lia)).
    pose proof (Z.mul_succ_div_gt (a * 2 ^ 53) d ltac:(lia)). lia. }
  assert (H2 : d * (n1 + 1) <= b * 2 ^ 53) by nia.
  assert (N1 : 0 < n1) by nia.
  assert (N2 : n1 + 1 < 2 ^ 53) by nia.
  assert (E1 : round_units F64.prec (n1 * G) 1 = n1 * G).
  { apply (binary64 round_units_exact); [lia| |lia].
    apply Zdigits2_le; [|done]. change F64.prec with 53. lia. }
  assert (E2 : round_units F64.prec ((n1 + 1) * G) 1 = (n1 + 1) * G).
  { apply (binary64 round_units_exact); [lia| |lia].
    apply Zdigits2_le; [|done]. change F64.prec with 53. lia. }
  apply Z.le_lt_trans with (n1 * G).
  - rewrite <- E1. apply (binary64 round_units_mono); [nia|lia|lia|].
    replace (a * (2 ^ 53 * G) * 1) with (a * 2 ^ 53 * G) by ring.
    replace (n1 * G * d) with (d * n1 * G) by ring.
    apply Z.mul_le_mono_nonneg_r; lia.
  - apply Z.lt_le_trans with ((n1 + 1) * G).
    + apply Z.mul_lt_mono_pos_r; lia.
    + rewrite <- E2. apply (binary64 round_units_mono); [nia|lia|lia|].
      replace ((n1 + 1) * G * d) with (d * (n1 + 1) * G) by ring.
      replace (b * (2 ^ 53 * G) * 1) with (b * 2 ^ 53 * G) by ring.
      apply Z.mul_le_mono_nonneg_r; lia.
Qed.

(** X13: normalisation never merges two grey levels of a 16-bit picture: a
    strictly brighter sample gets a strictly greater value. *)
Theorem normalize_separates (ecoli : grid Z) (out : grid float)
    (i j i' j' : nat) (x x' : Z) (v v' : float) :
  uint16_grid ecoli -> normalize ecoli = Ok out ->
  pixel ecoli i j = Some x -> pixel ecoli i' j' = Some x' ->
  pixel out i j = Some v -> pixel out i' j' = Some v' ->
  x < x' -> F64.ltb v v' = true.
Proof.
  intros U Hn Hp Hp' Hv Hv' Hlt.
  destruct (np_min ecoli) as [lo|] eqn:Hmin.
  2:{ unfold normalize in Hn. rewrite Hmin in Hn. discriminate. }
  destruct (np_max ecoli) as [hi|] eqn:Hmax.
  2:{ unfold normalize in Hn. rewrite Hmin, Hmax in Hn. discriminate. }
  rewrite (normalize_uint16 _ _ _ U Hmin Hmax) in Hn.
  assert (out = elementwise
                  (fun x => F64.div (F64.of_Z (x - lo)) (F64.of_Z (hi - lo))) ecoli)
    as -> by congruence.
  rewrite pixel_elementwise, Hp in Hv. rewrite pixel_elementwise, Hp' in Hv'.
  assert (v = F64.div (F64.of_Z (x - lo)) (F64.of_Z (hi - lo))) as ->
    by (simpl in Hv; congruence).
  assert (v' = F64.div (F64.of_Z (x' - lo)) (F64.of_Z (hi - lo))) as ->
    by (simpl in Hv'; congruence).
  assert (Hx : x ∈ concat ecoli) by (apply elem_of_concat_pixel; eauto).
  assert (Hx' : x' ∈ concat ecoli) by (apply elem_of_concat_pixel; eauto).
  destruct (np_min_spec _ _ Hmin) as [Hlo_in Hlo].
  destruct (np_max_spec _ _ Hmax) as [Hhi_in Hhi].
  pose proof (Hlo x Hx). pose proof (Hhi x' Hx').
  pose proof (uint16_grid_elem _ _ U Hlo_in) as Blo.
  pose proof (uint16_grid_elem _ _ U Hhi_in) as Bhi.
  unfold uint16_max in *.
  apply div_of_Z_lt; lia.
Qed.

Lemma normalize_separates_witness :
  F64.ltb F64.zero (F64.div (F64.of_Z 2) (F64.of_Z 4)) = true.
Proof.
  apply (normalize_separates [[3; 7]; [5; 7]]
           [[F64.zero; F64.one]; [F64.div (F64.of_Z 2) (F64.of_Z 4); F64.one]]
           0 0 1 0 3 5).
  - repeat constructor; unfold uint16_max; lia.
  - vm_compute. reflexivity.
  - reflexivity.
  - reflexivity.
  - reflexivity.
  - reflexivity.
  - lia.
Defined.

(** ** The accuracy of the ruler *)

(** A rounded quotient lies between the two neighbours of the exact one on
    any grid of floats. *)
Lemma round_units_near N D j :
  0 <= j -> 0 < D -> D * 2 ^ j <= N -> N + D * 2 ^ j < D * 2 ^ j * 2 ^ 53 ->
  N - D * 2 ^ j < D * round_units F64.prec N D <= N + D * 2 ^ j.
Proof.
  intros Hj HD Hlo Hhi.
  pose proof (Z.pow_pos_nonneg 2 j ltac:(lia) Hj) as Pg.
  set (g := 2 ^ j) in *.
  assert (PDg : 0 < D * g) by nia.
  set (n := N / (D * g)).
  assert (Hn : D * g * n <= N < D * g * (n + 1)).
  { unfold n. pose proof (Z.mul_div_le N (D * g) PDg).
    pose proof (Z.mul_succ_div_gt N (D * g) PDg). lia. }
  assert (N1 : 0 < n) by (unfold n; apply Z.div_str_pos; lia).
  assert (N2 : n + 1 < 2 ^ 53) by (apply (Z.mul_lt_mono_pos_l (D * g)); lia).
  assert (E1 : round_units F64.prec (n * g) 1 = n * g).
  { apply (binary64 round_units_exact); [lia| |lia].
    apply Zdigits2_le; [|done]. change F64.prec with 53. lia. }
  assert (E2 : round_units F64.prec ((n + 1) * g) 1 = (n + 1) * g).
  { apply (binary64 round_units_exact); [lia| |lia].
    apply Zdigits2_le; [|done]. change F64.prec with 53. lia. }
  assert (L : n * g <= round_units F64.prec N D).
  { rewrite <- E1. apply (binary64 round_units_mono); [nia|lia|lia|lia]. }
  assert (U : round_units F64.prec N D <= (n + 1) * g).
  { rewrite <- E2. apply (binary64 round_units_mono); [nia|lia|lia|lia]. }
  apply (Z.mul_le_mono_nonneg_l _ _ D) in L; [|lia].
  apply (Z.mul_le_mono_nonneg_l _ _ D) in U; [|lia].
  lia.
Qed.

Lemma div_sandwich R W d c :
  0 < W -> 0 < c -> (d - c) * W <= c * R -> c * R < (d + 1) * W ->
  d / c - 1 <= R / W <= d / c.
Proof.
  intros HW Hc Hlo Hhi.
  pose proof (Z.mul_div_le R W HW) as Hq.
  pose proof (Z.mul_div_le d c Hc) as Hk.
  split.
  - apply Z.div_le_lower_bound; [done|].
    set (k := d / c) in *. nia.
  - apply Z.div_le_lower_bound; [done|].
    set (q := R / W) in *. nia.
Qed.

(** The bar length for a distance of [d] pixels: the two divisions stay
    finite, and the result is within 1/160 of [d / 80]. *)
Lemma bar_length_of_Z d :
  1 <= d < 2 ^ 20 ->
  exists ma ea m e,
    F64.div (F64.of_Z (1000 * 8 * 10)) (F64.of_Z d) = S754_finite false ma ea /\
    F64.div (F64.of_Z 1000) (S754_finite false ma ea) = S754_finite false m e /\
    bounded F64.prec F64.emax m e = true /\
    (2 * d - 1) * 2 ^ (- F64.emin) <= 160 * mag_units F64.prec F64.emax m e
      <= (2 * d + 1) * 2 ^ (- F64.emin).
Proof.
  intros Hd.
  destruct (div_of_Z (1000 * 8 * 10) d ltac:(lia) ltac:(lia)) as (ma & ea & Ea & Ba & Ma).
  destruct (of_Z_small 1000 ltac:(lia)) as (mk & ek & Ek & Bk & Mk & Dk).
  change (Zdigits2 1000) with 10 in Dk.
  pose proof F64_emin_val as Ev.
  assert (HW : 2 ^ (- F64.emin) = 2 ^ 34 * 2 ^ (- F64.emin - 34)).
  { rewrite <- Z.pow_add_r by lia. f_equal; lia. }
  assert (Pu : 0 < 2 ^ (- F64.emin - 34)) by (apply Z.pow_pos_nonneg; lia).
  assert (Eg : forall n, 0 < n < 2 ^ 53 ->
             round_units F64.prec (n * 2 ^ (- F64.emin - 34)) 1
             = n * 2 ^ (- F64.emin - 34)).
  { intros n Hn. apply (binary64 round_units_exact); [lia| |lia].
    apply Zdigits2_le; [|done]. change F64.prec with 53. lia. }
  assert (Hover : 2 ^ 53 * 2 ^ (- F64.emin - 34) <= 2 ^ (F64.emax - F64.emin)).
  { rewrite <- Z.pow_add_r by lia. apply Z.pow_le_mono_r; [lia|].
    change F64.emax with 1024. lia. }
  pose proof (binary64 SFdiv_correct false mk ek false ma ea Bk Ba) as C.
  pose proof (binary64 mag_lt_overflow _ _ Ba) as [Apos _].
  assert (HdA : Zdigits2 (mag_units F64.prec F64.emax ma ea)
                = Zdigits2 (Z.pos ma) + (ea - F64.emin)).
  { unfold mag_units. apply Zdigits2_mul_pow2; [lia|].
    destruct (binary64 bounded_spec _ _ Ba) as (_ & He & _). lia. }
  pose proof (round_units_near (1000 * 8 * 10 * 2 ^ (- F64.emin)) d (- F64.emin - 34)) as HA.
  rewrite <- Ma in HA. rewrite Mk in C.
  set (A := mag_units F64.prec F64.emax ma ea) in *.
  rewrite HW in HA, C |- *.
  set (u := 2 ^ (- F64.emin - 34)) in *.
  specialize (HA ltac:(lia) ltac:(lia) ltac:(nia) ltac:(nia)).
  assert (HAlt : A < 2 ^ (17 + - F64.emin)).
  { rewrite Z.pow_add_r, HW by lia. fold u. nia. }
  assert (HdA' : Zdigits2 A <= 17 + - F64.emin) by (apply Zdigits2_le; lia).
  specialize (C ltac:(rewrite Ev; change F64.prec with 53; lia)).
  cbv beta iota delta [xorb] in C.
  set (R := round_units F64.prec (1000 * (2 ^ 34 * u) * (2 ^ 34 * u)) A) in *.
  (* the float grid point above *)
  set (n := (2 ^ 34 * d + 2 ^ 33) / 80).
  assert (Hn : 80 * n <= 2 ^ 34 * d + 2 ^ 33 < 80 * (n + 1)).
  { unfold n. pose proof (Z.mul_div_le (2 ^ 34 * d + 2 ^ 33) 80 ltac:(lia)).
    pose proof (Z.mul_succ_div_gt (2 ^ 34 * d + 2 ^ 33) 80 ltac:(lia)). lia. }
  assert (RU : R <= n * u).
  { rewrite <- (Eg n) by lia. apply (binary64 round_units_mono); [nia|lia|lia|].
    assert (P1 : 1000 * 2 ^ 34 * 2 ^ 34 * d <= n * (80000 * 2 ^ 34 - d)) by nia.
    assert (X1 : n * u * ((80000 * 2 ^ 34 - d) * u) <= n * u * (d * A))
      by (apply Z.mul_le_mono_nonneg_l; [nia|lia]).
    assert (X2 : 1000 * 2 ^ 34 * 2 ^ 34 * d * (u * u)
                 <= n * (80000 * 2 ^ 34 - d) * (u * u))
      by (apply Z.mul_le_mono_nonneg_r; [nia|exact P1]).
    apply (Z.mul_le_mono_pos_l _ _ d); lia. }
  (* the float grid point below *)
  set (n' := (2 ^ 34 * d - 2 ^ 33 + 79) / 80).
  assert (Hn' : 2 ^ 34 * d - 2 ^ 33 <= 80 * n' <= 2 ^ 34 * d - 2 ^ 33 + 79).
  { unfold n'. pose proof (Z.mul_div_le (2 ^ 34 * d - 2 ^ 33 + 79) 80 ltac:(lia)).
    pose proof (Z.mul_succ_div_gt (2 ^ 34 * d - 2 ^ 33 + 79) 80 ltac:(lia)). lia. }
  assert (RL : n' * u <= R).
  { rewrite <- (Eg n') by lia. apply (binary64 round_units_mono); [nia|lia|lia|].
    assert (P2 : n' * (80000 * 2 ^ 34 + d) <= 1000 * 2 ^ 34 * 2 ^ 34 * d) by nia.
    assert (X1 : n' * u * (d * A) <= n' * u * ((80000 * 2 ^ 34 + d) * u))
      by (apply Z.mul_le_mono_nonneg_l; [nia|lia]).
    assert (X2 : n' * (80000 * 2 ^ 34 + d) * (u * u)
                 <= 1000 * 2 ^ 34 * 2 ^ 34 * d * (u * u))
      by (apply Z.mul_le_mono_nonneg_r; [nia|exact P2]).
    apply (Z.mul_le_mono_pos_l _ _ d); lia. }
  assert (Rpos : 0 < R) by nia.
  assert (Rlt : R < 2 ^ (F64.emax - F64.emin)) by nia.
  destruct C as [[C0 _]|[(_ & m & e & E & B & M)|[C0 _]]]; [lia| |lia].
  exists ma, ea, m, e. split; [exact Ea|]. split; [rewrite Ek; exact E|].
  split; [exact B|]. rewrite M.
  assert (80 * (n * u) <= (2 ^ 34 * d + 2 ^ 33) * u)
    by (rewrite Z.mul_assoc; apply Z.mul_le_mono_nonneg_r; lia).
  assert ((2 ^ 34 * d - 2 ^ 33) * u <= 80 * (n' * u))
    by (rewrite Z.mul_assoc; apply Z.mul_le_mono_nonneg_r; lia).
  lia.
Qed.

Lemma offset_of_Z (L c d : Z) m e :
  0 < L -> L * c = 80 -> 1 <= d < 2 ^ 20 ->
  bounded F64.prec F64.emax m e = true ->
  (2 * d - 1) * 2 ^ (- F64.emin) <= 160 * mag_units F64.prec F64.emax m e
    <= (2 * d + 1) * 2 ^ (- F64.emin) ->
  exists o, py_int (F64.mul (F64.of_Z L) (S754_finite false m e)) = Ok o /\
            d / c - 1 <= o <= d / c.
Proof.
  intros HL Hc Hd B HS.
  assert (Pc : 0 < c) by (apply (Z.mul_pos_cancel_l L); lia).
  assert (Hc' : c <= 80 /\ L <= 80).
  { split.
    - rewrite <- Hc. rewrite <- (Z.mul_1_l c) at 1.
      apply Z.mul_le_mono_nonneg_r; lia.
    - rewrite <- Hc. rewrite <- (Z.mul_1_r L) at 1.
      apply Z.mul_le_mono_nonneg_l; lia. }
  pose proof F64_emin_val as Ev.
  assert (HW : 2 ^ (- F64.emin) = 2 ^ 30 * 2 ^ (- F64.emin - 30)).
  { rewrite <- Z.pow_add_r by lia. f_equal; lia. }
  assert (Pu : 0 < 2 ^ (- F64.emin - 30)) by (apply Z.pow_pos_nonneg; lia).
  assert (Hover : 2 ^ 53 * 2 ^ (- F64.emin - 30) <= 2 ^ (F64.emax - F64.emin)).
  { rewrite <- Z.pow_add_r by lia. apply Z.pow_le_mono_r; [lia|].
    change F64.emax with 1024. lia. }
  pose proof (mul_of_Z L m e ltac:(lia) B) as C.
  pose proof (round_units_near (L * mag_units F64.prec F64.emax m e) 1
                (- F64.emin - 30)) as HR.
  set (S := mag_units F64.prec F64.emax m e) in *.
  rewrite HW in HS.
  set (u := 2 ^ (- F64.emin - 30)) in *.
  assert (Kd : 1 * u <= d * u <= 2 ^ 20 * u)
    by (split; apply Z.mul_le_mono_nonneg_r; lia).
  assert (PS : 0 < S) by lia.
  assert (K0 : 1 * S <= L * S <= 80 * S)
    by (split; apply Z.mul_le_mono_nonneg_r; lia).
  specialize (HR ltac:(lia) ltac:(lia) ltac:(lia) ltac:(lia)).
  set (R := round_units F64.prec (L * S) 1) in *.
  assert (Rlt : R < 2 ^ (F64.emax - F64.emin)) by lia.
  destruct C as [[C0 _]|[(_ & m' & e' & E & B' & M')|[C0 _]]]; [lia| |lia].
  rewrite E, (py_int_finite m' e' B'), M', HW. fold u.
  eexists. split; [reflexivity|].
  assert (K1 : c * (L * S) = 80 * S) by (rewrite <- Hc; ring).
  assert (K2 : c * (L * S - u) <= c * R) by (apply Z.mul_le_mono_nonneg_l; lia).
  assert (K3 : c * R <= c * (L * S + u)) by (apply Z.mul_le_mono_nonneg_l; lia).
  assert (K4 : 1 * u <= c * u <= 80 * u)
    by (split; apply Z.mul_le_mono_nonneg_r; lia).
  apply div_sandwich; lia.
Qed.

(** X14: when the two clicks are a whole number [d] of pixels apart (up to
    about a million), the script runs through the calibration and the three
    offsets, and the offsets for 1, 5 and 10 micrometres are [d / 80],
    [d / 16] and [d / 8] rounded down, or one pixel less: the two roundings
    of the calibration never put a notch too far right, but they can put
    it one pixel short. *)
Theorem scale_bar_accuracy (clicks : list click) (d : Z) :
  1 <= d < 2 ^ 20 ->
  pixels_between_lines clicks = Ok (F64.of_Z d) ->
  exists nm length_px o1 o5 o10,
    nm_per_pixel clicks = Ok nm /\
    scale_bar_length nm = Ok length_px /\
    scale_bar_offset length_px
      = Ok (<["10" := o10]> (<["5" := o5]> (<["1" := o1]> ∅))) /\
    d / 80 - 1 <= o1 <= d / 80 /\
    d / 16 - 1 <= o5 <= d / 16 /\
    d / 8 - 1 <= o10 <= d / 8.
Proof.
  intros Hd Hp.
  destruct (bar_length_of_Z d Hd) as (ma & ea & m & e & Ea & E & B & HS).
  destruct (offset_of_Z 5 16 d m e ltac:(lia) ltac:(lia) Hd B HS) as (o5 & E5 & H5).
  destruct (offset_of_Z 10 8 d m e ltac:(lia) ltac:(lia) Hd B HS) as (o10 & E10 & H10).
  destruct unit_scale_bounds as [PW _].
  exists (S754_finite false ma ea), (S754_finite false m e),
    (mag_units F64.prec F64.emax m e / 2 ^ (- F64.emin)), o5, o10.
  split.
  { unfold nm_per_pixel. rewrite Hp. cbv beta iota delta [result_bind].
    unfold float64_truediv. rewrite known_distance_nm_exact, Ea. reflexivity. }
  split.
  { unfold scale_bar_length, float64_truediv. rewrite E. reflexivity. }
  split.
  { unfold scale_bar_offset. rewrite (py_int_finite m e B), E5, E10. reflexivity. }
  split; [|done].
  apply div_sandwich; lia.
Qed.

Lemma scale_bar_accuracy_witness :
  exists nm length_px o1 o5 o10,
    nm_per_pixel [(F64.of_Z 100, F64.of_Z 7); (F64.of_Z 1300, F64.of_Z 9)] = Ok nm /\
    scale_bar_length nm = Ok length_px /\
    scale_bar_offset length_px
      = Ok (<["10" := o10]> (<["5" := o5]> (<["1" := o1]> ∅))) /\
    1200 / 80 - 1 <= o1 <= 1200 / 80 /\
    1200 / 16 - 1 <= o5 <= 1200 / 16 /\
    1200 / 8 - 1 <= o10 <= 1200 / 8.
Proof.
  apply (scale_bar_accuracy
           [(F64.of_Z 100, F64.of_Z 7); (F64.of_Z 1300, F64.of_Z 9)] 1200).
  - lia.
  - vm_compute. reflexivity.
Defined.

(** The lower bounds are attained: 1200 pixels between the clicks give a
    1 micrometre notch at 14 pixels, not 15. *)
Example scale_bar_one_pixel_short :
  (try nm <- nm_per_pixel [(F64.of_Z 100, F64.of_Z 7); (F64.of_Z 1300, F64.of_Z 9)];
   try length_px <- scale_bar_length nm;
   scale_bar_offset length_px)
  = Ok (<["10" := 149]> (<["5" := 74]> (<["1" := 14]> ∅))).
Proof. vm_compute. reflexivity. Qed.

(** ** Coinciding clicks *)

(** C7, as the code has it: two clicks with the same finite x-position
    measure a distance of zero, and the division by it is carried out
    without any guard; but it is numpy's division, so nothing is raised: the
    calibration is [+inf], the bar length [1000 / inf] is zero, and all three
    offsets are zero. *)
Theorem nm_per_pixel_same_x (c0 c1 : click) :
  F64.is_finite (fst c0) = true -> F64.is_finite (fst c1) = true ->
  F64.eqb (fst c0) (fst c1) = true ->
  pixels_between_lines [c0; c1] = Ok F64.zero /\
  nm_per_pixel [c0; c1] = Ok (S754_infinity false) /\
  scale_bar_length (S754_infinity false) = Ok F64.zero /\
  scale_bar_offset F64.zero = Ok (<["10" := 0]> (<["5" := 0]> (<["1" := 0]> ∅))) /\
  forall graticule_tif σ,
    fst (calibrate graticule_tif [c0; c1] σ) <> Raise ZeroDivisionError.
Proof.
  intros F0 F1 E.
  assert (HP : pixels_between_lines [c0; c1] = Ok F64.zero).
  { change (pixels_between_lines [c0; c1])
      with (Ok (A := float) (F64.abs (F64.sub (fst c1) (fst c0)))).
    rewrite sub_eq_zero; try done. unfold F64.eqb in *. rewrite SFeqb_sym. done. }
  assert (HN : nm_per_pixel [c0; c1] = Ok (S754_infinity false)).
  { unfold nm_per_pixel. rewrite HP. vm_compute. reflexivity. }
  split; [done|]. split; [done|].
  split; [vm_compute; reflexivity|]. split; [vm_compute; reflexivity|].
  intros g σ. rewrite calibrate_result, HN.
  destruct (np_min g) as [?|e0] eqn:E1;
    [|unfold np_min in E1; destruct (reduce_outcome Z.min (concat g)) as [[_ H]|[_ [? H]]];
      rewrite H in E1; cbv beta iota delta [result_bind]; congruence].
  destruct (np_max g) as [?|e0] eqn:E2;
    [|unfold np_max in E2; destruct (reduce_outcome Z.max (concat g)) as [[_ H]|[_ [? H]]];
      rewrite H in E2; cbv beta iota delta [result_bind]; congruence].
  cbv beta iota delta [result_bind]. unfold np_item.
  destruct (py_getitem g 20) as [row|] eqn:E20;
    [|apply py_getitem_error in E20 as ->; cbv beta iota delta [result_bind]; congruence].
  cbv beta iota delta [result_bind].
  destruct (py_getitem row 10) eqn:E10;
    [|apply py_getitem_error in E10 as ->; congruence].
  destruct (py_getitem g 400) eqn:E400;
    [|apply py_getitem_error in E400 as ->; congruence].
  congruence.
Qed.

Lemma nm_per_pixel_same_x_witness :
  nm_per_pixel [(F64.of_Z 640, F64.of_Z 300); (F64.of_Z 640, F64.of_Z 25)] =
    Ok (S754_infinity false).
Proof.
  apply (nm_per_pixel_same_x (F64.of_Z 640, F64.of_Z 300) (F64.of_Z 640, F64.of_Z 25));
    vm_compute; reflexivity.
Defined.

(** C7, as stated, fails: with both clicks at x = 640 the division raises
    nothing, and the script runs to its end with all offsets zero. *)
Lemma nm_per_pixel_same_x_no_fault :
  nm_per_pixel [(F64.of_Z 640, F64.of_Z 300); (F64.of_Z 640, F64.of_Z 25)]
    <> Raise ZeroDivisionError /\
  (try nm <- nm_per_pixel [(F64.of_Z 640, F64.of_Z 300); (F64.of_Z 640, F64.of_Z 25)];
   try length_px <- scale_bar_length nm;
   scale_bar_offset length_px)
    = Ok (<["10" := 0]> (<["5" := 0]> (<["1" := 0]> ∅))) /\
  fst (EColiSize (repeat (repeat 100 11%nat) 401%nat) [[3; 7]; [5; 7]]
         [(F64.of_Z 640, F64.of_Z 300); (F64.of_Z 640, F64.of_Z 25)] ∅)
    = Ok (1%nat, 2%nat).
Proof.
  split; [vm_compute; discriminate|]. split; vm_compute; reflexivity.
Qed.
